(** * gala: potentials and the mock-stream driver

    A shallow embedding of two Cython sources of gala:

    - the potential classes ([CPotential], [_CPotential],
      [_CCompositePotential]);
    - the mock-stream driver [mockstream_dop853].

    C [double]s are Rocq's primitive binary64 floats, C [int]s are
    integers of [Z] kept inside the 32-bit range, memoryviews are lists
    (of lists) of floats.  Both sources are compiled with
    [boundscheck=False] and [wraparound=False]: an index outside an array,
    a negative one included, is undefined behaviour, and so is signed
    overflow.  Both are the outcome [Undefined] here, apart from a raised
    Python exception ([Raise]). *)

From Stdlib Require Import Floats ZArith Lia String.
From stdpp Require Import base list.

Local Open Scope Z_scope.
#[local] Set Warnings "-inexact-float".

(** ** Outcomes of a call *)

Inductive exn : Type :=
  | AttributeError
  | TypeError
  | ValueError (msg : string)
  | OverflowError
  | KeyboardInterrupt.

Inductive outcome (T : Type) : Type :=
  | Ok (x : T)
  | Raise (e : exn)
  | Undefined.

Arguments Ok {T} x.
Arguments Raise {T} e.
Arguments Undefined {T}.

Definition obind {T U : Type} (m : outcome T) (k : T -> outcome U) : outcome U :=
  match m with
  | Ok x => k x
  | Raise e => Raise e
  | Undefined => Undefined
  end.

Notation "x <- m ;; k" := (obind m (fun x => k))
  (at level 100, m at next level, right associativity).

(** ** C integers *)

Definition INT_MAX : Z := 2147483647.
Definition INT_MIN : Z := -2147483648.

Definition in_int (z : Z) : bool := (INT_MIN <=? z) && (z <=? INT_MAX).

(** [int + int]: overflow is undefined. *)
Definition int_add (a b : Z) : outcome Z :=
  if in_int (a + b) then Ok (a + b) else Undefined.

(** A Python integer stored into a C [int]: [OverflowError] out of range. *)
Definition to_c_int (z : Z) : outcome Z :=
  if in_int z then Ok z else Raise OverflowError.

(** A [Py_ssize_t] stored into an [int]: the low 32 bits, as a signed
    number. *)
Definition int_of_ssize (z : Z) : Z :=
  (z + 2147483648) mod 4294967296 - 2147483648.

(** An [int] passed for an [unsigned] parameter. *)
Definition to_unsigned (z : Z) : Z := z mod 4294967296.

(** [range(n)] of a C [for] loop over an [int]: nothing when [n <= 0]. *)
Definition range (n : Z) : list Z := map Z.of_nat (seq 0 (Z.to_nat n)).

Definition range_from (a b : Z) : list Z := map (fun j => a + j) (range (b - a)).

Fixpoint for_each {St : Type} (l : list Z) (body : Z -> St -> outcome St) (s : St)
  : outcome St :=
  match l with
  | [] => Ok s
  | i :: l' => s' <- body i s ;; for_each l' body s'
  end.

Definition for_range {St : Type} (n : Z) (body : Z -> St -> outcome St) (s : St)
  : outcome St :=
  for_each (range n) body s.

(** ** Arrays *)

Abbreviation array1 := (list float).
Abbreviation array2 := (list (list float)).
Abbreviation array3 := (list (list (list float))).

(** One axis of an unchecked access. *)
Definition at_index {T : Type} (a : list T) (i : Z) : outcome T :=
  if (0 <=? i) && (i <=? INT_MAX) then
    match a !! Z.to_nat i with
    | Some x => Ok x
    | None => Undefined
    end
  else Undefined.

Definition put_index {T : Type} (a : list T) (i : Z) (x : T) : outcome (list T) :=
  if (0 <=? i) && (i <=? INT_MAX) then
    if (Z.to_nat i <? length a)%nat then Ok (<[Z.to_nat i := x]> a) else Undefined
  else Undefined.

Definition get1 (a : array1) (i : Z) : outcome float := at_index a i.

Definition set1 (a : array1) (i : Z) (v : float) : outcome array1 := put_index a i v.

Definition get2 (a : array2) (i j : Z) : outcome float :=
  row <- at_index a i ;; at_index row j.

Definition set2 (a : array2) (i j : Z) (v : float) : outcome array2 :=
  row <- at_index a i ;; row' <- put_index row j v ;; put_index a i row'.

Definition get3 (a : array3) (i j k : Z) : outcome float :=
  m <- at_index a i ;; get2 m j k.

(** [a[i] = v] on a two-dimensional view: the whole row [i]. *)
Definition fill2 (a : array2) (i : Z) (v : float) : outcome array2 :=
  row <- at_index a i ;; put_index a i (replicate (length row) v).

(** [a[i, j] = v] on a three-dimensional view: the whole line [i, j]. *)
Definition fill3 (a : array3) (i j : Z) (v : float) : outcome array3 :=
  m <- at_index a i ;; m' <- fill2 m j v ;; put_index a i m'.

Definition shape0 {T : Type} (a : list T) : Z := Z.of_nat (length a).

Definition shape1 {T : Type} (a : list (list T)) : Z :=
  match a with
  | [] => 0
  | row :: _ => Z.of_nat (length row)
  end.

(** [np.zeros]; a negative extent raises [ValueError]. *)
Definition np_zeros1 (n : Z) : outcome array1 :=
  if n <? 0 then Raise (ValueError "negative dimensions are not allowed")
  else Ok (replicate (Z.to_nat n) 0%float).

Definition np_zeros2 (n d : Z) : outcome array2 :=
  if (n <? 0) || (d <? 0) then Raise (ValueError "negative dimensions are not allowed")
  else Ok (replicate (Z.to_nat n) (replicate (Z.to_nat d) 0%float)).

Definition np_zeros3 (n d e : Z) : outcome array3 :=
  if (n <? 0) || (d <? 0) || (e <? 0)
  then Raise (ValueError "negative dimensions are not allowed")
  else Ok (replicate (Z.to_nat n)
             (replicate (Z.to_nat d) (replicate (Z.to_nat e) 0%float))).

(** ** The potential classes *)

(** An instance of a class derived from [_CPotential], given by the four
    [cdef] hooks its class ends up with, and by its attribute [G] when the
    class has one.  [_gradient] and [_hessian] work in place on the buffer
    they receive and [_mass_enclosed] on the scratch row [epsilon]: the
    updated buffer is returned. *)
Record _CPotential : Type := {
  _value : array2 -> Z -> outcome float;
  _gradient : array2 -> array2 -> Z -> outcome array2;
  _hessian : array2 -> array3 -> Z -> outcome array3;
  _mass_enclosed : array2 -> array2 -> float -> Z -> outcome (float * array2);
  G_attr : option float
}.

(** The hooks as the class [_CPotential] defines them. *)
Module Base.

(** [_CPotential._value]: [return 0.] *)
Definition _value (q : array2) (k : Z) : outcome float := Ok 0%float.

(** [_CPotential._gradient]: [grad[0] = 0.; grad[1] = 0.; grad[2] = 0.] *)
Definition _gradient (r grad : array2) (k : Z) : outcome array2 :=
  grad <- fill2 grad 0 0%float ;;
  grad <- fill2 grad 1 0%float ;;
  fill2 grad 2 0%float.

(** [_CPotential._hessian]: [hess[i,j] = 0.] for [i], [j] in [range(3)]. *)
Definition _hessian (w : array2) (hess : array3) (k : Z) : outcome array3 :=
  for_range 3 (fun i hess =>
    for_range 3 (fun j hess => fill3 hess i j 0%float) hess) hess.

(** [_CPotential._mass_enclosed], for an instance whose [_value] hook is
    [self_value]. *)
Definition _mass_enclosed (self_value : array2 -> Z -> outcome float)
    (q epsilon : array2) (Gee : float) (k : Z) : outcome (float * array2) :=
  let h := 0.01%float in
  qk0 <- get2 q k 0 ;;
  qk1 <- get2 q k 1 ;;
  qk2 <- get2 q k 2 ;;
  let r := PrimFloat.sqrt (qk0 * qk0 + qk1 * qk1 + qk2 * qk2)%float in
  epsilon <- for_range 3 (fun j epsilon =>
               qkj <- get2 q k j ;;
               set2 epsilon 0 j (h * qkj / r + qkj)%float) epsilon ;;
  dPhi_dr <- self_value epsilon 0 ;;
  epsilon <- for_range 3 (fun j epsilon =>
               qkj <- get2 q k j ;;
               set2 epsilon 0 j (h * qkj / r - qkj)%float) epsilon ;;
  v <- self_value epsilon 0 ;;
  let dPhi_dr := (dPhi_dr - v)%float in
  Ok (PrimFloat.abs (r * r * dPhi_dr / Gee / (2 * h))%float, epsilon).

End Base.

(** The [cpdef] methods, which no class overrides. *)

(** [cpdef value(self, q, pot)]; the filled [pot] is the result. *)
Definition value (self : _CPotential) (q : array2) (pot : array1)
  : outcome array1 :=
  let nparticles := int_of_ssize (shape0 q) in
  for_range nparticles (fun k pot =>
    v <- _value self q k ;; set1 pot k v) pot.

(** [cpdef gradient(self, q)] *)
Definition gradient (self : _CPotential) (q : array2) : outcome array2 :=
  let nparticles := int_of_ssize (shape0 q) in
  let ndim := int_of_ssize (shape1 q) in
  grad <- np_zeros2 nparticles ndim ;;
  for_range nparticles (fun k grad => _gradient self q grad k) grad.

(** [cpdef hessian(self, w)] *)
Definition hessian (self : _CPotential) (w : array2) : outcome array3 :=
  let nparticles := int_of_ssize (shape0 w) in
  let ndim := int_of_ssize (shape1 w) in
  hess <- np_zeros3 nparticles ndim ndim ;;
  for_range nparticles (fun k hess => _hessian self w hess k) hess.

(** [self.G]: a Python attribute look-up. *)
Definition getattr_G (self : _CPotential) : outcome float :=
  match G_attr self with
  | Some g => Ok g
  | None => Raise AttributeError
  end.

(** [cpdef mass_enclosed(self, q)] *)
Definition mass_enclosed (self : _CPotential) (q : array2) : outcome array1 :=
  let nparticles := int_of_ssize (shape0 q) in
  epsilon <- np_zeros2 1 3 ;;
  mass <- np_zeros1 nparticles ;;
  st <- for_range nparticles (fun k (st : array2 * array1) =>
          Gee <- getattr_G self ;;
          r <- _mass_enclosed self q (fst st) Gee k ;;
          mass <- set1 (snd st) k (fst r) ;;
          Ok (snd r, mass)) (epsilon, mass) ;;
  Ok (snd st).

(** An instance of the class [_CPotential] itself: no hook overridden, no
    [G]. *)
Definition base_instance : _CPotential :=
  {| _value := Base._value;
     _gradient := Base._gradient;
     _hessian := Base._hessian;
     _mass_enclosed := Base._mass_enclosed Base._value;
     G_attr := None |}.

(** A class derived from [_CPotential] outside these sources: the hooks it
    overrides are given, the others are inherited. *)
Definition subclass
    (value' : option (array2 -> Z -> outcome float))
    (gradient' : option (array2 -> array2 -> Z -> outcome array2))
    (hessian' : option (array2 -> array3 -> Z -> outcome array3))
    (G' : option float) : _CPotential :=
  let v := default Base._value value' in
  {| _value := v;
     _gradient := default Base._gradient gradient';
     _hessian := default Base._hessian hessian';
     _mass_enclosed := Base._mass_enclosed v;
     G_attr := G' |}.

(** The object stored as [c_instance] by the Python class [CPotential]: any
    Python object, seen through the four attributes that are looked up on
    it.  A missing attribute is [None]. *)
Record c_object : Type := {
  attr_value : option (array2 -> array1 -> outcome array1);
  attr_gradient : option (array2 -> outcome array2);
  attr_hessian : option (array2 -> outcome array3);
  attr_mass_enclosed : option (array2 -> outcome array1)
}.

(** Every instance of a class derived from [_CPotential] has the four
    [cpdef] methods. *)
Definition c_object_of (p : _CPotential) : c_object :=
  {| attr_value := Some (value p);
     attr_gradient := Some (gradient p);
     attr_hessian := Some (hessian p);
     attr_mass_enclosed := Some (mass_enclosed p) |}.

(** [obj.name], for an attribute that the object has or not. *)
Definition getattr {T : Type} (a : option T) : outcome T :=
  match a with
  | Some m => Ok m
  | None => Raise AttributeError
  end.

(** [try: body / except AttributeError,TypeError: raise ValueError(msg)]:
    in this Python 2 syntax the clause catches [AttributeError] alone and
    binds it to the name [TypeError]. *)
Definition try_except_AttributeError {T : Type} (body : outcome T) (msg : string)
  : outcome T :=
  match body with
  | Raise AttributeError => Raise (ValueError msg)
  | r => r
  end.

(** The Python class [CPotential]; [self] is its [c_instance]. *)
Module CPotential.

Definition value (self : c_object) (q : array2) : outcome array1 :=
  tmp <- np_zeros1 (shape0 q) ;;
  m <- getattr (attr_value self) ;;
  m q tmp.

Definition gradient (self : c_object) (q : array2) : outcome array2 :=
  try_except_AttributeError
    (m <- getattr (attr_gradient self) ;; m q)
    "Potential C instance has no defined gradient function".

Definition hessian (self : c_object) (q : array2) : outcome array3 :=
  try_except_AttributeError
    (m <- getattr (attr_hessian self) ;; m q)
    "Potential C instance has no defined Hessian function".

Definition acceleration (self : c_object) (q : array2) : outcome array2 :=
  try_except_AttributeError
    (m <- getattr (attr_gradient self) ;;
     g <- m q ;;
     Ok (map (map PrimFloat.opp) g))
    "Potential C instance has no defined gradient function".

Definition mass_enclosed (self : c_object) (q : array2) : outcome array1 :=
  try_except_AttributeError
    (m <- getattr (attr_mass_enclosed self) ;; m q)
    "Potential C instance has no defined mass_enclosed function".

End CPotential.

(** ** The composite *)

(** [cdef PyObject *obj_list[100]] *)
Definition OBJ_LIST_SIZE : nat := 100.

Record _CCompositePotential : Type := {
  py_instances : list _CPotential;
  ninstances : Z;
  obj_list : list (option _CPotential);
  G : float
}.

(** [(<_CPotential>(self.obj_list[i]))]: slot [i] of the table; an index
    outside the table or a slot never written is undefined. *)
Definition obj_at (self : _CCompositePotential) (i : Z) : outcome _CPotential :=
  slot <- at_index (obj_list self) i ;;
  match slot with
  | Some p => Ok p
  | None => Undefined
  end.

Module Composite.

(** [_more_init]: [self.obj_list[i] = <PyObject *>self.py_instances[i]] *)
Definition _more_init (self : _CCompositePotential)
  : outcome _CCompositePotential :=
  tbl <- for_range (ninstances self) (fun i tbl =>
           p <- at_index (py_instances self) i ;;
           put_index tbl i (Some p)) (obj_list self) ;;
  Ok {| py_instances := py_instances self;
        ninstances := ninstances self;
        obj_list := tbl;
        G := G self |}.

(** [__init__(self, instance_list)]; the table and [G] of the fresh
    object are zeroed memory. *)
Definition __init__ (instance_list : list _CPotential)
  : outcome _CCompositePotential :=
  n <- to_c_int (shape0 instance_list) ;;
  _more_init {| py_instances := instance_list;
                ninstances := n;
                obj_list := replicate OBJ_LIST_SIZE None;
                G := 0%float |}.

Definition _value (self : _CCompositePotential) (q : array2) (k : Z)
  : outcome float :=
  for_range (ninstances self) (fun i v =>
    p <- obj_at self i ;;
    vi <- _value p q k ;;
    Ok (v + vi)%float) 0%float.

Definition _gradient (self : _CCompositePotential) (r grad : array2) (k : Z)
  : outcome array2 :=
  for_range (ninstances self) (fun i grad =>
    p <- obj_at self i ;;
    _gradient p r grad k) grad.

Definition _hessian (self : _CCompositePotential) (w : array2) (hess : array3)
    (k : Z) : outcome array3 :=
  for_range (ninstances self) (fun i hess =>
    p <- obj_at self i ;;
    _hessian p w hess k) hess.

Definition _mass_enclosed (self : _CCompositePotential) (q epsilon : array2)
    (Gee : float) (k : Z) : outcome (float * array2) :=
  for_range (ninstances self) (fun i (st : float * array2) =>
    p <- obj_at self i ;;
    r <- _mass_enclosed p q (snd st) Gee k ;;
    Ok ((fst st + fst r)%float, snd r)) (0%float, epsilon).

End Composite.

(** A composite as an instance of [_CPotential], which it derives from. *)
Definition composite_instance (c : _CCompositePotential) : _CPotential :=
  {| _value := Composite._value c;
     _gradient := Composite._gradient c;
     _hessian := Composite._hessian c;
     _mass_enclosed := Composite._mass_enclosed c;
     G_attr := Some (G c) |}.

(** [c.G = g], the attribute being public. *)
Definition set_G (c : _CCompositePotential) (g : float) : _CCompositePotential :=
  {| py_instances := py_instances c;
     ninstances := ninstances c;
     obj_list := obj_list c;
     G := g |}.

(** The Python class [CCompositePotential]: [__init__] builds the
    [c_instance] from the [c_instance]s of the potentials it is given, in
    the order of [kwargs.values()], and sets nothing else on it. *)
Module CCompositePotential.

Definition __init__ (values : list _CPotential) : outcome c_object :=
  c <- Composite.__init__ values ;;
  Ok (c_object_of (composite_instance c)).

End CCompositePotential.

(** ** The mock-stream driver *)

(** The C structs [CPotential] and [CFrame] of the integrator are opaque
    to the driver, which only passes pointers to them along. *)
Inductive CPotential_t : Type := potential_struct (id : Z).
Inductive CFrame_t : Type := frame_struct (id : Z).

(** [DEF MAX_NBODY = 1024] *)
Definition MAX_NBODY : nat := 1024.

(** [CPotential *c_particle_potentials[MAX_NBODY]]: a table of pointers
    on the stack; a slot never written is [None]. *)
Abbreviation potential_table := (list (option CPotential_t)).

(** What the driver reads of its argument [nbody]: [nbody.H.potential],
    [nbody.H.frame], [nbody.particle_potentials] (each through its
    [c_instance]) and [nbody._w0]. *)
Record nbody_t : Type := {
  H_potential : CPotential_t;
  H_frame : CFrame_t;
  particle_potentials : list CPotential_t;
  _w0 : array2
}.

(** What a run does that is seen from outside: the calls of the integrator
    and the polls for a signal. *)
Inductive event : Type :=
  | SaveAll (w0 : array2) (time : array1) (norbits ntimes : Z)
  | Step (w : array2) (t1 t2 dt0 : float) (norbits : Z)
  | CheckSignals.

(** What the driver takes from outside this file: the two entry points of
    the integrator ([dop853_step] works in place on the buffer: the
    contents it leaves are its result), the struct of the null potential,
    what [np.empty] leaves in the two buffers, and for each poll of
    [PyErr_CheckSignals], in order, whether a signal handler raises. *)
Record externals : Type := {
  dop853_helper_save_all :
    CPotential_t -> CFrame_t -> array2 -> array1 -> Z -> Z -> potential_table ->
    Z -> float -> float -> Z -> array3;
  dop853_step :
    CPotential_t -> CFrame_t -> array2 -> float -> float -> float -> Z -> Z ->
    potential_table -> float -> float -> Z -> array2;
  null_p : CPotential_t;
  w_tmp_garbage : nat -> nat -> float;
  w_final_garbage : nat -> nat -> float;
  pending_signal : nat -> bool
}.

(** [np.empty((n, d))] *)
Definition np_empty (garbage : nat -> nat -> float) (n d : Z) : outcome array2 :=
  if (n <? 0) || (d <? 0) then Raise (ValueError "negative dimensions are not allowed")
  else Ok (map (fun i => map (garbage i) (seq 0 (Z.to_nat d))) (seq 0 (Z.to_nat n))).

(** [np.empty((n, d, e))], for its failure alone. *)
Definition np_empty3_check (n d e : Z) : outcome unit :=
  if (n <? 0) || (d <? 0) || (e <? 0)
  then Raise (ValueError "negative dimensions are not allowed")
  else Ok tt.

(** [np.max] and [np.sum] of an array of [int]. *)
Definition np_max (a : list Z) : outcome Z :=
  match a with
  | [] => Raise (ValueError "zero-size array to reduction operation maximum which has no identity")
  | x :: l => Ok (foldr Z.max x l)
  end.

Definition np_sum (a : list Z) : Z := foldr Z.add 0 a.

(** A computation of the driver: the events so far are threaded through,
    and kept when the computation fails. *)
Definition M (T : Type) : Type := list event -> list event * outcome T.

Definition mret {T : Type} (x : T) : M T := fun tr => (tr, Ok x).

Definition mbind {T U : Type} (m : M T) (k : T -> M U) : M U :=
  fun tr =>
    match m tr with
    | (tr', Ok x) => k x tr'
    | (tr', Raise e) => (tr', Raise e)
    | (tr', Undefined) => (tr', Undefined)
    end.

Definition lift {T : Type} (o : outcome T) : M T := fun tr => (tr, o).

Definition emit (e : event) : M unit := fun tr => (tr ++ [e], Ok tt).

Notation "x <~ m ;; k" := (mbind m (fun x => k))
  (at level 100, m at next level, right associativity).

Fixpoint for_eachM {St : Type} (l : list Z) (body : Z -> St -> M St) (s : St) : M St :=
  match l with
  | [] => mret s
  | i :: l' => s' <~ body i s ;; for_eachM l' body s'
  end.

Definition for_rangeM {St : Type} (n : Z) (body : Z -> St -> M St) (s : St) : M St :=
  for_eachM (range n) body s.

Definition is_poll (e : event) : bool :=
  match e with
  | CheckSignals => true
  | _ => false
  end.

(** [PyErr_CheckSignals()], declared [except -1]: the exception a handler
    raises goes up to the caller. *)
Definition PyErr_CheckSignals (ext : externals) : M unit :=
  fun tr =>
    (tr ++ [CheckSignals],
     if pending_signal ext (length (filter (fun e => is_poll e = true) tr))
     then Raise KeyboardInterrupt else Ok tt).

(** The body of [for i in range(ntimes)]; the state is
    [(w_tmp, w_final, n)]. *)
Definition release_step (ext : externals) (cp : CPotential_t) (cf : CFrame_t)
    (args : potential_table) (nbody_w : array3) (nbodies : Z)
    (stream_w0 : array2) (stream_t1 : array1) (nstream : list Z)
    (t2 dt0 atol rtol : float) (nmax : Z)
    (i : Z) (st : array2 * array2 * Z) : M (array2 * array2 * Z) :=
  let ndim := 6 in
  let w_tmp := fst (fst st) in
  let w_final := snd (fst st) in
  let n := snd st in
  w_tmp <~ lift (for_range nbodies (fun j w_tmp =>
             for_range ndim (fun k w_tmp =>
               v <- get3 nbody_w i j k ;; set2 w_tmp j k v) w_tmp) w_tmp) ;;
  nstream_i <~ lift (at_index nstream i) ;;
  w_tmp <~ lift (for_range nstream_i (fun j w_tmp =>
             for_range ndim (fun k w_tmp =>
               v <- get2 stream_w0 (n + j) k ;;
               set2 w_tmp (nbodies + j) k v) w_tmp) w_tmp) ;;
  t1 <~ lift (get1 stream_t1 i) ;;
  norbits <~ lift (int_add nbodies nstream_i) ;;
  _ <~ emit (Step w_tmp t1 t2 dt0 (to_unsigned norbits)) ;;
  let w_tmp := dop853_step ext cp cf w_tmp t1 t2 dt0 ndim (to_unsigned norbits)
                 args atol rtol nmax in
  w_final <~ lift (for_range nstream_i (fun j w_final =>
               for_range ndim (fun k w_final =>
                 v <- get2 w_tmp (nbodies + j) k ;;
                 set2 w_final (nbodies + n + j) k v) w_final) w_final) ;;
  _ <~ PyErr_CheckSignals ext ;;
  n <~ lift (int_add n nstream_i) ;;
  mret (w_tmp, w_final, n).

(** The two loops that fill [c_particle_potentials]. *)
Definition set_particle_potentials (ext : externals) (nbody : nbody_t)
    (nbodies max_nstream : Z) : outcome potential_table :=
  tbl <- for_range nbodies (fun i tbl =>
           p <- at_index (particle_potentials nbody) i ;;
           put_index tbl i (Some p)) (replicate MAX_NBODY None) ;;
  for_each (range_from nbodies (nbodies + max_nstream)) (fun i tbl =>
    put_index tbl i (Some (null_p ext))) tbl.

Definition mockstream_dop853 (ext : externals) (nbody : nbody_t) (time : array1)
    (stream_w0 : array2) (stream_t1 : array1) (nstream : list Z)
    (atol rtol : float) (nmax : Z) : M array2 :=
  let ndim := 6 in
  let ntimes := int_of_ssize (shape0 time) in
  time_1 <~ lift (get1 time 1) ;;
  time_0 <~ lift (get1 time 0) ;;
  let dt0 := (time_1 - time_0)%float in
  t2 <~ lift (get1 time (ntimes - 1)) ;;
  let cp := H_potential nbody in
  let cf := H_frame nbody in
  nbodies <~ lift (to_c_int (shape0 (_w0 nbody))) ;;
  let nbody_w0 := _w0 nbody in
  max_nstream <~ lift (m <- np_max nstream ;; to_c_int m) ;;
  total_nstream <~ lift (to_c_int (np_sum nstream)) ;;
  rows <~ lift (int_add nbodies max_nstream) ;;
  w_tmp <~ lift (np_empty (w_tmp_garbage ext) rows ndim) ;;
  rows <~ lift (int_add nbodies total_nstream) ;;
  w_final <~ lift (np_empty (w_final_garbage ext) rows ndim) ;;
  _ <~ lift (np_empty3_check ntimes nbodies ndim) ;;
  args <~ lift (set_particle_potentials ext nbody nbodies max_nstream) ;;
  _ <~ emit (SaveAll nbody_w0 time nbodies ntimes) ;;
  let nbody_w := dop853_helper_save_all ext cp cf nbody_w0 time ndim nbodies args
                   ntimes atol rtol nmax in
  st <~ for_rangeM ntimes
          (release_step ext cp cf args nbody_w nbodies stream_w0 stream_t1 nstream
             t2 dt0 atol rtol nmax)
          (w_tmp, w_final, 0) ;;
  let w_tmp := fst (fst st) in
  let w_final := snd (fst st) in
  w_final <~ lift (for_range nbodies (fun j w_final =>
               for_range ndim (fun k w_final =>
                 v <- get2 w_tmp j k ;; set2 w_final j k v) w_final) w_final) ;;
  mret w_final.

(** * Specifications and examples *)

(** ** The potentials *)

(** The table of a composite built from the children [l]: the children in
    the first slots, the other slots never written. *)
Definition table_of (l : list _CPotential) : list (option _CPotential) :=
  (Some <$> l) ++ replicate (OBJ_LIST_SIZE - length l) None.

(** Three plain instances of [_CPotential]. *)
Definition three_children : list _CPotential :=
  [base_instance; base_instance; base_instance].

(** Arrays of zeros, as [np.zeros] makes them. *)
Definition zeros1 (d : nat) : array1 := replicate d 0%float.
Definition zeros2 (n d : nat) : array2 := replicate n (zeros1 d).
Definition zeros3 (n d e : nat) : array3 := replicate n (zeros2 d e).

(** An object without the attributes [gradient] and [hessian]. *)
Definition value_only_object : c_object :=
  {| attr_value := Some (value base_instance);
     attr_gradient := None;
     attr_hessian := None;
     attr_mass_enclosed := None |}.

(** A batch of three positions. *)
Definition three_points : array2 :=
  [[1; 0; 0]; [0; 2; 0]; [0; 0; 4]]%float.



(** A class outside these sources, for the examples: the potential of a
    unit point mass, [-1 / r], with [G = 1]. *)
Definition point_mass_value (q : array2) (k : Z) : outcome float :=
  x <- get2 q k 0 ;;
  y <- get2 q k 1 ;;
  z <- get2 q k 2 ;;
  Ok (- (1 / PrimFloat.sqrt (x * x + y * y + z * z)))%float.

Definition point_mass : _CPotential :=
  subclass (Some point_mass_value) None None (Some 1%float).

(** The estimate in the words of the specification: the centred difference
    [|r^2 (Phi(r + h) - Phi(r - h)) / (2 h) / G|] along the radial unit
    vector through the query point, with the step [h = 0.01 r]. *)
Definition mass_enclosed_spec (Phi : array2 -> Z -> outcome float) (q : array2)
    (Gee : float) (k : Z) : outcome float :=
  x <- get2 q k 0 ;;
  y <- get2 q k 1 ;;
  z <- get2 q k 2 ;;
  let r := PrimFloat.sqrt (x * x + y * y + z * z)%float in
  let h := (0.01 * r)%float in
  outer <- Phi [[x + h * (x / r); y + h * (y / r); z + h * (z / r)]]%float 0 ;;
  inner <- Phi [[x - h * (x / r); y - h * (y / r); z - h * (z / r)]]%float 0 ;;
  Ok (PrimFloat.abs (r * r * (outer - inner) / (2 * h) / Gee))%float.

(** A query at the radius [2^-8], on the first axis. *)
Definition small_radius : array2 := [[0.00390625; 0; 0]]%float.

(** The children visited in order, each one working on the state left by
    the one before. *)
Fixpoint fold_children {St : Type} (f : _CPotential -> St -> outcome St)
    (ps : list _CPotential) (s : St) : outcome St :=
  match ps with
  | [] => Ok s
  | p :: ps' => s' <- f p s ;; fold_children f ps' s'
  end.

(** The sum of two vectors, and of two matrices, entry by entry. *)
Definition vadd (a b : array1) : array1 := zip_with PrimFloat.add a b.
Definition madd (a b : array2) : array2 := zip_with vadd a b.

(** What a hook that accumulates does on row [k] of the shared buffer:
    it adds its own gradient [g k] (its own Hessian [h k]) to the row. *)
Definition adds_gradient (q : array2) (d : nat) (p : _CPotential)
    (g : Z -> array1) : Prop :=
  forall (grad : array2) (k : Z) (row : array1),
    0 <= k < shape0 q -> grad !! Z.to_nat k = Some row -> length row = d ->
    _gradient p q grad k = Ok (<[Z.to_nat k := vadd row (g k)]> grad).

Definition adds_hessian (q : array2) (d : nat) (p : _CPotential)
    (h : Z -> array2) : Prop :=
  forall (hess : array3) (k : Z) (mat : array2),
    0 <= k < shape0 q -> hess !! Z.to_nat k = Some mat ->
    length mat = d -> Forall (fun row => length row = d) mat ->
    _hessian p q hess k = Ok (<[Z.to_nat k := madd mat (h k)]> hess).

(** The scratch row of [mass_enclosed]: one row of three numbers. *)
Definition scratch (eps : array2) : Prop :=
  exists e0 e1 e2, eps = [[e0; e1; e2]].

(** A hook [_mass_enclosed] that returns the estimate [m k] for row [k],
    whatever the scratch row holds. *)
Definition estimates_mass (q : array2) (Gee : float) (p : _CPotential)
    (m : Z -> float) : Prop :=
  forall (eps : array2) (k : Z),
    0 <= k < shape0 q -> scratch eps ->
    exists eps', scratch eps' /\ _mass_enclosed p q eps Gee k = Ok (m k, eps').

(** A matrix of [d] rows of [d] numbers. *)
Definition square (d : nat) (m : array2) : Prop :=
  length m = d /\ Forall (fun row => length row = d) m.

(** The composite built from the children [ps], with its [G] set to [g]. *)
Definition composite_of (ps : list _CPotential) (g : float) : _CCompositePotential :=
  {| py_instances := ps; ninstances := Z.of_nat (length ps);
     obj_list := table_of ps; G := g |}.

(** A class outside these sources, for the examples: the uniform field
    [x + 2 y + 3 z], whose hooks add the gradient [(1, 2, 3)] and a zero
    Hessian to row [k] of the buffer. *)
Definition uniform_value (q : array2) (k : Z) : outcome float :=
  x <- get2 q k 0 ;;
  y <- get2 q k 1 ;;
  z <- get2 q k 2 ;;
  Ok (x + 2 * y + 3 * z)%float.

Definition uniform_gradient (r grad : array2) (k : Z) : outcome array2 :=
  row <- at_index grad k ;; put_index grad k (vadd row [1; 2; 3]%float).

Definition uniform_hessian (w : array2) (hess : array3) (k : Z) : outcome array3 :=
  mat <- at_index hess k ;; put_index hess k (madd mat (zeros2 3 3)).

Definition uniform_field : _CPotential :=
  subclass (Some uniform_value) (Some uniform_gradient) (Some uniform_hessian)
    (Some 1%float).

(** The values and the mass estimates of the uniform field on
    [three_points]. *)
Definition uniform_values (k : Z) : float :=
  match uniform_value three_points k with
  | Ok v => v
  | _ => 0%float
  end.

Definition uniform_masses (k : Z) : float :=
  match Base._mass_enclosed uniform_value three_points [[0; 0; 0]]%float 1%float k with
  | Ok r => fst r
  | _ => 0%float
  end.

(** What [_mass_enclosed] of [_CPotential] makes of one position: the
    estimate, and the inner probe, which it leaves in the scratch row. *)
Definition row_estimate (v : array2 -> Z -> outcome float) (Gee : float)
    (row : array1) : outcome (float * array2) :=
  match row with
  | x :: y :: z :: _ =>
      let r := PrimFloat.sqrt (x * x + y * y + z * z)%float in
      v1 <- v [[0.01 * x / r + x; 0.01 * y / r + y; 0.01 * z / r + z]]%float 0 ;;
      v2 <- v [[0.01 * x / r - x; 0.01 * y / r - y; 0.01 * z / r - z]]%float 0 ;;
      Ok (PrimFloat.abs (r * r * (v1 - v2) / Gee / (2 * 0.01))%float,
          [[0.01 * x / r - x; 0.01 * y / r - y; 0.01 * z / r - z]]%float)
  | _ => Undefined
  end.

(** The rows of a batch worked on one after the other, up to the first
    failure. *)
Fixpoint each_row {A B : Type} (f : A -> outcome B) (l : list A) : outcome (list B) :=
  match l with
  | [] => Ok []
  | x :: l' => y <- f x ;; ys <- each_row f l' ;; Ok (y :: ys)
  end.

(** A number that is no use as a mass: [+inf] or not a number. *)
Definition not_finite (x : float) : Prop := x = infinity \/ x = nan.

(** An object whose four methods raise [TypeError]. *)
Definition type_error_object : c_object :=
  {| attr_value := Some (fun _ _ => Raise TypeError);
     attr_gradient := Some (fun _ => Raise TypeError);
     attr_hessian := Some (fun _ => Raise TypeError);
     attr_mass_enclosed := Some (fun _ => Raise TypeError) |}.

(** The gradient of a composite whose last child inherits [_gradient]: the
    sum of the other children's contributions, but for the first three
    positions, whose rows the last child zeroes. *)
Definition erased_gradient (d : nat) (gs : list (Z -> array1)) (k : Z) : array1 :=
  if k <? 3 then zeros1 d else foldl vadd (zeros1 d) (map (fun g => g k) gs).

(** ** The driver *)

(** A buffer of [n] rows of six numbers. *)
Definition rect (n : nat) (a : array2) : Prop :=
  length a = n /\ Forall (fun row => length row = 6%nat) a.

(** The arguments of one call. *)
Record call : Type := {
  c_nbody : nbody_t;
  c_time : array1;
  c_stream_w0 : array2;
  c_stream_t1 : array1;
  c_nstream : list Z;
  c_atol : float;
  c_rtol : float;
  c_nmax : Z
}.

(** The run of a call, from an empty history. *)
Definition run (ext : externals) (a : call) : list event * outcome array2 :=
  mockstream_dop853 ext (c_nbody a) (c_time a) (c_stream_w0 a) (c_stream_t1 a)
    (c_nstream a) (c_atol a) (c_rtol a) (c_nmax a) [].

(** The number of massive bodies and the number of times. *)
Definition nbodies_of (a : call) : nat := length (_w0 (c_nbody a)).
Definition ntimes_of (a : call) : nat := length (c_time a).

(** The number of particles released at step [i], and before step [i]. *)
Definition released_at (a : call) (i : nat) : nat := Z.to_nat (nth i (c_nstream a) 0).
Definition released_before (a : call) (i : nat) : nat :=
  Z.to_nat (np_sum (take i (c_nstream a))).

(** The largest count, for counts that are not negative. *)
Definition max_nstream_of (a : call) : nat :=
  Z.to_nat (foldr Z.max 0 (c_nstream a)).

(** The table after the two set-up loops. *)
Definition table_of_call (ext : externals) (a : call) : potential_table :=
  (Some <$> take (nbodies_of a) (particle_potentials (c_nbody a)))
  ++ replicate (max_nstream_of a) (Some (null_p ext))
  ++ replicate (MAX_NBODY - nbodies_of a - max_nstream_of a) None.

(** The first time step and the final time. *)
Definition dt0_of (a : call) : float :=
  (nth 1 (c_time a) 0 - nth 0 (c_time a) 0)%float.

Definition t2_of (a : call) : float := nth (ntimes_of a - 1) (c_time a) 0%float.

(** The orbits of the massive bodies, from the first phase. *)
Definition nbody_w_of (ext : externals) (a : call) : array3 :=
  dop853_helper_save_all ext (H_potential (c_nbody a)) (H_frame (c_nbody a))
    (_w0 (c_nbody a)) (c_time a) 6 (Z.of_nat (nbodies_of a)) (table_of_call ext a)
    (Z.of_nat (ntimes_of a)) (c_atol a) (c_rtol a) (c_nmax a).

(** The working buffer as step [i] seeds it: the massive bodies at time
    [i], the particles released at step [i], and what the buffer held
    below them. *)
Definition seeded (ext : externals) (a : call) (w_tmp : array2) (i : nat) : array2 :=
  nth i (nbody_w_of ext a) []
  ++ take (released_at a i) (drop (released_before a i) (c_stream_w0 a))
  ++ drop (nbodies_of a + released_at a i) w_tmp.

(** The working buffer as the stepping call of step [i] leaves it. *)
Definition stepped (ext : externals) (a : call) (w_tmp : array2) (i : nat) : array2 :=
  dop853_step ext (H_potential (c_nbody a)) (H_frame (c_nbody a))
    (seeded ext a w_tmp i) (nth i (c_stream_t1 a) 0%float) (t2_of a) (dt0_of a) 6
    (Z.of_nat (nbodies_of a + released_at a i)) (table_of_call ext a)
    (c_atol a) (c_rtol a) (c_nmax a).

(** The two buffers as [np.empty] makes them. *)
Definition w_tmp_initial (ext : externals) (a : call) : array2 :=
  map (fun i => map (w_tmp_garbage ext i) (seq 0 6))
    (seq 0 (nbodies_of a + max_nstream_of a)).

Definition w_final_initial (ext : externals) (a : call) : array2 :=
  map (fun i => map (w_final_garbage ext i) (seq 0 6))
    (seq 0 (nbodies_of a + released_before a (length (c_nstream a)))).

(** The working buffer after [i] steps. *)
Fixpoint buffer_after (ext : externals) (a : call) (i : nat) : array2 :=
  match i with
  | O => w_tmp_initial ext a
  | S i' => stepped ext a (buffer_after ext a i') i'
  end.

(** The final states of the particles released at step [i]. *)
Definition final_states (ext : externals) (a : call) (i : nat) : array2 :=
  take (released_at a i) (drop (nbodies_of a) (buffer_after ext a (S i))).

(** The events of step [i]. *)
Definition step_events (ext : externals) (a : call) (i : nat) : list event :=
  [Step (seeded ext a (buffer_after ext a i) i) (nth i (c_stream_t1 a) 0%float)
     (t2_of a) (dt0_of a) (Z.of_nat (nbodies_of a + released_at a i));
   CheckSignals].

(** The event of the first phase. *)
Definition first_event (a : call) : event :=
  SaveAll (_w0 (c_nbody a)) (c_time a) (Z.of_nat (nbodies_of a))
    (Z.of_nat (ntimes_of a)).

(** A call the driver is meant for: a grid of at least two times; one
    count, not negative, and one release time per step; six coordinates
    for as many released particles as the counts add up to; a potential
    for each massive body; no more bodies and particles of one step than
    the table has slots; sizes that fit an [int]; orbits from the first
    phase of the shape [(ntimes, nbodies, 6)]; a stepping call that leaves
    the shape of the buffer as it is. *)
Record well_formed (ext : externals) (a : call) : Prop := {
  wf_times : (2 <= ntimes_of a)%nat /\ Z.of_nat (ntimes_of a) <= INT_MAX;
  wf_counts : length (c_nstream a) = ntimes_of a
              /\ Forall (fun c => 0 <= c) (c_nstream a);
  wf_release_times : length (c_stream_t1 a) = ntimes_of a;
  wf_stream_w0 : (released_before a (ntimes_of a) <= length (c_stream_w0 a))%nat
                 /\ Z.of_nat (length (c_stream_w0 a)) <= INT_MAX
                 /\ Forall (fun row => length row = 6%nat) (c_stream_w0 a);
  wf_potentials : (nbodies_of a <= length (particle_potentials (c_nbody a)))%nat;
  wf_table : (nbodies_of a + max_nstream_of a <= MAX_NBODY)%nat;
  wf_total : Z.of_nat (nbodies_of a) + np_sum (c_nstream a) <= INT_MAX;
  wf_orbits : length (nbody_w_of ext a) = ntimes_of a
              /\ Forall (rect (nbodies_of a)) (nbody_w_of ext a);
  wf_step : forall (cp : CPotential_t) (cf : CFrame_t) (w : array2)
              (t1 t2 dt0 : float) (ndim norbits : Z) (args : potential_table)
              (atol rtol : float) (nmax : Z) (n : nat),
              rect n w ->
              rect n (dop853_step ext cp cf w t1 t2 dt0 ndim norbits args atol rtol nmax)
}.

(** No signal handler raises during the first [m] polls. *)
Definition no_signal (ext : externals) (m : nat) : Prop :=
  forall p, (p < m)%nat -> pending_signal ext p = false.

(** The output buffer after [m] steps: the rows of the massive bodies not
    written yet, the final states of the particles released so far, and
    the rows not written yet. *)
Definition w_final_after (ext : externals) (a : call) (m : nat) : array2 :=
  take (nbodies_of a) (w_final_initial ext a)
  ++ flat_map (final_states ext a) (seq 0 m)
  ++ drop (nbodies_of a + released_before a m) (w_final_initial ext a).

(** What the driver returns when no signal interrupts it. *)
Definition expected_output (ext : externals) (a : call) : array2 :=
  take (nbodies_of a) (buffer_after ext a (ntimes_of a))
  ++ flat_map (final_states ext a) (seq 0 (ntimes_of a)).

(** The events of the first [m] steps, after the first phase. *)
Definition events_upto (ext : externals) (a : call) (m : nat) : list event :=
  first_event a :: flat_map (step_events ext a) (seq 0 m).

(** The same outside world, with other contents left by [np.empty] in the
    output buffer. *)
Definition with_final_garbage (ext : externals) (g : nat -> nat -> float) : externals :=
  {| dop853_helper_save_all := dop853_helper_save_all ext;
     dop853_step := dop853_step ext;
     null_p := null_p ext;
     w_tmp_garbage := w_tmp_garbage ext;
     w_final_garbage := g;
     pending_signal := pending_signal ext |}.

(** A stepping call that works on the [norbits] orbits it is told of: what
    it leaves in their rows depends on these rows alone, and the rows
    below them are left as they were. *)
Definition local_step (ext : externals) : Prop :=
  forall (cp : CPotential_t) (cf : CFrame_t) (w : array2) (t1 t2 dt0 : float)
    (ndim norbits : Z) (args : potential_table) (atol rtol : float) (nmax : Z),
    dop853_step ext cp cf w t1 t2 dt0 ndim norbits args atol rtol nmax
    = dop853_step ext cp cf (take (Z.to_nat norbits) w) t1 t2 dt0 ndim norbits args
        atol rtol nmax
      ++ drop (Z.to_nat norbits) w.

(** The orbits of step [i]: the massive bodies at time [i] and the
    particles released at step [i]; and these orbits advanced on their own
    from the release time to the final time. *)
Definition released_orbits (ext : externals) (a : call) (i : nat) : array2 :=
  nth i (nbody_w_of ext a) []
  ++ take (released_at a i) (drop (released_before a i) (c_stream_w0 a)).

Definition advanced (ext : externals) (a : call) (i : nat) : array2 :=
  dop853_step ext (H_potential (c_nbody a)) (H_frame (c_nbody a))
    (released_orbits ext a i) (nth i (c_stream_t1 a) 0%float) (t2_of a) (dt0_of a) 6
    (Z.of_nat (nbodies_of a + released_at a i)) (table_of_call ext a)
    (c_atol a) (c_rtol a) (c_nmax a).

(** ** An integrator and calls for the examples *)

(** A stand-in for the integrator: an orbit that moves every coordinate by
    the time elapsed.  The stepping call moves the first [norbits] rows of
    the buffer from [t1] to [t2] and leaves the other rows alone. *)
Definition drift (w : array2) (t1 t2 : float) (norbits : Z) : array2 :=
  map (map (fun x => (x + (t2 - t1))%float)) (take (Z.to_nat norbits) w)
  ++ drop (Z.to_nat norbits) w.

(** The stand-in, with a given answer to each poll for a signal. *)
Definition toy_externals (signal : nat -> bool) : externals :=
  {| dop853_helper_save_all := fun _ _ w0 time _ _ _ _ _ _ _ =>
       map (fun t => map (map (fun x => (x + t)%float)) w0) time;
     dop853_step := fun _ _ w t1 t2 _ _ norbits _ _ _ _ => drift w t1 t2 norbits;
     null_p := potential_struct 0;
     w_tmp_garbage := fun _ _ => (-1)%float;
     w_final_garbage := fun _ _ => (-2)%float;
     pending_signal := signal |}.

(** No handler ever raises. *)
Definition never : nat -> bool := fun _ => false.

(** One massive body, at rest at the origin at time [0]. *)
Definition toy_nbody : nbody_t :=
  {| H_potential := potential_struct 1;
     H_frame := frame_struct 0;
     particle_potentials := [potential_struct 2];
     _w0 := [[0; 0; 0; 0; 0; 0]]%float |}.

(** Three particles to release, and a call for given times and counts. *)
Definition toy_stream_w0 : array2 :=
  [[10; 10; 10; 10; 10; 10]; [20; 20; 20; 20; 20; 20]; [30; 30; 30; 30; 30; 30]]%float.

Definition toy_call (time : array1) (nstream : list Z) : call :=
  {| c_nbody := toy_nbody;
     c_time := time;
     c_stream_w0 := toy_stream_w0;
     c_stream_t1 := time;
     c_nstream := nstream;
     c_atol := 1e-10%float;
     c_rtol := 1e-10%float;
     c_nmax := 0 |}.


(** * Proofs *)

(** ** Loops and array accesses *)

Lemma range_length (n : Z) : length (range n) = Z.to_nat n.
Proof. unfold range. by rewrite length_map, length_seq. Qed.

Lemma range_nonpos (n : Z) : n <= 0 -> range n = [].
Proof. intros Hn. unfold range. by replace (Z.to_nat n) with 0%nat by lia. Qed.

Lemma range_succ (n : Z) : 0 <= n -> range (n + 1) = range n ++ [n].
Proof.
  intros Hn. unfold range.
  replace (Z.to_nat (n + 1)) with (S (Z.to_nat n)) by lia.
  rewrite seq_S, map_app. simpl. by rewrite Z2Nat.id.
Qed.

Lemma for_each_app {St : Type} (l1 l2 : list Z) (body : Z -> St -> outcome St) (s : St) :
  for_each (l1 ++ l2) body s = (s' <- for_each l1 body s ;; for_each l2 body s').
Proof.
  revert s. induction l1 as [|i l1 IH]; intros s; simpl; [done|].
  destruct (body i s); simpl; auto.
Qed.

Lemma for_range_succ {St : Type} (n : Z) (body : Z -> St -> outcome St) (s : St) :
  0 <= n ->
  for_range (n + 1) body s = (s' <- for_range n body s ;; body n s').
Proof.
  intros Hn. unfold for_range. rewrite range_succ, for_each_app by done.
  destruct (for_each (range n) body s); simpl; [|done..].
  by destruct (body n x).
Qed.

Lemma for_range_nonpos {St : Type} (n : Z) (body : Z -> St -> outcome St) (s : St) :
  n <= 0 -> for_range n body s = Ok s.
Proof. intros Hn. unfold for_range. by rewrite range_nonpos. Qed.

(** The loop rule: an invariant [P i s] carried from [0] to [n]. *)
Lemma for_range_inv {St : Type} (P : Z -> St -> Prop) (n : Z)
    (body : Z -> St -> outcome St) (s : St) :
  0 <= n ->
  P 0 s ->
  (forall i s, 0 <= i < n -> P i s -> exists s', body i s = Ok s' /\ P (i + 1) s') ->
  exists s', for_range n body s = Ok s' /\ P n s'.
Proof.
  intros Hn H0 Hstep.
  assert (forall m : nat, Z.of_nat m <= n ->
            exists s', for_range (Z.of_nat m) body s = Ok s' /\ P (Z.of_nat m) s') as Hm.
  { induction m as [|m IH]; intros Hle.
    - exists s. split; [by rewrite for_range_nonpos|done].
    - destruct IH as (s1 & E1 & P1); [lia|].
      destruct (Hstep (Z.of_nat m) s1) as (s2 & E2 & P2); [lia|done|].
      exists s2. replace (Z.of_nat (S m)) with (Z.of_nat m + 1) by lia.
      rewrite for_range_succ, E1 by lia. simpl. done. }
  destruct (Hm (Z.to_nat n)) as (s' & E & HP); [lia|].
  rewrite Z2Nat.id in E, HP by done. eauto.
Qed.

Lemma range_split (m n : Z) :
  0 <= m <= n -> range n = range m ++ range_from m n.
Proof.
  intros Hm. unfold range_from, range.
  replace (Z.to_nat n) with (Z.to_nat m + Z.to_nat (n - m))%nat by lia.
  rewrite seq_app, map_app. f_equal.
  simpl. generalize (Z.to_nat (n - m)). intros len.
  rewrite <- (Nat.add_0_r (Z.to_nat m)) at 1.
  rewrite <- fmap_add_seq.
  change (@fmap list _) with (@map) in *.
  rewrite !map_map. apply map_ext. intros j. lia.
Qed.

Lemma range_from_cons (m n : Z) :
  0 <= m < n -> range_from m n = m :: range_from (m + 1) n.
Proof.
  intros Hm. unfold range_from, range.
  replace (Z.to_nat (n - m)) with (S (Z.to_nat (n - (m + 1)))) by lia.
  simpl. f_equal; [lia|].
  rewrite <- seq_shift, !map_map. apply map_ext. intros j. lia.
Qed.

(** A loop stops at its first failing iteration. *)
Lemma for_range_fails {St : Type} (n m : Z) (body : Z -> St -> outcome St) (s s1 : St) :
  0 <= m < n ->
  for_range m body s = Ok s1 ->
  body m s1 = Undefined ->
  for_range n body s = Undefined.
Proof.
  intros Hm E1 E2. unfold for_range in *.
  rewrite (range_split m n), range_from_cons by lia.
  rewrite for_each_app, E1. simpl. by rewrite E2.
Qed.

Lemma at_index_Ok {T : Type} (a : list T) (i : Z) (x : T) :
  0 <= i <= INT_MAX -> a !! Z.to_nat i = Some x -> at_index a i = Ok x.
Proof.
  intros [H0 H1] E. unfold at_index.
  rewrite (proj2 (Z.leb_le _ _) H0), (proj2 (Z.leb_le _ _) H1). simpl. by rewrite E.
Qed.

Lemma put_index_Ok {T : Type} (a : list T) (i : Z) (x : T) :
  0 <= i <= INT_MAX -> (Z.to_nat i < length a)%nat ->
  put_index a i x = Ok (<[Z.to_nat i := x]> a).
Proof.
  intros [H0 H1] Hlt. unfold put_index.
  rewrite (proj2 (Z.leb_le _ _) H0), (proj2 (Z.leb_le _ _) H1). simpl.
  by rewrite (proj2 (Nat.ltb_lt _ _) Hlt).
Qed.

Lemma put_index_out {T : Type} (a : list T) (i : Z) (x : T) :
  Z.of_nat (length a) <= i -> put_index a i x = Undefined.
Proof.
  intros Hi. unfold put_index.
  destruct ((0 <=? i) && (i <=? INT_MAX)); [|done].
  by rewrite (proj2 (Nat.ltb_ge _ _)) by lia.
Qed.

Lemma int_of_ssize_id (z : Z) : INT_MIN <= z <= INT_MAX -> int_of_ssize z = z.
Proof.
  unfold INT_MIN, INT_MAX, int_of_ssize. intros H.
  rewrite Z.mod_small; lia.
Qed.

(** A table filled from a list, slot by slot. *)
Lemma table_fill {A : Type} (size : nat) (l : list A) (n : nat) :
  (n <= length l)%nat -> (n <= size)%nat -> Z.of_nat size <= INT_MAX ->
  for_range (Z.of_nat n)
    (fun i tbl => p <- at_index l i ;; put_index tbl i (Some p))
    (replicate size None)
  = Ok ((Some <$> take n l) ++ replicate (size - n) None).
Proof.
  intros Hl Hsize Hmax.
  destruct (for_range_inv
    (fun i tbl => tbl = (Some <$> take (Z.to_nat i) l)
                        ++ replicate (size - Z.to_nat i) None)
    (Z.of_nat n)
    (fun i tbl => p <- at_index l i ;; put_index tbl i (Some p))
    (replicate size None)) as (tbl & E & ->); [lia| | |].
  - simpl. by rewrite Nat.sub_0_r.
  - intros i tbl Hi ->.
    destruct (lookup_lt_is_Some_2 l (Z.to_nat i)) as [p Hp]; [lia|].
    rewrite (at_index_Ok _ _ p) by (done || lia). simpl.
    rewrite put_index_Ok;
      [|lia|rewrite length_app, length_fmap, length_take, length_replicate; lia].
    eexists. split; [done|].
    rewrite insert_app_r_alt; rewrite length_fmap, length_take, Nat.min_l; try lia.
    rewrite Nat.sub_diag.
    replace (size - Z.to_nat i)%nat with (S (size - Z.to_nat (i + 1))) by lia.
    replace (Z.to_nat (i + 1)) with (S (Z.to_nat i)) by lia.
    simpl. rewrite (take_S_r _ _ _ Hp), fmap_app. simpl.
    by rewrite <- app_assoc.
  - by rewrite E, Nat2Z.id.
Qed.

Lemma table_fill_overflow {A : Type} (size : nat) (l : list A) (n : Z) :
  Z.of_nat size < n -> n <= Z.of_nat (length l) -> Z.of_nat size <= INT_MAX ->
  for_range n
    (fun i tbl => p <- at_index l i ;; put_index tbl i (Some p))
    (replicate size None)
  = Undefined.
Proof.
  intros Hn Hl Hmax.
  destruct (lookup_lt_is_Some_2 l size) as [p Hp]; [lia|].
  eapply (for_range_fails n (Z.of_nat size)); [lia| |].
  - apply table_fill; lia.
  - rewrite (at_index_Ok _ _ p); [|lia|by rewrite Nat2Z.id]. simpl.
    apply put_index_out.
    rewrite length_app, length_fmap, length_take, length_replicate. lia.
Qed.

(** ** The dispatch table of a composite *)

Lemma more_init_loop (l : list _CPotential) :
  (length l <= OBJ_LIST_SIZE)%nat ->
  for_range (Z.of_nat (length l))
    (fun i tbl => p <- at_index l i ;; put_index tbl i (Some p))
    (replicate OBJ_LIST_SIZE None)
  = Ok (table_of l).
Proof.
  intros Hlen. rewrite table_fill; [|done|done|unfold OBJ_LIST_SIZE, INT_MAX; lia].
  unfold table_of. by rewrite firstn_all.
Qed.

Lemma more_init_overflow (l : list _CPotential) (n : Z) :
  (OBJ_LIST_SIZE < length l)%nat -> Z.of_nat OBJ_LIST_SIZE < n ->
  n <= Z.of_nat (length l) ->
  for_range n
    (fun i tbl => p <- at_index l i ;; put_index tbl i (Some p))
    (replicate OBJ_LIST_SIZE None)
  = Undefined.
Proof.
  intros Hlen Hn Hle. apply table_fill_overflow; [done|done|].
  unfold OBJ_LIST_SIZE, INT_MAX. lia.
Qed.

Lemma init_Ok (l : list _CPotential) :
  (length l <= OBJ_LIST_SIZE)%nat ->
  Composite.__init__ l
  = Ok {| py_instances := l; ninstances := Z.of_nat (length l);
          obj_list := table_of l; G := 0%float |}.
Proof.
  intros Hlen. unfold Composite.__init__, to_c_int, shape0, in_int.
  replace ((INT_MIN <=? Z.of_nat (length l)) && (Z.of_nat (length l) <=? INT_MAX))
    with true.
  2:{ symmetry. apply andb_true_iff. unfold INT_MIN, INT_MAX, OBJ_LIST_SIZE in *.
      split; apply Z.leb_le; lia. }
  simpl. unfold Composite._more_init. simpl.
  by rewrite more_init_loop.
Qed.

Lemma init_too_many (l : list _CPotential) (c : _CCompositePotential) :
  (OBJ_LIST_SIZE < length l)%nat -> Composite.__init__ l <> Ok c.
Proof.
  intros Hlen. unfold Composite.__init__, to_c_int.
  destruct (in_int (shape0 l)) eqn:Hin; simpl; [|done].
  unfold Composite._more_init. simpl.
  rewrite more_init_overflow; [done|done|unfold shape0; lia|unfold shape0; lia].
Qed.

Lemma obj_at_table (l : list _CPotential) (c : _CCompositePotential) (i : Z) (p : _CPotential) :
  obj_list c = table_of l -> 0 <= i <= INT_MAX -> l !! Z.to_nat i = Some p ->
  obj_at c i = Ok p.
Proof.
  intros Htbl Hi Hp. unfold obj_at. rewrite Htbl.
  rewrite (at_index_Ok _ _ (Some p)); [done|done|].
  unfold table_of. rewrite lookup_app_l.
  - by rewrite list_lookup_fmap, Hp.
  - rewrite length_fmap. by eapply lookup_lt_Some.
Qed.

(** C8, as stated, fails.  Nothing holds a composite to 100 children: from
    101 children the constructor takes the count as it is, fills the 100
    slots of the table and writes one more entry past the table, which is
    undefined behaviour and raises nothing.  And the storage is not the
    table alone: the children are also kept in the Python list
    [py_instances], which has no fixed size. *)
Lemma composite_capacity_unchecked :
  to_c_int (shape0 (replicate 101 base_instance)) = Ok 101
  /\ for_range 100
       (fun i tbl => p <- at_index (replicate 101 base_instance) i ;;
                     put_index tbl i (Some p))
       (replicate OBJ_LIST_SIZE None)
     = Ok (table_of (replicate 100 base_instance))
  /\ put_index (table_of (replicate 100 base_instance)) 100 (Some base_instance)
     = Undefined
  /\ Composite.__init__ (replicate 101 base_instance) = Undefined
  /\ (forall e, Composite.__init__ (replicate 101 base_instance) <> Raise e)
  /\ exists c, Composite.__init__ three_children = Ok c
       /\ py_instances c = three_children.
Proof.
  split; [reflexivity|].
  split; [apply (table_fill OBJ_LIST_SIZE (replicate 101 base_instance) 100);
          [rewrite length_replicate; lia|unfold OBJ_LIST_SIZE; lia
          |unfold OBJ_LIST_SIZE, INT_MAX; lia]|].
  split; [reflexivity|].
  assert (Composite.__init__ (replicate 101 base_instance) = Undefined) as E
    by (vm_compute; reflexivity).
  split; [exact E|]. split; [rewrite E; discriminate|].
  eexists. split; [reflexivity|reflexivity].
Qed.

(** C8, amended.  A composite keeps its children in two places: the Python
    list [py_instances], and the table [obj_list] of 100 slots, through
    which the hooks are dispatched.  Built from at most 100 children, it
    records every child, in order, in the first slots of the table, the
    remaining slots staying empty and the table keeping its 100 slots.  The
    number of children is not checked: from more than 100, [_more_init]
    fills the 100 slots and then writes past the last one, which is
    undefined behaviour; no exception is raised. *)
Theorem composite_static_capacity (l : list _CPotential) :
  ((length l <= OBJ_LIST_SIZE)%nat ->
     exists c, Composite.__init__ l = Ok c
       /\ py_instances c = l
       /\ ninstances c = Z.of_nat (length l)
       /\ length (obj_list c) = OBJ_LIST_SIZE
       /\ (forall i p, l !! i = Some p -> obj_list c !! i = Some (Some p))
       /\ (forall i, (length l <= i < OBJ_LIST_SIZE)%nat -> obj_list c !! i = Some None))
  /\ ((OBJ_LIST_SIZE < length l)%nat -> Z.of_nat (length l) <= INT_MAX ->
        for_range (Z.of_nat OBJ_LIST_SIZE)
          (fun i tbl => p <- at_index l i ;; put_index tbl i (Some p))
          (replicate OBJ_LIST_SIZE None)
        = Ok (Some <$> take OBJ_LIST_SIZE l)
        /\ (forall p, put_index (Some <$> take OBJ_LIST_SIZE l)
                        (Z.of_nat OBJ_LIST_SIZE) (Some p) = Undefined)
        /\ Composite.__init__ l = Undefined
        /\ forall e, Composite.__init__ l <> Raise e).
Proof.
  split.
  - intros Hlen. eexists. split; [by apply init_Ok|]. simpl.
    repeat split.
    + unfold table_of. rewrite length_app, length_fmap, length_replicate. lia.
    + intros i p Hp. unfold table_of. rewrite lookup_app_l.
      * by rewrite list_lookup_fmap, Hp.
      * rewrite length_fmap. by eapply lookup_lt_Some.
    + intros i Hi. unfold table_of. rewrite lookup_app_r; rewrite length_fmap; [|lia].
      apply lookup_replicate_2. lia.
  - intros Hlen Hmax.
    assert (Composite.__init__ l = Undefined) as E.
    { unfold Composite.__init__, to_c_int, in_int, shape0.
      rewrite (proj2 (Z.leb_le _ _)) by (unfold INT_MIN; lia).
      rewrite (proj2 (Z.leb_le _ _)) by done. simpl.
      unfold Composite._more_init. simpl.
      by rewrite more_init_overflow by (done || lia). }
    split; [|split; [|split; [exact E|rewrite E; discriminate]]].
    + rewrite table_fill; [|lia|lia|unfold OBJ_LIST_SIZE, INT_MAX; lia].
      by rewrite Nat.sub_diag, app_nil_r.
    + intros p. apply put_index_out. rewrite length_fmap, length_take. lia.
Qed.

Lemma composite_static_capacity_witness :
  (exists c, Composite.__init__ three_children = Ok c
     /\ py_instances c = three_children
     /\ ninstances c = 3
     /\ length (obj_list c) = OBJ_LIST_SIZE
     /\ (forall i p, three_children !! i = Some p -> obj_list c !! i = Some (Some p))
     /\ (forall i, (3 <= i < OBJ_LIST_SIZE)%nat -> obj_list c !! i = Some None))
  /\ Composite.__init__ (replicate 101 base_instance) = Undefined.
Proof.
  split.
  - apply (proj1 (composite_static_capacity three_children)).
    unfold OBJ_LIST_SIZE. simpl. lia.
  - apply (proj2 (composite_static_capacity (replicate 101 base_instance))).
    + rewrite length_replicate. unfold OBJ_LIST_SIZE. lia.
    + rewrite length_replicate. unfold INT_MAX. lia.
Defined.

(** ** The default hooks on a zeroed buffer *)

Lemma fill2_zeros (n d : nat) (i : Z) :
  0 <= i <= INT_MAX -> (Z.to_nat i < n)%nat ->
  fill2 (zeros2 n d) i 0%float = Ok (zeros2 n d).
Proof.
  intros Hi Hlt. unfold fill2.
  rewrite (at_index_Ok _ _ (zeros1 d)); [|done|by apply lookup_replicate_2].
  simpl. rewrite put_index_Ok; [|done|by unfold zeros2; rewrite length_replicate].
  f_equal. apply list_insert_id.
  unfold zeros1 at 1. rewrite length_replicate. by apply lookup_replicate_2.
Qed.

Lemma fill3_zeros (n d e : nat) (i j : Z) :
  0 <= i <= INT_MAX -> (Z.to_nat i < n)%nat ->
  0 <= j <= INT_MAX -> (Z.to_nat j < d)%nat ->
  fill3 (zeros3 n d e) i j 0%float = Ok (zeros3 n d e).
Proof.
  intros Hi Hlt Hj Hlt'. unfold fill3.
  rewrite (at_index_Ok _ _ (zeros2 d e)); [|done|by apply lookup_replicate_2].
  simpl. rewrite fill2_zeros by done. simpl.
  rewrite put_index_Ok; [|done|by unfold zeros3; rewrite length_replicate].
  f_equal. apply list_insert_id. by apply lookup_replicate_2.
Qed.

Lemma base_gradient_zeros (r : array2) (n d : nat) (k : Z) :
  (3 <= n)%nat -> Base._gradient r (zeros2 n d) k = Ok (zeros2 n d).
Proof.
  intros Hn. unfold Base._gradient.
  rewrite !fill2_zeros; simpl; rewrite ?fill2_zeros; simpl; rewrite ?fill2_zeros;
    try done; unfold INT_MAX; lia.
Qed.

Lemma base_hessian_zeros (w : array2) (n d : nat) (k : Z) :
  (3 <= n)%nat -> (3 <= d)%nat -> Base._hessian w (zeros3 n d d) k = Ok (zeros3 n d d).
Proof.
  intros Hn Hd. unfold Base._hessian.
  destruct (for_range_inv (fun _ h => h = zeros3 n d d) 3
    (fun i hess => for_range 3 (fun j hess => fill3 hess i j 0%float) hess)
    (zeros3 n d d)) as (h & E & ->); [lia|done| |done].
  intros i h Hi ->.
  destruct (for_range_inv (fun _ h => h = zeros3 n d d) 3
    (fun j hess => fill3 hess i j 0%float)
    (zeros3 n d d)) as (h & E & ->); [lia|done| |by eauto].
  intros j h Hj ->. exists (zeros3 n d d). split; [|done].
  apply fill3_zeros; unfold INT_MAX; lia.
Qed.

Lemma gradient_default_hook (p : _CPotential) (q : array2) :
  _gradient p = Base._gradient ->
  (3 <= length q)%nat -> shape0 q <= INT_MAX -> shape1 q <= INT_MAX ->
  gradient p q = Ok (zeros2 (length q) (Z.to_nat (shape1 q))).
Proof.
  intros Hhook Hn Hq0 Hq1. unfold gradient.
  assert (0 <= shape1 q) by (unfold shape1; destruct q; lia).
  rewrite !int_of_ssize_id by (unfold INT_MIN, shape0 in *; lia).
  unfold np_zeros2.
  replace ((shape0 q <? 0) || (shape1 q <? 0)) with false
    by (symmetry; apply orb_false_iff; split; apply Z.ltb_ge; unfold shape0; lia).
  simpl. unfold shape0 at 2. rewrite Nat2Z.id.
  destruct (for_range_inv (fun _ g => g = zeros2 (length q) (Z.to_nat (shape1 q)))
    (shape0 q) (fun k grad => _gradient p q grad k)
    (zeros2 (length q) (Z.to_nat (shape1 q)))) as (g & E & ->);
    [unfold shape0; lia|done| |done].
  intros k g _ ->. eexists. split; [|done].
  rewrite Hhook. by apply base_gradient_zeros.
Qed.

Lemma hessian_default_hook (p : _CPotential) (w : array2) :
  _hessian p = Base._hessian ->
  (3 <= length w)%nat -> shape0 w <= INT_MAX -> 3 <= shape1 w <= INT_MAX ->
  hessian p w
  = Ok (zeros3 (length w) (Z.to_nat (shape1 w)) (Z.to_nat (shape1 w))).
Proof.
  intros Hhook Hn Hq0 Hq1. unfold hessian.
  rewrite !int_of_ssize_id by (unfold INT_MIN, shape0 in *; lia).
  unfold np_zeros3.
  replace ((shape0 w <? 0) || (shape1 w <? 0) || (shape1 w <? 0)) with false.
  2:{ symmetry. rewrite !orb_false_iff. repeat split; apply Z.ltb_ge;
      unfold shape0; lia. }
  simpl. unfold shape0 at 2. rewrite Nat2Z.id.
  destruct (for_range_inv
    (fun _ h => h = zeros3 (length w) (Z.to_nat (shape1 w)) (Z.to_nat (shape1 w)))
    (shape0 w) (fun k hess => _hessian p w hess k)
    (zeros3 (length w) (Z.to_nat (shape1 w)) (Z.to_nat (shape1 w))))
    as (h & E & ->); [unfold shape0; lia|done| |done].
  intros k h _ ->. eexists. split; [|done].
  rewrite Hhook. apply base_hessian_zeros; lia.
Qed.

(** ** The Python class: a missing derivative *)

(** C3: the code against the claim, at a plain instance of [_CPotential]
    and a batch of three positions.  The instance provides neither a
    gradient nor a Hessian: its hooks are the ones [_CPotential] defines.
    The claim asks for a typed failure and no silent zeros.  The Python
    class has the failure, with its own message, for an object without
    the attribute; but every class derived from [_CPotential] has the
    [cpdef] methods, the [except] clause is never reached, and the public
    operations return arrays of zeros and raise nothing. *)
Theorem default_hooks_return_zeros :
  _gradient base_instance = Base._gradient
  /\ _hessian base_instance = Base._hessian
  /\ CPotential.gradient (c_object_of base_instance) three_points
     = Ok [[0; 0; 0]; [0; 0; 0]; [0; 0; 0]]%float
  /\ CPotential.hessian (c_object_of base_instance) three_points
     = Ok (replicate 3 [[0; 0; 0]; [0; 0; 0]; [0; 0; 0]]%float)
  /\ (forall e, CPotential.gradient (c_object_of base_instance) three_points <> Raise e)
  /\ (forall e, CPotential.hessian (c_object_of base_instance) three_points <> Raise e)
  /\ CPotential.gradient value_only_object three_points
     = Raise (ValueError "Potential C instance has no defined gradient function")
  /\ CPotential.hessian value_only_object three_points
     = Raise (ValueError "Potential C instance has no defined Hessian function").
Proof. repeat split; try reflexivity; intros e; vm_compute; discriminate. Qed.

(** The two ways of being without a derivative, for any batch.  An object
    without the attribute [gradient] (or [hessian]) gets the [ValueError]
    of the Python class.  An instance of a class derived from
    [_CPotential] that inherits the hook gets an array of zeros, for a
    batch of at least three positions of at least three coordinates. *)
Lemma missing_derivative (c : c_object) (p : _CPotential) (q : array2) :
  (attr_gradient c = None ->
     CPotential.gradient c q
     = Raise (ValueError "Potential C instance has no defined gradient function"))
  /\ (attr_hessian c = None ->
        CPotential.hessian c q
        = Raise (ValueError "Potential C instance has no defined Hessian function"))
  /\ ((3 <= length q)%nat -> shape0 q <= INT_MAX -> 3 <= shape1 q <= INT_MAX ->
      (_gradient p = Base._gradient ->
         CPotential.gradient (c_object_of p) q
         = Ok (zeros2 (length q) (Z.to_nat (shape1 q))))
      /\ (_hessian p = Base._hessian ->
            CPotential.hessian (c_object_of p) q
            = Ok (zeros3 (length q) (Z.to_nat (shape1 q)) (Z.to_nat (shape1 q))))).
Proof.
  split; [|split].
  - intros E. unfold CPotential.gradient. by rewrite E.
  - intros E. unfold CPotential.hessian. by rewrite E.
  - intros Hn H0 H1. split; intros Hhook.
    + unfold CPotential.gradient. simpl.
      rewrite gradient_default_hook by (done || lia). done.
    + unfold CPotential.hessian. simpl.
      rewrite hessian_default_hook by (done || lia). done.
Qed.

Lemma missing_derivative_witness :
  CPotential.gradient value_only_object three_points
  = Raise (ValueError "Potential C instance has no defined gradient function")
  /\ CPotential.hessian value_only_object three_points
     = Raise (ValueError "Potential C instance has no defined Hessian function")
  /\ CPotential.gradient (c_object_of base_instance) three_points = Ok (zeros2 3 3)
  /\ CPotential.hessian (c_object_of base_instance) three_points = Ok (zeros3 3 3 3).
Proof.
  destruct (missing_derivative value_only_object base_instance three_points)
    as (Hg & Hh & Hz).
  destruct Hz as [Hzg Hzh]; [simpl; lia|vm_compute; discriminate|
                             split; vm_compute; discriminate|].
  split; [apply Hg; reflexivity|].
  split; [apply Hh; reflexivity|].
  split; [apply Hzg; reflexivity|apply Hzh; reflexivity].
Defined.

(** ** The enclosed-mass estimate *)

Lemma get2_Ok (q : array2) (k j : Z) (row : array1) (x : float) :
  0 <= k <= INT_MAX -> q !! Z.to_nat k = Some row ->
  0 <= j <= INT_MAX -> row !! Z.to_nat j = Some x ->
  get2 q k j = Ok x.
Proof.
  intros Hk Hrow Hj Hx. unfold get2.
  rewrite (at_index_Ok _ _ row) by done. simpl. by apply at_index_Ok.
Qed.






(** C4: the code against the specification at [small_radius], for the unit
    point mass.  The code moves the outer probe by [0.01] whatever the
    radius, to [r + 0.01], and evaluates the inner probe at
    [0.01 * q / r - q], the mirror image of [q - 0.01 * q / r]; its estimate
    is below [0.08].  The estimate of the specification, with a step of one
    hundredth of the radius, is the mass [1] to within one part in a
    thousand. *)
Theorem mass_enclosed_step_not_fractional :
  exists m_code m_spec eps,
    mass_enclosed point_mass small_radius = Ok [m_code]
    /\ Base._mass_enclosed point_mass_value small_radius [[0; 0; 0]]%float 1%float 0
       = Ok (m_code, eps)
    /\ eps = [[(0.01 * 0.00390625 / 0.00390625 - 0.00390625)%float;
               (0.01 * 0 / 0.00390625 - 0)%float;
               (0.01 * 0 / 0.00390625 - 0)%float]]
    /\ mass_enclosed_spec point_mass_value small_radius 1%float 0 = Ok m_spec
    /\ (m_code <? 0.08)%float = true
    /\ (0.999 <? m_spec)%float = true
    /\ (m_spec <? 1.001)%float = true.
Proof. do 3 eexists. repeat split; vm_compute; reflexivity. Qed.

(** ** The composite: one pass over the children *)

Lemma fold_children_app {St : Type} (f : _CPotential -> St -> outcome St)
    (ps1 ps2 : list _CPotential) (s : St) :
  fold_children f (ps1 ++ ps2) s
  = (s' <- fold_children f ps1 s ;; fold_children f ps2 s').
Proof.
  revert s. induction ps1 as [|p ps1 IH]; intros s; simpl; [done|].
  destruct (f p s); simpl; auto.
Qed.

(** Dispatching through the table is visiting the list of children. *)
Lemma composite_loop {St : Type} (c : _CCompositePotential) (ps : list _CPotential)
    (f : _CPotential -> St -> outcome St) (s : St) :
  obj_list c = table_of ps -> ninstances c = Z.of_nat (length ps) ->
  (length ps <= OBJ_LIST_SIZE)%nat ->
  for_range (ninstances c) (fun i s => p <- obj_at c i ;; f p s) s
  = fold_children f ps s.
Proof.
  intros Htbl -> Hlen.
  assert (forall m : nat, (m <= length ps)%nat ->
    for_range (Z.of_nat m) (fun i s => p <- obj_at c i ;; f p s) s
    = fold_children f (take m ps) s) as Hm.
  { induction m as [|m IH]; intros Hle.
    - by rewrite for_range_nonpos.
    - destruct (lookup_lt_is_Some_2 ps m) as [p Hp]; [lia|].
      replace (Z.of_nat (S m)) with (Z.of_nat m + 1) by lia.
      rewrite for_range_succ, IH by lia.
      rewrite (take_S_r _ _ _ Hp), fold_children_app.
      destruct (fold_children f (take m ps) s) as [s'| |]; simpl; [|done..].
      rewrite (obj_at_table ps _ _ p);
        [|done|unfold INT_MAX, OBJ_LIST_SIZE in *; lia|by rewrite Nat2Z.id].
      simpl. by destruct (f p s'). }
  rewrite Hm by done. by rewrite firstn_all.
Qed.

Lemma composite_value_row (q : array2) (k : Z) (ps : list _CPotential)
    (vs : list (Z -> float)) (acc : float) :
  Forall2 (fun p v => _value p q k = Ok (v k)) ps vs ->
  fold_children (fun p v => vi <- _value p q k ;; Ok (v + vi)%float) ps acc
  = Ok (foldl PrimFloat.add acc (map (fun v => v k) vs)).
Proof.
  intros H. revert acc. induction H as [|p v ps vs Hp _ IH]; intros acc; simpl; [done|].
  rewrite Hp. simpl. apply IH.
Qed.

Lemma composite_mass_row (q : array2) (Gee : float) (k : Z) (ps : list _CPotential)
    (ms : list (Z -> float)) (acc : float) (eps : array2) :
  0 <= k < shape0 q -> scratch eps ->
  Forall2 (estimates_mass q Gee) ps ms ->
  exists eps', scratch eps' /\
    fold_children (fun p (st : float * array2) =>
        r <- _mass_enclosed p q (snd st) Gee k ;;
        Ok ((fst st + fst r)%float, snd r)) ps (acc, eps)
    = Ok (foldl PrimFloat.add acc (map (fun m => m k) ms), eps').
Proof.
  intros Hk Heps H. revert acc eps Heps.
  induction H as [|p m ps ms Hp _ IH]; intros acc eps Heps; simpl; [by eauto|].
  destruct (Hp eps k Hk Heps) as (eps1 & Heps1 & E). rewrite E. simpl.
  apply IH. done.
Qed.

Lemma composite_gradient_row (q : array2) (d : nat) (k : Z) (ps : list _CPotential)
    (gs : list (Z -> array1)) (grad : array2) (row : array1) :
  0 <= k < shape0 q ->
  Forall2 (adds_gradient q d) ps gs ->
  Forall (fun g => length (g k) = d) gs ->
  grad !! Z.to_nat k = Some row -> length row = d ->
  fold_children (fun p grad => _gradient p q grad k) ps grad
  = Ok (<[Z.to_nat k := foldl vadd row (map (fun g => g k) gs)]> grad).
Proof.
  intros Hk H. revert grad row.
  induction H as [|p g ps gs Hp _ IH]; intros grad row Hg Hrow Hlen; simpl.
  - f_equal. symmetry. by apply list_insert_id.
  - apply Forall_cons in Hg as [Hg1 Hg].
    rewrite (Hp grad k row) by done. simpl.
    rewrite (IH _ (vadd row (g k))); [f_equal; apply list_insert_insert_eq|done| |].
    + apply list_lookup_insert_eq. by eapply lookup_lt_Some.
    + unfold vadd. rewrite length_zip_with. lia.
Qed.

Lemma madd_shape (d : nat) (a b : array2) :
  length a = d -> Forall (fun row => length row = d) a ->
  length b = d -> Forall (fun row => length row = d) b ->
  length (madd a b) = d /\ Forall (fun row => length row = d) (madd a b).
Proof.
  intros Ha Hra Hb Hrb. unfold madd. split; [rewrite length_zip_with; lia|].
  apply Forall_lookup_2. intros i row Hi.
  apply lookup_zip_with_Some in Hi as (x & y & -> & Hx & Hy).
  unfold vadd. rewrite length_zip_with.
  rewrite (Forall_lookup_1 _ _ _ _ Hra Hx), (Forall_lookup_1 _ _ _ _ Hrb Hy). lia.
Qed.

Lemma composite_hessian_row (q : array2) (d : nat) (k : Z) (ps : list _CPotential)
    (hs : list (Z -> array2)) (hess : array3) (mat : array2) :
  0 <= k < shape0 q ->
  Forall2 (adds_hessian q d) ps hs ->
  Forall (fun h => square d (h k)) hs ->
  hess !! Z.to_nat k = Some mat -> square d mat ->
  fold_children (fun p hess => _hessian p q hess k) ps hess
  = Ok (<[Z.to_nat k := foldl madd mat (map (fun h => h k) hs)]> hess).
Proof.
  intros Hk H. revert hess mat.
  induction H as [|p h ps hs Hp _ IH]; intros hess mat Hh Hmat Hsq; simpl.
  - f_equal. symmetry. by apply list_insert_id.
  - apply Forall_cons in Hh as [Hh1 Hh]. destruct Hsq as [Hs1 Hs2].
    rewrite (Hp hess k mat) by done. simpl.
    rewrite (IH _ (madd mat (h k))); [f_equal; apply list_insert_insert_eq|done| |].
    + apply list_lookup_insert_eq. by eapply lookup_lt_Some.
    + destruct Hh1. by apply madd_shape.
Qed.

(** ** The composite: a batch of positions *)

Lemma fill_step {A : Type} (f : Z -> A) (z : A) (n : nat) (k : Z) :
  0 <= k < Z.of_nat n ->
  <[Z.to_nat k := f k]> (map f (range k) ++ replicate (n - Z.to_nat k) z)
  = map f (range (k + 1)) ++ replicate (n - Z.to_nat (k + 1)) z.
Proof.
  intros Hk.
  rewrite insert_app_r_alt; rewrite length_map, range_length; [|lia].
  rewrite Nat.sub_diag.
  replace (n - Z.to_nat k)%nat with (S (n - Z.to_nat (k + 1))) by lia.
  simpl. rewrite range_succ, map_app by lia. simpl.
  by rewrite <- app_assoc.
Qed.

(** A loop that writes row [k] of a buffer at iteration [k] fills the
    buffer. *)
Lemma fill_loop {A : Type} (n : nat) (z : A) (f : Z -> A)
    (body : Z -> list A -> outcome (list A)) :
  (forall k buf, 0 <= k < Z.of_nat n -> buf !! Z.to_nat k = Some z -> length buf = n ->
     body k buf = Ok (<[Z.to_nat k := f k]> buf)) ->
  for_range (Z.of_nat n) body (replicate n z) = Ok (map f (range (Z.of_nat n))).
Proof.
  intros Hbody.
  destruct (for_range_inv
    (fun k buf => buf = map f (range k) ++ replicate (n - Z.to_nat k) z)
    (Z.of_nat n) body (replicate n z)) as (buf & E & ->); [lia| | |].
  - simpl. by rewrite Nat.sub_0_r.
  - intros k buf Hk ->. eexists. split; [|by apply fill_step].
    apply Hbody; [done| |].
    + rewrite lookup_app_r; rewrite length_map, range_length; [|lia].
      apply lookup_replicate_2. lia.
    + rewrite length_app, length_map, range_length, length_replicate. lia.
  - rewrite E. rewrite Nat2Z.id, Nat.sub_diag. simpl. by rewrite app_nil_r.
Qed.

(** The same with a second piece of state, kept inside [Q]. *)
Lemma fill_loop_with {A B : Type} (Q : B -> Prop) (n : nat) (z : A) (f : Z -> A)
    (body : Z -> B * list A -> outcome (B * list A)) (b0 : B) :
  Q b0 ->
  (forall k b buf, 0 <= k < Z.of_nat n -> Q b ->
     buf !! Z.to_nat k = Some z -> length buf = n ->
     exists b', Q b' /\ body k (b, buf) = Ok (b', <[Z.to_nat k := f k]> buf)) ->
  exists b', Q b' /\
    for_range (Z.of_nat n) body (b0, replicate n z)
    = Ok (b', map f (range (Z.of_nat n))).
Proof.
  intros HQ Hbody.
  destruct (for_range_inv
    (fun k st => Q (fst st)
       /\ snd st = map f (range k) ++ replicate (n - Z.to_nat k) z)
    (Z.of_nat n) body (b0, replicate n z)) as ([b buf] & E & Hb & Hbuf); [lia| | |].
  - simpl. by rewrite Nat.sub_0_r.
  - intros k [b buf] Hk [Hb Hbuf]. simpl in *. subst buf.
    destruct (Hbody k b (map f (range k) ++ replicate (n - Z.to_nat k) z))
      as (b' & Hb' & E); [done|done| | |].
    + rewrite lookup_app_r; rewrite length_map, range_length; [|lia].
      apply lookup_replicate_2. lia.
    + rewrite length_app, length_map, range_length, length_replicate. lia.
    + eexists. split; [exact E|]. simpl. split; [done|]. by apply fill_step.
  - simpl in *. exists b. split; [done|]. rewrite E. f_equal. f_equal.
    rewrite Hbuf, Nat2Z.id, Nat.sub_diag. simpl. by rewrite app_nil_r.
Qed.

Lemma built_few (ps : list _CPotential) (c : _CCompositePotential) :
  Composite.__init__ ps = Ok c -> (length ps <= OBJ_LIST_SIZE)%nat.
Proof.
  intros built.
  destruct (decide (length ps <= OBJ_LIST_SIZE)%nat) as [|Hgt]; [done|].
  exfalso. eapply (init_too_many ps); [lia|exact built].
Qed.

Lemma built_eq (ps : list _CPotential) (c : _CCompositePotential) :
  Composite.__init__ ps = Ok c ->
  c = {| py_instances := ps; ninstances := Z.of_nat (length ps);
         obj_list := table_of ps; G := 0%float |}.
Proof.
  intros built.
  pose proof (init_Ok ps (built_few _ _ built)) as E. rewrite built in E.
  by injection E.
Qed.

Lemma built_composite_of (ps : list _CPotential) (c : _CCompositePotential) (g : float) :
  Composite.__init__ ps = Ok c -> set_G c g = composite_of ps g.
Proof. intros built. by rewrite (built_eq _ _ built). Qed.

Lemma zeros_batch (q : array2) :
  shape0 q <= INT_MAX -> shape1 q <= INT_MAX ->
  int_of_ssize (shape0 q) = Z.of_nat (length q)
  /\ int_of_ssize (shape1 q) = shape1 q /\ 0 <= shape1 q.
Proof.
  intros H0 H1.
  assert (0 <= shape1 q) by (unfold shape1; destruct q; lia).
  rewrite !int_of_ssize_id by (unfold INT_MIN, shape0 in *; lia). done.
Qed.

Lemma composite_value_batch (ps : list _CPotential) (g : float) (q : array2)
    (vs : list (Z -> float)) :
  (length ps <= OBJ_LIST_SIZE)%nat -> shape0 q <= INT_MAX ->
  Forall2 (fun p v => forall k, 0 <= k < shape0 q -> _value p q k = Ok (v k)) ps vs ->
  CPotential.value (c_object_of (composite_instance (composite_of ps g))) q
  = Ok (map (fun k => foldl PrimFloat.add 0%float (map (fun v => v k) vs))
          (range (shape0 q))).
Proof.
  intros Hps Hq Hvs. unfold CPotential.value, np_zeros1. simpl.
  replace (shape0 q <? 0) with false by (symmetry; apply Z.ltb_ge; unfold shape0; lia).
  simpl. unfold value.
  rewrite int_of_ssize_id by (unfold INT_MIN, shape0 in *; lia).
  unfold shape0 in *. rewrite Nat2Z.id. apply fill_loop.
  intros k buf Hk Hz Hlen. simpl. unfold Composite._value.
  rewrite (composite_loop _ ps
    (fun p v => vi <- _value p q k ;; Ok (v + vi)%float)) by done.
  rewrite (composite_value_row q k ps vs).
  - simpl. apply put_index_Ok; lia.
  - eapply Forall2_impl; [exact Hvs|]. intros p v Hp. by apply Hp.
Qed.

Lemma composite_gradient_batch (ps : list _CPotential) (g : float) (q : array2)
    (gs : list (Z -> array1)) :
  (length ps <= OBJ_LIST_SIZE)%nat -> shape0 q <= INT_MAX -> shape1 q <= INT_MAX ->
  Forall2 (adds_gradient q (Z.to_nat (shape1 q))) ps gs ->
  Forall (fun g => forall k, length (g k) = Z.to_nat (shape1 q)) gs ->
  CPotential.gradient (c_object_of (composite_instance (composite_of ps g))) q
  = Ok (map (fun k => foldl vadd (zeros1 (Z.to_nat (shape1 q))) (map (fun g => g k) gs))
          (range (shape0 q))).
Proof.
  intros Hps Hq0 Hq1 Hgs Hlen. unfold CPotential.gradient. simpl. unfold gradient.
  destruct (zeros_batch q Hq0 Hq1) as (-> & -> & Hd).
  unfold np_zeros2.
  replace ((Z.of_nat (length q) <? 0) || (shape1 q <? 0)) with false
    by (symmetry; apply orb_false_iff; split; apply Z.ltb_ge; lia).
  simpl. rewrite Nat2Z.id.
  unfold shape0.
  rewrite (fill_loop (length q) (zeros1 (Z.to_nat (shape1 q)))
    (fun k => foldl vadd (zeros1 (Z.to_nat (shape1 q))) (map (fun g => g k) gs)));
    [done|].
  intros k buf Hk Hz Hbuf. unfold Composite._gradient.
  rewrite (composite_loop _ ps (fun p grad => _gradient p q grad k)) by done.
  apply (composite_gradient_row q (Z.to_nat (shape1 q))); try done.
  - eapply Forall_impl; [exact Hlen|]. intros g0 Hg0. apply Hg0.
  - unfold zeros1. by rewrite length_replicate.
Qed.

Lemma zeros2_square (d : nat) : square d (zeros2 d d).
Proof.
  split; [unfold zeros2; by rewrite length_replicate|].
  apply Forall_forall. intros row Hrow. apply elem_of_replicate in Hrow as [-> _].
  unfold zeros1. by rewrite length_replicate.
Qed.

Lemma composite_hessian_batch (ps : list _CPotential) (g : float) (q : array2)
    (hs : list (Z -> array2)) :
  (length ps <= OBJ_LIST_SIZE)%nat -> shape0 q <= INT_MAX -> shape1 q <= INT_MAX ->
  Forall2 (adds_hessian q (Z.to_nat (shape1 q))) ps hs ->
  Forall (fun h => forall k, square (Z.to_nat (shape1 q)) (h k)) hs ->
  CPotential.hessian (c_object_of (composite_instance (composite_of ps g))) q
  = Ok (map (fun k => foldl madd (zeros2 (Z.to_nat (shape1 q)) (Z.to_nat (shape1 q)))
                        (map (fun h => h k) hs))
          (range (shape0 q))).
Proof.
  intros Hps Hq0 Hq1 Hhs Hsq. unfold CPotential.hessian. simpl. unfold hessian.
  destruct (zeros_batch q Hq0 Hq1) as (-> & -> & Hd).
  unfold np_zeros3.
  replace ((Z.of_nat (length q) <? 0) || (shape1 q <? 0) || (shape1 q <? 0)) with false.
  2:{ symmetry. rewrite !orb_false_iff. repeat split; apply Z.ltb_ge; lia. }
  simpl. rewrite Nat2Z.id.
  unfold shape0.
  rewrite (fill_loop (length q) (zeros2 (Z.to_nat (shape1 q)) (Z.to_nat (shape1 q)))
    (fun k => foldl madd (zeros2 (Z.to_nat (shape1 q)) (Z.to_nat (shape1 q)))
                (map (fun h => h k) hs)));
    [done|].
  intros k buf Hk Hz Hbuf. unfold Composite._hessian.
  rewrite (composite_loop _ ps (fun p hess => _hessian p q hess k)) by done.
  apply (composite_hessian_row q (Z.to_nat (shape1 q))); try done.
  - eapply Forall_impl; [exact Hsq|]. intros h0 Hh0. apply Hh0.
  - apply zeros2_square.
Qed.

Lemma composite_mass_batch (ps : list _CPotential) (g : float) (q : array2)
    (ms : list (Z -> float)) :
  (length ps <= OBJ_LIST_SIZE)%nat -> shape0 q <= INT_MAX ->
  Forall2 (estimates_mass q g) ps ms ->
  CPotential.mass_enclosed (c_object_of (composite_instance (composite_of ps g))) q
  = Ok (map (fun k => foldl PrimFloat.add 0%float (map (fun m => m k) ms))
          (range (shape0 q))).
Proof.
  intros Hps Hq Hms. unfold CPotential.mass_enclosed. simpl. unfold mass_enclosed.
  rewrite int_of_ssize_id by (unfold INT_MIN, shape0 in *; lia).
  unfold np_zeros1.
  replace (shape0 q <? 0) with false by (symmetry; apply Z.ltb_ge; unfold shape0; lia).
  simpl. unfold shape0 in *. rewrite Nat2Z.id.
  set (loop := for_range _ _ _).
  destruct (fill_loop_with scratch (length q) 0%float
    (fun k => foldl PrimFloat.add 0%float (map (fun m => m k) ms))
    (fun k (st : array2 * array1) =>
       Gee <- getattr_G (composite_instance (composite_of ps g)) ;;
       r <- _mass_enclosed (composite_instance (composite_of ps g)) q (fst st) Gee k ;;
       mass <- set1 (snd st) k (fst r) ;;
       Ok (snd r, mass))
    [[0; 0; 0]]%float) as (eps' & _ & E).
  - by exists 0%float, 0%float, 0%float.
  - intros k eps buf Hk Heps Hz Hbuf. simpl. unfold Composite._mass_enclosed.
    rewrite (composite_loop _ ps (fun p (st : float * array2) =>
        r <- _mass_enclosed p q (snd st) g k ;;
        Ok ((fst st + fst r)%float, snd r))) by done.
    destruct (composite_mass_row q g k ps ms 0%float eps) as (eps1 & Heps1 & E1);
      [unfold shape0; lia|done|done|].
    rewrite E1. simpl. exists eps1. split; [done|].
    unfold set1. rewrite put_index_Ok by lia. done.
  - assert (loop = Ok (eps', map (fun k => foldl PrimFloat.add 0%float
                                     (map (fun m => m k) ms))
                                (range (Z.of_nat (length q))))) as ->
      by exact E.
    done.
Qed.

(** C5, as stated, fails, for the gradient and for the enclosed mass.
    The gradient: the composite hands one buffer to its children in turn,
    and the hook that [_CPotential] defines overwrites the rows it is
    given.  With the uniform field followed by a plain [_CPotential], the
    children's gradients are [(1, 2, 3)] and [(0, 0, 0)] at each position
    and the composite's is [(0, 0, 0)].
    The enclosed mass: the composite hands its own [G] to its children,
    whose own [G] is not used.  The unit point mass, with its [G = 1],
    estimates more than [1] at the first position; as the only child of a
    composite with [G = 2] it contributes less than [0.51], and in the
    composite that the Python class builds, where nothing sets [G], the
    estimate is [+inf] at every position. *)
Lemma composite_outputs_not_the_sums :
  CPotential.gradient (c_object_of uniform_field) three_points
  = Ok (replicate 3 [1; 2; 3]%float)
  /\ CPotential.gradient (c_object_of base_instance) three_points
     = Ok (replicate 3 [0; 0; 0]%float)
  /\ (c <- Composite.__init__ [uniform_field; base_instance] ;;
      CPotential.gradient (c_object_of (composite_instance c)) three_points)
     = Ok (replicate 3 [0; 0; 0]%float)
  /\ madd (replicate 3 [1; 2; 3]%float) (replicate 3 [0; 0; 0]%float)
     = replicate 3 [1; 2; 3]%float
  /\ (exists m ms,
        CPotential.mass_enclosed (c_object_of point_mass) three_points = Ok (m :: ms)
        /\ (1 <? m)%float = true)
  /\ (exists m ms,
        (c <- Composite.__init__ [point_mass] ;;
         CPotential.mass_enclosed (c_object_of (composite_instance (set_G c 2%float)))
           three_points) = Ok (m :: ms)
        /\ (m <? 0.51)%float = true)
  /\ (self <- CCompositePotential.__init__ [point_mass] ;;
      CPotential.mass_enclosed self three_points)
     = Ok [infinity; infinity; infinity].
Proof.
  split; [vm_compute; reflexivity|]. split; [vm_compute; reflexivity|].
  split; [vm_compute; reflexivity|]. split; [vm_compute; reflexivity|].
  split; [do 2 eexists; split; vm_compute; reflexivity|].
  split; [do 2 eexists; split; vm_compute; reflexivity|].
  vm_compute. reflexivity.
Qed.

Lemma map_const_range {A : Type} (z : A) (n : nat) :
  map (fun _ => z) (range (Z.of_nat n)) = replicate n z.
Proof.
  unfold range. rewrite Nat2Z.id, map_map. generalize 0%nat.
  induction n as [|n IH]; intros a; simpl; [done|]. by rewrite IH.
Qed.

(** C5, amended.  For a composite built from the children [ps], with its
    attribute [G] set to [g], and a batch [q], each of the four operations
    under a condition on the hooks that it calls, and on no other:
    - [value] is, at each position, the sum of the children's values, added
      in order from [0.];
    - [mass_enclosed] is, at each position, the sum of the children's
      estimates computed with the composite's [g], added in order from [0.];
    - [gradient] (and [hessian]) runs the children's hooks in order on one
      zeroed buffer; when every hook adds its contribution to the row of the
      position, the result is, at each position, the sum of the
      contributions, added in order from zero;
    - without children the four results are zero. *)
Theorem composite_sums (ps : list _CPotential) (c : _CCompositePotential)
    (g : float) (q : array2) :
  let n := length q in
  let d := Z.to_nat (shape1 q) in
  let self := c_object_of (composite_instance (set_G c g)) in
  Composite.__init__ ps = Ok c ->
  shape0 q <= INT_MAX -> shape1 q <= INT_MAX ->
  (forall vs : list (Z -> float),
     Forall2 (fun p v => forall k, 0 <= k < shape0 q -> _value p q k = Ok (v k)) ps vs ->
     CPotential.value self q
     = Ok (map (fun k => foldl PrimFloat.add 0%float (map (fun v => v k) vs))
             (range (shape0 q))))
  /\ (forall ms : list (Z -> float),
        Forall2 (estimates_mass q g) ps ms ->
        CPotential.mass_enclosed self q
        = Ok (map (fun k => foldl PrimFloat.add 0%float (map (fun m => m k) ms))
                (range (shape0 q))))
  /\ (forall gs : list (Z -> array1),
        Forall2 (adds_gradient q d) ps gs ->
        Forall (fun g => forall k, length (g k) = d) gs ->
        CPotential.gradient self q
        = Ok (map (fun k => foldl vadd (zeros1 d) (map (fun g => g k) gs))
                (range (shape0 q))))
  /\ (forall hs : list (Z -> array2),
        Forall2 (adds_hessian q d) ps hs ->
        Forall (fun h => forall k, square d (h k)) hs ->
        CPotential.hessian self q
        = Ok (map (fun k => foldl madd (zeros2 d d) (map (fun h => h k) hs))
                (range (shape0 q))))
  /\ (ps = [] ->
      CPotential.value self q = Ok (zeros1 n)
      /\ CPotential.mass_enclosed self q = Ok (zeros1 n)
      /\ CPotential.gradient self q = Ok (zeros2 n d)
      /\ CPotential.hessian self q = Ok (zeros3 n d d)).
Proof.
  intros n d self Hbuilt Hq0 Hq1.
  pose proof (built_few _ _ Hbuilt) as Hfew.
  subst self. rewrite (built_composite_of _ _ g Hbuilt).
  split; [intros vs Hvs; by apply composite_value_batch|].
  split; [intros ms Hms; by apply composite_mass_batch|].
  split; [intros gs Hgs Hgl; by apply composite_gradient_batch|].
  split; [intros hs Hhs Hhl; by apply composite_hessian_batch|].
  intros ->.
  pose proof (composite_value_batch [] g q [] Hfew Hq0 ltac:(constructor)) as Ev.
  pose proof (composite_mass_batch [] g q [] Hfew Hq0 ltac:(constructor)) as Em.
  pose proof (composite_gradient_batch [] g q [] Hfew Hq0 Hq1 ltac:(constructor)
                ltac:(constructor)) as Eg.
  pose proof (composite_hessian_batch [] g q [] Hfew Hq0 Hq1 ltac:(constructor)
                ltac:(constructor)) as Eh.
  simpl in Ev, Em, Eg, Eh. unfold shape0 in *.
  rewrite map_const_range in Ev. rewrite map_const_range in Em.
  rewrite map_const_range in Eg. rewrite map_const_range in Eh. done.
Qed.

Lemma uniform_adds_gradient (q : array2) :
  shape0 q <= INT_MAX -> adds_gradient q 3 uniform_field (fun _ => [1; 2; 3]%float).
Proof.
  intros Hq grad k row Hk Hrow Hlen. simpl. unfold uniform_gradient.
  rewrite (at_index_Ok _ _ row) by (done || lia). simpl.
  apply put_index_Ok; [lia|by eapply lookup_lt_Some].
Qed.

Lemma uniform_adds_hessian (q : array2) :
  shape0 q <= INT_MAX -> adds_hessian q 3 uniform_field (fun _ => zeros2 3 3).
Proof.
  intros Hq hess k mat Hk Hmat Hlen _. simpl. unfold uniform_hessian.
  rewrite (at_index_Ok _ _ mat) by (done || lia). simpl.
  apply put_index_Ok; [lia|by eapply lookup_lt_Some].
Qed.

Lemma uniform_estimates_mass :
  estimates_mass three_points 1%float uniform_field uniform_masses.
Proof.
  intros eps k Hk (e0 & e1 & e2 & ->).
  assert (k = 0 \/ k = 1 \/ k = 2) as [->|[->| ->]] by (unfold shape0 in Hk; simpl in Hk; lia).
  all: eexists; split; [|vm_compute; reflexivity]; by repeat eexists.
Qed.

Lemma composite_sums_witness :
  exists c, Composite.__init__ [uniform_field; uniform_field] = Ok c /\
    let self := c_object_of (composite_instance (set_G c 1%float)) in
    CPotential.value self three_points = Ok [2; 8; 24]%float
    /\ CPotential.gradient self three_points = Ok (replicate 3 [2; 4; 6]%float)
    /\ CPotential.hessian self three_points = Ok (zeros3 3 3 3)
    /\ CPotential.mass_enclosed self three_points
       = Ok (map (fun k => (0 + uniform_masses k + uniform_masses k)%float) [0; 1; 2]).
Proof.
  exists (composite_of [uniform_field; uniform_field] 0%float).
  split; [reflexivity|]. intros self.
  destruct (composite_sums [uniform_field; uniform_field]
              (composite_of [uniform_field; uniform_field] 0%float)
              1%float three_points)
    as (Ev & Em & Eg & Eh & _).
  - reflexivity.
  - vm_compute; discriminate.
  - vm_compute; discriminate.
  - subst self.
    rewrite (Ev [uniform_values; uniform_values]),
      (Em [uniform_masses; uniform_masses]),
      (Eg [fun _ => [1; 2; 3]%float; fun _ => [1; 2; 3]%float]),
      (Eh [fun _ => zeros2 3 3; fun _ => zeros2 3 3]).
    + repeat split; reflexivity.
    + repeat constructor; apply uniform_adds_hessian; vm_compute; discriminate.
    + repeat constructor.
    + repeat constructor; apply uniform_adds_gradient; vm_compute; discriminate.
    + repeat constructor.
    + repeat constructor; apply uniform_estimates_mass.
    + repeat constructor; intros k Hk;
        (assert (k = 0 \/ k = 1 \/ k = 2) as [->|[->| ->]]
           by (unfold shape0 in Hk; simpl in Hk; lia)); reflexivity.
Defined.

(** ** The driver: copying rows *)

Lemma set2_Ok (dst : array2) (r k : Z) (old : array1) (v : float) :
  0 <= r <= INT_MAX -> dst !! Z.to_nat r = Some old ->
  0 <= k <= INT_MAX -> (Z.to_nat k < length old)%nat ->
  set2 dst r k v = Ok (<[Z.to_nat r := <[Z.to_nat k := v]> old]> dst).
Proof.
  intros Hr Hold Hk Hlt. unfold set2.
  rewrite (at_index_Ok _ _ old) by done. simpl.
  rewrite put_index_Ok by done. simpl.
  apply put_index_Ok; [done|by eapply lookup_lt_Some].
Qed.

Lemma copy_row (rd : Z -> outcome float) (dst : array2) (r : Z) (old row : array1) :
  0 <= r <= INT_MAX -> dst !! Z.to_nat r = Some old ->
  length old = 6%nat -> length row = 6%nat ->
  (forall k x, row !! k = Some x -> rd (Z.of_nat k) = Ok x) ->
  for_range 6 (fun k dst => v <- rd k ;; set2 dst r k v) dst
  = Ok (<[Z.to_nat r := row]> dst).
Proof.
  intros Hr Hold Hlo Hlr Hrd.
  destruct old as [|o0 [|o1 [|o2 [|o3 [|o4 [|o5 [|]]]]]]]; try discriminate.
  destruct row as [|x0 [|x1 [|x2 [|x3 [|x4 [|x5 [|]]]]]]]; try discriminate.
  assert (Z.to_nat r < length dst)%nat as Hlen by (by eapply lookup_lt_Some).
  unfold for_range. simpl.
  rewrite (Hrd 0%nat x0) by done. simpl.
  rewrite (set2_Ok _ _ _ _ _ Hr Hold) by (simpl; unfold INT_MAX; lia). simpl.
  rewrite (Hrd 1%nat x1) by done. simpl.
  erewrite set2_Ok;
    [|done|by (apply list_lookup_insert_eq; rewrite ?length_insert)
     |unfold INT_MAX; lia|simpl; lia]. simpl.
  rewrite (Hrd 2%nat x2) by done. simpl.
  erewrite set2_Ok;
    [|done|by (apply list_lookup_insert_eq; rewrite ?length_insert)
     |unfold INT_MAX; lia|simpl; lia]. simpl.
  rewrite (Hrd 3%nat x3) by done. simpl.
  erewrite set2_Ok;
    [|done|by (apply list_lookup_insert_eq; rewrite ?length_insert)
     |unfold INT_MAX; lia|simpl; lia]. simpl.
  rewrite (Hrd 4%nat x4) by done. simpl.
  erewrite set2_Ok;
    [|done|by (apply list_lookup_insert_eq; rewrite ?length_insert)
     |unfold INT_MAX; lia|simpl; lia]. simpl.
  rewrite (Hrd 5%nat x5) by done. simpl.
  erewrite set2_Ok;
    [|done|by (apply list_lookup_insert_eq; rewrite ?length_insert)
     |unfold INT_MAX; lia|simpl; lia]. simpl.
  by rewrite !list_insert_insert_eq.
Qed.

Lemma insert_middle {A : Type} (l1 l2 l3 : list A) (i : nat) (old x : A) :
  i = (length l1 + length l2)%nat ->
  <[i := x]> (l1 ++ l2 ++ old :: l3) = l1 ++ (l2 ++ [x]) ++ l3.
Proof.
  intros ->. rewrite app_assoc, insert_app_r_alt; rewrite length_app; [|lia].
  rewrite Nat.sub_diag. simpl. by rewrite <- !app_assoc.
Qed.

(** The double loop
    [for j in range(cnt): for k in range(ndim): dst[d0 + j, k] = src[.., k]]
    replaces [cnt] rows of [dst], from row [d0] on, by the rows read. *)
Lemma copy_rows (rd : Z -> Z -> outcome float) (dst : array2) (d0 cnt : Z)
    (rows : array2) :
  0 <= d0 -> d0 + cnt <= Z.of_nat (length dst) ->
  Z.of_nat (length dst) <= INT_MAX ->
  Z.of_nat (length rows) = cnt ->
  Forall (fun row => length row = 6%nat) rows ->
  Forall (fun row => length row = 6%nat) dst ->
  (forall j k row x, rows !! j = Some row -> row !! k = Some x ->
     rd (Z.of_nat j) (Z.of_nat k) = Ok x) ->
  for_range cnt (fun j dst =>
    for_range 6 (fun k dst => v <- rd j k ;; set2 dst (d0 + j) k v) dst) dst
  = Ok (take (Z.to_nat d0) dst ++ rows ++ drop (Z.to_nat (d0 + cnt)) dst).
Proof.
  intros Hd0 Hfit Hmax Hcnt Hrows Hdst Hrd.
  destruct (for_range_inv
    (fun j s => s = take (Z.to_nat d0) dst ++ take (Z.to_nat j) rows
                    ++ drop (Z.to_nat (d0 + j)) dst)
    cnt
    (fun j dst => for_range 6 (fun k dst => v <- rd j k ;; set2 dst (d0 + j) k v) dst)
    dst) as (s & E & ->); [lia| | |].
  - simpl. rewrite Z.add_0_r. by rewrite take_drop.
  - intros j s Hj ->.
    destruct (lookup_lt_is_Some_2 rows (Z.to_nat j)) as [row Hrow]; [lia|].
    destruct (lookup_lt_is_Some_2 dst (Z.to_nat (d0 + j))) as [old Hold]; [lia|].
    pose proof (Forall_lookup_1 _ _ _ _ Hrows Hrow) as Hlr. simpl in Hlr.
    pose proof (Forall_lookup_1 _ _ _ _ Hdst Hold) as Hlo. simpl in Hlo.
    rewrite (drop_S _ _ _ Hold).
    eexists. split.
    + apply (copy_row (rd j) _ (d0 + j) old row); [unfold INT_MAX in *; lia| |done|done|].
      * rewrite lookup_app_r; rewrite length_take; [|lia].
        rewrite lookup_app_r; rewrite length_take; [|lia].
        replace (Z.to_nat (d0 + j) - Z.to_nat d0 `min` length dst
                 - Z.to_nat j `min` length rows)%nat with 0%nat by lia.
        done.
      * intros k x Hx. rewrite <- (Z2Nat.id j) by lia. by eapply Hrd.
    + rewrite insert_middle by (rewrite !length_take; lia).
      replace (Z.to_nat (j + 1)) with (S (Z.to_nat j)) by lia.
      rewrite (take_S_r _ _ _ Hrow).
      by replace (Z.to_nat (d0 + (j + 1))) with (S (Z.to_nat (d0 + j))) by lia.
  - rewrite E. rewrite <- Hcnt at 1. by rewrite Nat2Z.id, firstn_all.
Qed.

(** ** The driver: the table of potentials *)

Lemma for_each_map {St : Type} (f : Z -> Z) (l : list Z) (body : Z -> St -> outcome St)
    (s : St) :
  for_each (map f l) body s = for_each l (fun j => body (f j)) s.
Proof.
  revert s. induction l as [|j l IH]; intros s; simpl; [done|].
  destruct (body (f j) s); simpl; auto.
Qed.

Lemma table_nulls {A : Type} (tbl : list (option A)) (x : A) (start cnt : nat) :
  (start + cnt <= length tbl)%nat -> Z.of_nat (length tbl) <= INT_MAX ->
  for_range (Z.of_nat cnt)
    (fun j tbl => put_index tbl (Z.of_nat start + j) (Some x)) tbl
  = Ok (take start tbl ++ replicate cnt (Some x) ++ drop (start + cnt) tbl).
Proof.
  intros Hfit Hmax.
  destruct (for_range_inv
    (fun j t => t = take start tbl ++ replicate (Z.to_nat j) (Some x)
                    ++ drop (start + Z.to_nat j) tbl)
    (Z.of_nat cnt)
    (fun j tbl => put_index tbl (Z.of_nat start + j) (Some x)) tbl)
    as (t & E & ->); [lia| | |].
  - simpl. by rewrite Nat.add_0_r, take_drop.
  - intros j t Hj ->.
    destruct (lookup_lt_is_Some_2 tbl (start + Z.to_nat j)) as [old Hold]; [lia|].
    rewrite put_index_Ok;
      [|lia|rewrite !length_app, length_take, length_replicate, length_drop; lia].
    eexists. split; [done|].
    rewrite (drop_S _ _ _ Hold).
    rewrite insert_middle by (rewrite length_take, length_replicate; lia).
    replace (Z.to_nat (j + 1)) with (S (Z.to_nat j)) by lia.
    rewrite replicate_S_end.
    by replace (start + S (Z.to_nat j))%nat with (S (start + Z.to_nat j)) by lia.
  - by rewrite E, Nat2Z.id.
Qed.

Lemma table_nulls_overflow {A : Type} (tbl : list (option A)) (x : A) (start : nat)
    (cnt : Z) :
  (start <= length tbl)%nat -> Z.of_nat (length tbl) < Z.of_nat start + cnt ->
  Z.of_nat (length tbl) <= INT_MAX ->
  for_range cnt (fun j tbl => put_index tbl (Z.of_nat start + j) (Some x)) tbl
  = Undefined.
Proof.
  intros Hstart Hcnt Hmax.
  eapply (for_range_fails cnt (Z.of_nat (length tbl - start))); [lia| |].
  - apply table_nulls; lia.
  - apply put_index_out.
    rewrite !length_app, length_take, length_replicate, length_drop. lia.
Qed.

Lemma set_particle_potentials_Ok (ext : externals) (nbody : nbody_t) (nb mx : nat) :
  (nb <= length (particle_potentials nbody))%nat -> (nb + mx <= MAX_NBODY)%nat ->
  set_particle_potentials ext nbody (Z.of_nat nb) (Z.of_nat mx)
  = Ok ((Some <$> take nb (particle_potentials nbody))
        ++ replicate mx (Some (null_p ext))
        ++ replicate (MAX_NBODY - nb - mx) None).
Proof.
  intros Hpp Hfit. unfold set_particle_potentials.
  rewrite table_fill by (unfold MAX_NBODY, INT_MAX in *; lia). simpl.
  unfold range_from. rewrite for_each_map.
  replace (Z.of_nat nb + Z.of_nat mx - Z.of_nat nb) with (Z.of_nat mx) by lia.
  change (for_each (range (Z.of_nat mx)) ?b ?s) with (for_range (Z.of_nat mx) b s).
  rewrite (table_nulls _ (null_p ext) nb mx).
  - f_equal. rewrite take_app_length'; [|rewrite length_fmap, length_take; lia].
    f_equal. f_equal.
    rewrite drop_app_ge; rewrite length_fmap, length_take; [|lia].
    rewrite drop_replicate. f_equal. lia.
  - rewrite length_app, length_fmap, length_take, length_replicate. lia.
  - rewrite length_app, length_fmap, length_take, length_replicate.
    unfold MAX_NBODY, INT_MAX in *. lia.
Qed.

Lemma set_particle_potentials_overflow (ext : externals) (nbody : nbody_t) (nb mx : nat) :
  (nb <= length (particle_potentials nbody))%nat -> (MAX_NBODY < nb + mx)%nat ->
  set_particle_potentials ext nbody (Z.of_nat nb) (Z.of_nat mx) = Undefined.
Proof.
  intros Hpp Hover. unfold set_particle_potentials.
  destruct (decide (nb <= MAX_NBODY)%nat) as [Hnb|Hnb].
  - rewrite table_fill by (unfold MAX_NBODY, INT_MAX in *; lia). simpl.
    unfold range_from. rewrite for_each_map.
    change (for_each (range ?n) ?b ?s) with (for_range n b s).
    apply table_nulls_overflow;
      rewrite length_app, length_fmap, length_take, length_replicate;
      unfold MAX_NBODY, INT_MAX in *; lia.
  - rewrite table_fill_overflow; [done|lia|lia|unfold MAX_NBODY, INT_MAX; lia].
Qed.

(** ** The driver: counts *)

Lemma np_sum_nonneg (l : list Z) : Forall (fun c => 0 <= c) l -> 0 <= np_sum l.
Proof. induction 1; simpl; lia. Qed.

Lemma np_sum_app (l1 l2 : list Z) : np_sum (l1 ++ l2) = np_sum l1 + np_sum l2.
Proof. induction l1 as [|c l1 IH]; simpl; [done|]. unfold np_sum in *. lia. Qed.

Lemma np_sum_take_S (l : list Z) (i : nat) (c : Z) :
  l !! i = Some c -> np_sum (take (S i) l) = np_sum (take i l) + c.
Proof.
  intros Hc. rewrite (take_S_r _ _ _ Hc), np_sum_app. simpl. lia.
Qed.

Lemma np_sum_take_le (l : list Z) (i : nat) :
  Forall (fun c => 0 <= c) l -> 0 <= np_sum (take i l) <= np_sum l.
Proof.
  intros Hl. rewrite <- (take_drop i l) at 3. rewrite np_sum_app.
  pose proof (np_sum_nonneg (take i l) (Forall_take _ _ _ Hl)).
  pose proof (np_sum_nonneg (drop i l) (Forall_drop _ _ _ Hl)). lia.
Qed.

Lemma max_bounds (l : list Z) (i : nat) (c : Z) :
  l !! i = Some c -> c <= foldr Z.max 0 l.
Proof.
  revert i. induction l as [|x l IH]; intros [|i] Hc; simpl in *; try done.
  - injection Hc as ->. lia.
  - specialize (IH i Hc). lia.
Qed.

Lemma max_nonneg (l : list Z) : 0 <= foldr Z.max 0 l.
Proof. induction l; simpl; lia. Qed.

Lemma np_max_nonneg (l : list Z) :
  l <> [] -> Forall (fun c => 0 <= c) l -> np_max l = Ok (foldr Z.max 0 l).
Proof.
  intros Hne Hl. destruct l as [|x l]; [done|]. simpl. f_equal.
  apply Forall_cons in Hl as [Hx Hl]. clear Hne.
  induction Hl as [|y l Hy _ IH]; simpl; lia.
Qed.

Section Counts.

Variables (ext : externals) (a : call).
Hypothesis wf : well_formed ext a.

Lemma nstream_lookup (i : nat) :
  (i < ntimes_of a)%nat ->
  c_nstream a !! i = Some (Z.of_nat (released_at a i)).
Proof using wf.
  intros Hi. destruct (wf_counts _ _ wf) as [Hlen Hpos].
  destruct (lookup_lt_is_Some_2 (c_nstream a) i) as [c Hc]; [lia|].
  unfold released_at. rewrite (nth_lookup_Some _ _ _ _ Hc).
  pose proof (Forall_lookup_1 _ _ _ _ Hpos Hc) as H0. simpl in H0.
  rewrite Hc. f_equal. lia.
Qed.

Lemma released_before_S (i : nat) :
  (i < ntimes_of a)%nat ->
  released_before a (S i) = (released_before a i + released_at a i)%nat.
Proof using wf.
  intros Hi. unfold released_before.
  rewrite (np_sum_take_S _ _ _ (nstream_lookup i Hi)).
  destruct (wf_counts _ _ wf) as [_ Hpos].
  pose proof (np_sum_take_le (c_nstream a) i Hpos). lia.
Qed.

Lemma released_before_total (i : nat) :
  (released_before a i <= released_before a (ntimes_of a))%nat
  /\ Z.of_nat (released_before a (ntimes_of a)) = np_sum (c_nstream a).
Proof using wf.
  destruct (wf_counts _ _ wf) as [Hlen Hpos]. unfold released_before.
  rewrite <- Hlen, firstn_all.
  pose proof (np_sum_take_le (c_nstream a) i Hpos). lia.
Qed.

Lemma released_fit (i : nat) :
  (i < ntimes_of a)%nat ->
  (released_before a i + released_at a i <= released_before a (ntimes_of a))%nat
  /\ (released_at a i <= max_nstream_of a)%nat.
Proof using wf.
  intros Hi. split.
  - rewrite <- released_before_S by done. apply released_before_total.
  - pose proof (max_bounds _ _ _ (nstream_lookup i Hi)).
    unfold max_nstream_of. lia.
Qed.

Lemma sizes_fit :
  Z.of_nat (nbodies_of a + released_before a (ntimes_of a)) <= INT_MAX
  /\ Z.of_nat (nbodies_of a + max_nstream_of a) <= INT_MAX.
Proof using wf.
  pose proof (wf_total _ _ wf). pose proof (wf_table _ _ wf).
  destruct (released_before_total 0) as [_ Ht].
  unfold MAX_NBODY, INT_MAX in *. lia.
Qed.

End Counts.

(** ** The driver: shapes *)

Lemma rect_app (n1 n2 : nat) (a1 a2 : array2) :
  rect n1 a1 -> rect n2 a2 -> rect (n1 + n2) (a1 ++ a2).
Proof.
  intros [H1 F1] [H2 F2]. split; [rewrite length_app; lia|by apply Forall_app].
Qed.

Lemma rect_take (n m : nat) (w : array2) :
  rect n w -> (m <= n)%nat -> rect m (take m w).
Proof.
  intros [H1 F1] Hm. split; [rewrite length_take; lia|by apply Forall_take].
Qed.

Lemma rect_drop (n m : nat) (w : array2) : rect n w -> rect (n - m) (drop m w).
Proof.
  intros [H1 F1]. split; [rewrite length_drop; lia|by apply Forall_drop].
Qed.

Lemma rect_garbage (g : nat -> nat -> float) (n : nat) :
  rect n (map (fun i => map (g i) (seq 0 6)) (seq 0 n)).
Proof.
  split; [by rewrite length_map, length_seq|].
  apply Forall_forall. intros row Hrow.
  apply list_elem_of_In, in_map_iff in Hrow as (i & <- & _). done.
Qed.

Section Shapes.

Variables (ext : externals) (a : call).
Hypothesis wf : well_formed ext a.

Lemma rect_orbit (i : nat) :
  (i < ntimes_of a)%nat -> rect (nbodies_of a) (nth i (nbody_w_of ext a) []).
Proof using wf.
  intros Hi. destruct (wf_orbits _ _ wf) as [Hlen Hall].
  destruct (lookup_lt_is_Some_2 (nbody_w_of ext a) i) as [m Hm]; [lia|].
  rewrite (nth_lookup_Some _ _ _ _ Hm).
  exact (Forall_lookup_1 _ _ _ _ Hall Hm).
Qed.

Lemma rect_released (i : nat) :
  (i < ntimes_of a)%nat ->
  rect (released_at a i)
    (take (released_at a i) (drop (released_before a i) (c_stream_w0 a))).
Proof using wf.
  intros Hi. destruct (wf_stream_w0 _ _ wf) as (Hlen & _ & Hall).
  destruct (released_fit ext a wf i Hi) as [Hfit _].
  split; [rewrite length_take, length_drop; lia|].
  by apply Forall_take, Forall_drop.
Qed.

Lemma rect_seeded (w : array2) (i : nat) :
  (i < ntimes_of a)%nat ->
  rect (nbodies_of a + max_nstream_of a) w ->
  rect (nbodies_of a + max_nstream_of a) (seeded ext a w i).
Proof using wf.
  intros Hi Hw. destruct (released_fit ext a wf i Hi) as [_ Hmax].
  unfold seeded.
  replace (nbodies_of a + max_nstream_of a)%nat
    with (nbodies_of a + (released_at a i
          + (nbodies_of a + max_nstream_of a - (nbodies_of a + released_at a i))))%nat
    by lia.
  apply rect_app; [by apply rect_orbit|].
  apply rect_app; [by apply rect_released|].
  by apply rect_drop.
Qed.

Lemma rect_buffer_after (i : nat) :
  (i <= ntimes_of a)%nat ->
  rect (nbodies_of a + max_nstream_of a) (buffer_after ext a i).
Proof using wf.
  induction i as [|i IH]; intros Hi; simpl.
  - apply rect_garbage.
  - unfold stepped. apply (wf_step _ _ wf). apply rect_seeded; [lia|]. apply IH. lia.
Qed.

Lemma rect_final_states (i : nat) :
  (i < ntimes_of a)%nat -> rect (released_at a i) (final_states ext a i).
Proof using wf.
  intros Hi. destruct (released_fit ext a wf i Hi) as [_ Hmax].
  unfold final_states.
  apply (rect_take (nbodies_of a + max_nstream_of a - nbodies_of a)); [|lia].
  apply rect_drop, rect_buffer_after. lia.
Qed.

Lemma rect_all_final_states (m : nat) :
  (m <= ntimes_of a)%nat ->
  rect (released_before a m) (flat_map (final_states ext a) (seq 0 m)).
Proof using wf.
  induction m as [|m IH]; intros Hm.
  - split; [|done]. simpl. unfold released_before. by rewrite take_0.
  - rewrite seq_S, flat_map_app. simpl. rewrite app_nil_r.
    rewrite (released_before_S ext a wf) by lia.
    apply rect_app; [apply IH; lia|apply rect_final_states; lia].
Qed.

Lemma rect_w_final_initial :
  rect (nbodies_of a + released_before a (ntimes_of a)) (w_final_initial ext a).
Proof using wf.
  unfold w_final_initial. destruct (wf_counts _ _ wf) as [-> _]. apply rect_garbage.
Qed.

Lemma rect_w_final_after (m : nat) :
  (m <= ntimes_of a)%nat ->
  rect (nbodies_of a + released_before a (ntimes_of a)) (w_final_after ext a m).
Proof using wf.
  intros Hm. unfold w_final_after.
  destruct (released_before_total ext a wf m) as [Hle _].
  replace (nbodies_of a + released_before a (ntimes_of a))%nat
    with (nbodies_of a + (released_before a m
          + (nbodies_of a + released_before a (ntimes_of a)
             - (nbodies_of a + released_before a m))))%nat by lia.
  apply rect_app; [apply (rect_take _ _ _ rect_w_final_initial); lia|].
  apply rect_app; [by apply rect_all_final_states|].
  apply rect_drop, rect_w_final_initial.
Qed.

End Shapes.

(** ** The driver: one step *)

Lemma get3_Ok (w : array3) (i j k : Z) (m : array2) (row : array1) (x : float) :
  0 <= i <= INT_MAX -> w !! Z.to_nat i = Some m ->
  0 <= j <= INT_MAX -> m !! Z.to_nat j = Some row ->
  0 <= k <= INT_MAX -> row !! Z.to_nat k = Some x ->
  get3 w i j k = Ok x.
Proof.
  intros Hi Hm Hj Hrow Hk Hx. unfold get3.
  rewrite (at_index_Ok _ _ m) by done. simpl. by eapply get2_Ok.
Qed.

Lemma row_index (row : array1) (k : nat) (x : float) :
  length row = 6%nat -> row !! k = Some x -> 0 <= Z.of_nat k <= INT_MAX.
Proof.
  intros Hlen Hx. apply lookup_lt_Some in Hx. unfold INT_MAX. lia.
Qed.

Section Step.

Variables (ext : externals) (a : call).
Hypothesis wf : well_formed ext a.

Lemma release_step_spec (i : nat) (tr : list event) :
  (i < ntimes_of a)%nat ->
  release_step ext (H_potential (c_nbody a)) (H_frame (c_nbody a))
    (table_of_call ext a) (nbody_w_of ext a) (Z.of_nat (nbodies_of a))
    (c_stream_w0 a) (c_stream_t1 a) (c_nstream a) (t2_of a) (dt0_of a)
    (c_atol a) (c_rtol a) (c_nmax a) (Z.of_nat i)
    (buffer_after ext a i, w_final_after ext a i, Z.of_nat (released_before a i)) tr
  = (tr ++ step_events ext a i,
     if pending_signal ext (length (filter (fun e => is_poll e = true) tr))
     then Raise KeyboardInterrupt
     else Ok (buffer_after ext a (S i), w_final_after ext a (S i),
              Z.of_nat (released_before a (S i)))).
Proof using wf.
  intros Hi.
  destruct (sizes_fit ext a wf) as [Hfit_final Hfit_tmp].
  destruct (released_fit ext a wf i Hi) as [Hfit Hmax].
  destruct (wf_times _ _ wf) as [_ Hnt].
  pose proof (rect_buffer_after ext a wf i ltac:(lia)) as [Hbl Hbr].
  pose proof (rect_orbit ext a wf i Hi) as [Hol Hor].
  pose proof (rect_released ext a wf i Hi) as [Hrl Hrr].
  unfold release_step. cbn [mbind lift emit mret fst snd].
  (* the massive bodies *)
  match goal with
  | |- match ?X with Ok _ => _ | Raise _ => _ | Undefined => _ end = _ =>
      assert (X = Ok (nth i (nbody_w_of ext a) []
                      ++ drop (nbodies_of a) (buffer_after ext a i))) as ->
  end.
  { destruct (wf_orbits _ _ wf) as [Hlen _].
    destruct (lookup_lt_is_Some_2 (nbody_w_of ext a) i) as [m Hm]; [lia|].
    etransitivity.
    { apply (copy_rows (fun j k => get3 (nbody_w_of ext a) (Z.of_nat i) j k)
               (buffer_after ext a i) 0 (Z.of_nat (nbodies_of a))
               (nth i (nbody_w_of ext a) [])); try done; try lia.
      intros j k row x Hrow Hx.
      rewrite (nth_lookup_Some _ _ [] _ Hm) in Hrow, Hor, Hol.
      apply (get3_Ok _ _ _ _ m row); rewrite ?Nat2Z.id; try done.
      + lia.
      + apply lookup_lt_Some in Hrow. lia.
      + eapply row_index; [|exact Hx]. exact (Forall_lookup_1 _ _ _ _ Hor Hrow). }
    rewrite Z.add_0_l, Nat2Z.id. done. }
  cbv beta iota.
  (* the count of the step *)
  rewrite (at_index_Ok _ _ (Z.of_nat (released_at a i)));
    [|lia|rewrite Nat2Z.id; by apply (nstream_lookup ext a wf)].
  cbv beta iota.
  (* the particles released at this step *)
  match goal with
  | |- match ?X with Ok _ => _ | Raise _ => _ | Undefined => _ end = _ =>
      assert (X = Ok (seeded ext a (buffer_after ext a i) i)) as ->
  end.
  { destruct (wf_stream_w0 _ _ wf) as (Hsl & Hsm & Hsr).
    rewrite (copy_rows
               (fun j k => get2 (c_stream_w0 a) (Z.of_nat (released_before a i) + j) k)
               _ (Z.of_nat (nbodies_of a)) (Z.of_nat (released_at a i))
               (take (released_at a i) (drop (released_before a i) (c_stream_w0 a))));
      try done; try lia.
    - unfold seeded. f_equal.
      rewrite Nat2Z.id, take_app_length' by done. f_equal. f_equal.
      rewrite drop_app_ge by lia. rewrite drop_drop. f_equal. lia.
    - rewrite length_app, length_drop. lia.
    - rewrite length_app, length_drop. lia.
    - apply Forall_app. split; [done|by apply Forall_drop].
    - intros j k row x Hrow Hx.
      apply lookup_take_Some in Hrow as [Hrow Hj].
      rewrite lookup_drop in Hrow.
      apply (get2_Ok _ _ _ row).
      + apply lookup_lt_Some in Hrow. lia.
      + by replace (Z.to_nat (Z.of_nat (released_before a i) + Z.of_nat j))
          with (released_before a i + j)%nat by lia.
      + eapply row_index; [|exact Hx]. exact (Forall_lookup_1 _ _ _ _ Hsr Hrow).
      + by rewrite Nat2Z.id. }
  cbv beta iota.
  (* the release time and the number of orbits *)
  destruct (lookup_lt_is_Some_2 (c_stream_t1 a) i) as [t1 Ht1];
    [rewrite (wf_release_times _ _ wf); lia|].
  unfold get1. rewrite (at_index_Ok _ _ t1); [|lia|by rewrite Nat2Z.id].
  cbv beta iota.
  unfold int_add at 1.
  replace (in_int (Z.of_nat (nbodies_of a) + Z.of_nat (released_at a i))) with true.
  2:{ symmetry. unfold in_int. apply andb_true_iff.
      split; apply Z.leb_le; unfold INT_MIN; lia. }
  cbv beta iota.
  replace (to_unsigned (Z.of_nat (nbodies_of a) + Z.of_nat (released_at a i)))
    with (Z.of_nat (nbodies_of a + released_at a i)).
  2:{ unfold to_unsigned. rewrite Z.mod_small; unfold INT_MAX in *; lia. }
  rewrite <- (nth_lookup_Some _ _ 0%float _ Ht1).
  change (dop853_step ext _ _ _ _ _ _ _ _ _ _ _ _) with (stepped ext a (buffer_after ext a i) i).
  change (stepped ext a (buffer_after ext a i) i) with (buffer_after ext a (S i)).
  (* the final states *)
  pose proof (rect_buffer_after ext a wf (S i) ltac:(lia)) as [Hsl Hsr].
  pose proof (rect_w_final_after ext a wf i ltac:(lia)) as [Hfl Hfr].
  pose proof (rect_all_final_states ext a wf i ltac:(lia)) as [Hal _].
  pose proof (rect_w_final_initial ext a wf) as [Hil _].
  pose proof (rect_final_states ext a wf i Hi) as [Hnl Hnr].
  match goal with
  | |- match ?X with Ok _ => _ | Raise _ => _ | Undefined => _ end = _ =>
      assert (X = Ok (w_final_after ext a (S i))) as ->
  end.
  { rewrite (copy_rows
               (fun j k => get2 (buffer_after ext a (S i)) (Z.of_nat (nbodies_of a) + j) k)
               _ (Z.of_nat (nbodies_of a) + Z.of_nat (released_before a i))
               (Z.of_nat (released_at a i)) (final_states ext a i));
      try done; try lia.
    - f_equal. unfold w_final_after.
      set (P := take (nbodies_of a) (w_final_initial ext a)).
      set (F := flat_map (final_states ext a) (seq 0 i)).
      assert (length (P ++ F) = (nbodies_of a + released_before a i)%nat) as HPF
        by (unfold P, F; rewrite length_app, length_take; lia).
      rewrite !(app_assoc P F).
      rewrite take_app_length' by lia.
      rewrite drop_app_ge by lia. rewrite drop_drop.
      rewrite seq_S, flat_map_app. simpl. rewrite app_nil_r.
      fold F. rewrite <- !app_assoc. f_equal. f_equal. f_equal. f_equal.
      rewrite (released_before_S ext a wf) by done. lia.
    - intros j k row x Hrow Hx. unfold final_states in Hrow.
      apply lookup_take_Some in Hrow as [Hrow Hj].
      rewrite lookup_drop in Hrow.
      apply (get2_Ok _ _ _ row).
      + apply lookup_lt_Some in Hrow. lia.
      + by replace (Z.to_nat (Z.of_nat (nbodies_of a) + Z.of_nat j))
          with (nbodies_of a + j)%nat by lia.
      + eapply row_index; [|exact Hx]. exact (Forall_lookup_1 _ _ _ _ Hsr Hrow).
      + by rewrite Nat2Z.id. }
  cbv beta iota.
  (* the poll *)
  unfold PyErr_CheckSignals, mbind, lift, mret.
  rewrite filter_app, length_app. simpl.
  rewrite Nat.add_0_r, <- app_assoc. simpl.
  unfold step_events.
  destruct (pending_signal ext _); [done|].
  unfold int_add.
  replace (in_int (Z.of_nat (released_before a i) + Z.of_nat (released_at a i)))
    with true.
  2:{ symmetry. unfold in_int. apply andb_true_iff.
      split; apply Z.leb_le; unfold INT_MIN; lia. }
  rewrite (released_before_S ext a wf) by done.
  rewrite !Nat2Z.inj_add. reflexivity.
Qed.

End Step.

(** ** The driver: the loop and the whole run *)

Lemma for_eachM_app {St : Type} (l1 l2 : list Z) (body : Z -> St -> M St) (s : St)
    (tr : list event) :
  for_eachM (l1 ++ l2) body s tr
  = (s' <~ for_eachM l1 body s ;; for_eachM l2 body s') tr.
Proof.
  revert s tr. induction l1 as [|i l1 IH]; intros s tr; simpl; [done|].
  unfold mbind. destruct (body i s tr) as [tr' [s'| |]]; [|done..].
  rewrite IH. reflexivity.
Qed.

Lemma polls_upto (ext : externals) (a : call) (m : nat) :
  length (filter (fun e => is_poll e = true) (events_upto ext a m)) = m.
Proof.
  unfold events_upto. rewrite filter_cons_False by (simpl; discriminate).
  induction m as [|m IH]; [done|].
  rewrite seq_S, flat_map_app, filter_app, length_app, IH. simpl. lia.
Qed.

Section Loop.

Variables (ext : externals) (a : call).
Hypothesis wf : well_formed ext a.

Local Abbreviation body :=
  (release_step ext (H_potential (c_nbody a)) (H_frame (c_nbody a))
     (table_of_call ext a) (nbody_w_of ext a) (Z.of_nat (nbodies_of a))
     (c_stream_w0 a) (c_stream_t1 a) (c_nstream a) (t2_of a) (dt0_of a)
     (c_atol a) (c_rtol a) (c_nmax a)).

Local Abbreviation start := (w_tmp_initial ext a, w_final_initial ext a, 0).

Lemma w_final_after_0 : w_final_after ext a 0 = w_final_initial ext a.
Proof using Type.
  unfold w_final_after, released_before. simpl.
  rewrite Nat.add_0_r. apply take_drop.
Qed.

Lemma release_loop (m : nat) :
  (m <= ntimes_of a)%nat -> no_signal ext m ->
  for_rangeM (Z.of_nat m) body start [first_event a]
  = (events_upto ext a m,
     Ok (buffer_after ext a m, w_final_after ext a m,
         Z.of_nat (released_before a m))).
Proof using wf.
  induction m as [|m IH]; intros Hm Hquiet.
  - unfold for_rangeM. simpl. unfold mret. by rewrite w_final_after_0.
  - unfold for_rangeM in *.
    replace (Z.of_nat (S m)) with (Z.of_nat m + 1) by lia.
    rewrite range_succ, for_eachM_app by lia.
    unfold mbind at 1. rewrite IH; [|lia|intros p Hp; apply Hquiet; lia].
    simpl. unfold mbind, mret.
    rewrite (release_step_spec ext a wf) by lia.
    rewrite polls_upto, Hquiet by lia.
    unfold events_upto. rewrite seq_S, flat_map_app. simpl.
    reflexivity.
Qed.

Lemma release_loop_interrupted (p : nat) :
  (p < ntimes_of a)%nat -> no_signal ext p -> pending_signal ext p = true ->
  for_rangeM (Z.of_nat (ntimes_of a)) body start [first_event a]
  = (events_upto ext a (S p), Raise KeyboardInterrupt).
Proof using wf.
  intros Hp Hquiet Hsig. unfold for_rangeM.
  rewrite (range_split (Z.of_nat p)), range_from_cons by lia.
  rewrite for_eachM_app. unfold mbind at 1.
  pose proof (release_loop p ltac:(lia) Hquiet) as E. unfold for_rangeM in E.
  rewrite E. simpl. unfold mbind at 1.
  rewrite (release_step_spec ext a wf) by lia.
  rewrite polls_upto, Hsig.
  unfold events_upto. rewrite seq_S, flat_map_app. simpl.
  reflexivity.
Qed.

End Loop.

Section Run.

Variables (ext : externals) (a : call).
Hypothesis wf : well_formed ext a.

Lemma run_unfold :
  run ext a
  = (st <~ for_rangeM (Z.of_nat (ntimes_of a))
             (release_step ext (H_potential (c_nbody a)) (H_frame (c_nbody a))
                (table_of_call ext a) (nbody_w_of ext a) (Z.of_nat (nbodies_of a))
                (c_stream_w0 a) (c_stream_t1 a) (c_nstream a) (t2_of a) (dt0_of a)
                (c_atol a) (c_rtol a) (c_nmax a))
             (w_tmp_initial ext a, w_final_initial ext a, 0) ;;
     w_final <~ lift (for_range (Z.of_nat (nbodies_of a)) (fun j w_final =>
                  for_range 6 (fun k w_final =>
                    v <- get2 (fst (fst st)) j k ;; set2 w_final j k v) w_final)
                  (snd (fst st))) ;;
     mret w_final) [first_event a].
Proof using wf.
  destruct (wf_times _ _ wf) as [Hnt2 Hnt].
  destruct (wf_counts _ _ wf) as [Hcl Hcp].
  destruct (sizes_fit ext a wf) as [Hfit_final Hfit_tmp].
  destruct (released_before_total ext a wf 0) as [_ Htotal].
  unfold run, mockstream_dop853.
  unfold shape0. fold (ntimes_of a). fold (nbodies_of a).
  rewrite int_of_ssize_id by (unfold INT_MIN; lia).
  destruct (lookup_lt_is_Some_2 (c_time a) 0) as [time_0 H0]; [unfold ntimes_of in *; lia|].
  destruct (lookup_lt_is_Some_2 (c_time a) 1) as [time_1 H1]; [unfold ntimes_of in *; lia|].
  destruct (lookup_lt_is_Some_2 (c_time a) (ntimes_of a - 1)) as [t2 H2];
    [unfold ntimes_of in *; lia|].
  unfold get1.
  rewrite (at_index_Ok _ _ time_1) by (done || unfold INT_MAX; lia).
  rewrite (at_index_Ok _ _ time_0) by (done || unfold INT_MAX; lia).
  rewrite (at_index_Ok _ _ t2);
    [|lia|by replace (Z.to_nat (Z.of_nat (ntimes_of a) - 1)) with (ntimes_of a - 1)%nat by lia].
  cbn [mbind lift emit mret].
  unfold to_c_int.
  replace (in_int (Z.of_nat (nbodies_of a))) with true
    by (symmetry; unfold in_int; apply andb_true_iff;
        split; apply Z.leb_le; unfold INT_MIN; lia).
  rewrite np_max_nonneg; [|intros E; rewrite E in Hcl; simpl in Hcl; lia|done].
  cbn [obind].
  replace (foldr Z.max 0 (c_nstream a)) with (Z.of_nat (max_nstream_of a))
    by (unfold max_nstream_of; pose proof (max_nonneg (c_nstream a)); lia).
  replace (in_int (Z.of_nat (max_nstream_of a))) with true
    by (symmetry; unfold in_int; apply andb_true_iff;
        split; apply Z.leb_le; unfold INT_MIN; lia).
  rewrite <- Htotal.
  replace (in_int (Z.of_nat (released_before a (ntimes_of a)))) with true
    by (symmetry; unfold in_int; apply andb_true_iff;
        split; apply Z.leb_le; unfold INT_MIN; lia).
  cbn [mbind lift emit mret].
  unfold int_add.
  replace (in_int (Z.of_nat (nbodies_of a) + Z.of_nat (max_nstream_of a))) with true
    by (symmetry; unfold in_int; apply andb_true_iff;
        split; apply Z.leb_le; unfold INT_MIN; lia).
  cbn [mbind lift emit mret].
  unfold np_empty at 1.
  rewrite <- !Nat2Z.inj_add.
  replace (Z.of_nat (nbodies_of a + max_nstream_of a) <? 0) with false
    by (symmetry; apply Z.ltb_ge; lia).
  cbn [orb Z.ltb Z.compare mbind lift emit mret].
  rewrite !Nat2Z.inj_add.
  replace (in_int (Z.of_nat (nbodies_of a) + Z.of_nat (released_before a (ntimes_of a))))
    with true
    by (symmetry; unfold in_int; apply andb_true_iff;
        split; apply Z.leb_le; unfold INT_MIN; lia).
  cbn [mbind lift emit mret].
  unfold np_empty, np_empty3_check.
  rewrite <- !Nat2Z.inj_add.
  repeat match goal with
  | |- context [Z.of_nat ?n <? 0] =>
      replace (Z.of_nat n <? 0) with false by (symmetry; apply Z.ltb_ge; lia)
  end.
  cbn [orb Z.ltb Z.compare].
  rewrite !Nat2Z.inj_add.
  rewrite set_particle_potentials_Ok; [|apply (wf_potentials _ _ wf)|apply (wf_table _ _ wf)].
  rewrite <- !Nat2Z.inj_add, !Nat2Z.id.
  change (Z.to_nat 6) with 6%nat.
  unfold t2_of, dt0_of.
  rewrite (nth_lookup_Some _ _ 0%float _ H0), (nth_lookup_Some _ _ 0%float _ H1),
    (nth_lookup_Some _ _ 0%float _ H2).
  unfold w_final_initial. rewrite Hcl.
  reflexivity.
Qed.

Lemma final_copy :
  for_range (Z.of_nat (nbodies_of a)) (fun j w_final =>
    for_range 6 (fun k w_final =>
      v <- get2 (buffer_after ext a (ntimes_of a)) j k ;; set2 w_final j k v) w_final)
    (w_final_after ext a (ntimes_of a))
  = Ok (expected_output ext a).
Proof using wf.
  destruct (sizes_fit ext a wf) as [Hfit_final Hfit_tmp].
  pose proof (rect_buffer_after ext a wf (ntimes_of a) ltac:(lia)) as [Hbl Hbr].
  pose proof (rect_w_final_after ext a wf (ntimes_of a) ltac:(lia)) as [Hfl Hfr].
  pose proof (rect_all_final_states ext a wf (ntimes_of a) ltac:(lia)) as [Hal _].
  pose proof (rect_w_final_initial ext a wf) as [Hil _].
  etransitivity.
  { apply (copy_rows (fun j k => get2 (buffer_after ext a (ntimes_of a)) j k)
             (w_final_after ext a (ntimes_of a)) 0 (Z.of_nat (nbodies_of a))
             (take (nbodies_of a) (buffer_after ext a (ntimes_of a))));
      try done; try lia.
    - rewrite length_take. lia.
    - by apply Forall_take.
    - intros j k row x Hrow Hx.
      apply lookup_take_Some in Hrow as [Hrow Hj].
      apply (get2_Ok _ _ _ row); rewrite ?Nat2Z.id; try done.
      + lia.
      + eapply row_index; [|exact Hx]. exact (Forall_lookup_1 _ _ _ _ Hbr Hrow). }
  rewrite Z.add_0_l, Nat2Z.id. simpl. f_equal. unfold expected_output. f_equal.
  unfold w_final_after.
  rewrite drop_app_ge; rewrite length_take; [|lia].
  replace (nbodies_of a - nbodies_of a `min` length (w_final_initial ext a))%nat
    with 0%nat by lia.
  rewrite drop_0, (drop_ge (w_final_initial ext a)) by lia.
  apply app_nil_r.
Qed.

Lemma run_quiet :
  no_signal ext (ntimes_of a) ->
  run ext a = (events_upto ext a (ntimes_of a), Ok (expected_output ext a)).
Proof using wf.
  intros Hquiet. rewrite run_unfold. unfold mbind at 1.
  rewrite (release_loop ext a wf) by (done || lia).
  cbn [mbind lift mret fst snd]. by rewrite final_copy.
Qed.

Lemma run_interrupted (p : nat) :
  (p < ntimes_of a)%nat -> no_signal ext p -> pending_signal ext p = true ->
  run ext a = (events_upto ext a (S p), Raise KeyboardInterrupt).
Proof using wf.
  intros Hp Hquiet Hsig. rewrite run_unfold. unfold mbind at 1.
  by rewrite (release_loop_interrupted ext a wf p).
Qed.

End Run.

(** ** The driver: what a run does *)

Lemma first_signal (ext : externals) (m : nat) :
  no_signal ext m
  \/ exists p, (p < m)%nat /\ no_signal ext p /\ pending_signal ext p = true.
Proof.
  induction m as [|m [IH|(p & Hp & Hq & Hs)]].
  - left. intros p Hp. lia.
  - destruct (pending_signal ext m) eqn:Hs.
    + right. exists m. split; [lia|done].
    + left. intros p Hp. destruct (decide (p = m)) as [->|]; [done|]. apply IH. lia.
  - right. exists p. split; [lia|done].
Qed.

Lemma step_events_lookup (ext : externals) (a : call) (m i : nat) :
  (i < m)%nat ->
  events_upto ext a m !! (1 + 2 * i)%nat
  = Some (Step (seeded ext a (buffer_after ext a i) i) (nth i (c_stream_t1 a) 0%float)
            (t2_of a) (dt0_of a) (Z.of_nat (nbodies_of a + released_at a i))).
Proof.
  intros Hi. unfold events_upto. simpl.
  induction m as [|m IH]; [lia|].
  assert (length (flat_map (step_events ext a) (seq 0 m)) = (2 * m)%nat) as Hlen.
  { clear. induction m as [|m IH]; [done|].
    rewrite seq_S, flat_map_app, length_app, IH. simpl. lia. }
  rewrite seq_S, flat_map_app. simpl.
  destruct (decide (i = m)) as [->|Hne].
  - rewrite lookup_app_r by lia.
    by replace (m + (m + 0) - length (flat_map (step_events ext a) (seq 0 m)))%nat
      with 0%nat by lia.
  - rewrite lookup_app_l by lia. apply IH. lia.
Qed.

(** C2. For a well-formed call that no signal interrupts, the driver
    returns one array of [nbodies + sum(nstream)] rows of six numbers: its
    first [nbodies] rows are the first rows of the working buffer as the
    last stepping call left it (they are copied after the loop), and they
    are followed, in the order of release, by the final states of the
    particles released at each step.  When every count is zero the array
    has [nbodies] rows. *)
Theorem driver_output (ext : externals) (a : call) :
  well_formed ext a -> no_signal ext (ntimes_of a) ->
  exists out,
    snd (run ext a) = Ok out
    /\ out = take (nbodies_of a) (buffer_after ext a (ntimes_of a))
             ++ flat_map (final_states ext a) (seq 0 (ntimes_of a))
    /\ Z.of_nat (length out) = Z.of_nat (nbodies_of a) + np_sum (c_nstream a)
    /\ Forall (fun row => length row = 6%nat) out
    /\ (forall i, (i < ntimes_of a)%nat ->
          take (released_at a i) (drop (nbodies_of a + released_before a i) out)
          = final_states ext a i)
    /\ (Forall (fun c => c = 0) (c_nstream a) -> length out = nbodies_of a).
Proof.
  intros wf Hquiet. exists (expected_output ext a).
  pose proof (rect_buffer_after ext a wf (ntimes_of a) ltac:(lia)) as [Hbl Hbr].
  pose proof (rect_all_final_states ext a wf (ntimes_of a) ltac:(lia)) as [Hal Har].
  destruct (released_before_total ext a wf 0) as [_ Htotal].
  assert (length (expected_output ext a)
          = (nbodies_of a + released_before a (ntimes_of a))%nat) as Hlen.
  { unfold expected_output. rewrite length_app, length_take. lia. }
  split; [by rewrite (run_quiet ext a wf Hquiet)|].
  split; [done|]. split; [lia|]. split.
  { unfold expected_output. apply Forall_app. split; [by apply Forall_take|done]. }
  split.
  - intros i Hi. unfold expected_output.
    rewrite drop_app_ge; rewrite length_take; [|lia].
    replace (nbodies_of a + released_before a i
             - nbodies_of a `min` length (buffer_after ext a (ntimes_of a)))%nat
      with (released_before a i) by lia.
    pose proof (rect_all_final_states ext a wf i ltac:(lia)) as [Hil _].
    pose proof (rect_final_states ext a wf i Hi) as [Hfl _].
    assert (seq 0 (ntimes_of a) = seq 0 i ++ i :: seq (S i) (ntimes_of a - S i))
      as ->.
    { replace (ntimes_of a) with (i + S (ntimes_of a - S i))%nat at 1 by lia.
      by rewrite seq_app. }
    rewrite flat_map_app. rewrite drop_app_length' by done.
    simpl. by rewrite take_app_length'.
  - intros Hzero. rewrite Hlen.
    assert (np_sum (c_nstream a) = 0) as Hsum
      by (clear -Hzero; induction Hzero as [|c l -> _ IH]; simpl; [done|exact IH]).
    lia.
Qed.

(** ** The driver: the examples *)

Lemma rect_drift (w : array2) (t1 t2 : float) (norbits : Z) (n : nat) :
  rect n w -> rect n (drift w t1 t2 norbits).
Proof.
  intros [Hl Hr]. unfold drift. split.
  - rewrite length_app, length_map, length_take, length_drop. lia.
  - apply Forall_app. split; [|by apply Forall_drop].
    apply Forall_forall. intros row Hrow.
    apply list_elem_of_In, in_map_iff in Hrow as (row' & <- & Hin).
    rewrite length_map.
    apply list_elem_of_In in Hin.
    exact (proj1 (Forall_forall _ _) (Forall_take _ _ _ Hr) _ Hin).
Qed.

Lemma toy_well_formed (signal : nat -> bool) :
  well_formed (toy_externals signal) (toy_call [1; 2]%float [2; 1]).
Proof.
  split.
  - vm_compute. split; [lia|discriminate].
  - split; [reflexivity|]. repeat constructor; lia.
  - reflexivity.
  - split; [vm_compute; lia|]. split; [vm_compute; discriminate|].
    repeat constructor.
  - vm_compute. lia.
  - vm_compute. lia.
  - vm_compute. discriminate.
  - split; [reflexivity|]. repeat constructor.
  - intros. simpl. by apply rect_drift.
Qed.

Lemma driver_output_witness :
  snd (run (toy_externals never) (toy_call [1; 2]%float [2; 1]))
  = Ok [[2; 2; 2; 2; 2; 2]; [11; 11; 11; 11; 11; 11];
        [21; 21; 21; 21; 21; 21]; [30; 30; 30; 30; 30; 30]]%float.
Proof.
  destruct (driver_output (toy_externals never) (toy_call [1; 2]%float [2; 1]))
    as (out & E & -> & _); [apply toy_well_formed|intros p _; reflexivity|].
  rewrite E. vm_compute. reflexivity.
Defined.

(** C1, as stated, fails.  With one massive body and the counts [2; 1],
    the stepping call of step [1] (the event of index [3], after the first
    phase, the call of step [0] and its poll) is made for [2] orbits: the
    massive body and the particle released at step [1], which has
    overwritten the first particle of step [0] in the buffer.  The second
    particle of step [0] is still in the buffer, below the rows that are
    advanced.  The massive body and all the particles released so far would
    be [4] orbits. *)
Lemma second_step_advances_new_particles_only :
  fst (run (toy_externals never) (toy_call [1; 2]%float [2; 1])) !! 3%nat
  = Some (Step [[2; 2; 2; 2; 2; 2]; [30; 30; 30; 30; 30; 30];
                [21; 21; 21; 21; 21; 21]]%float 2 2 1 2)
  /\ Z.of_nat (nbodies_of (toy_call [1; 2]%float [2; 1]))
     + np_sum (take 2 (c_nstream (toy_call [1; 2]%float [2; 1]))) = 4.
Proof. split; vm_compute; reflexivity. Qed.

(** C1, amended.  At every step [i] that the run reaches, the stepping
    call is made from the release time of the step to the final time, for
    [nbodies + nstream[i]] orbits: the first rows of the working buffer,
    which hold the massive bodies as recorded at time [i] followed by the
    particles released at step [i] alone.  The rows below them are what
    the earlier steps left there. *)
Theorem step_advances_current_release (ext : externals) (a : call) (i : nat) :
  well_formed ext a -> (i < ntimes_of a)%nat -> no_signal ext i ->
  exists w,
    fst (run ext a) !! (1 + 2 * i)%nat
    = Some (Step w (nth i (c_stream_t1 a) 0%float) (t2_of a) (dt0_of a)
              (Z.of_nat (nbodies_of a) + nth i (c_nstream a) 0))
    /\ take (nbodies_of a + released_at a i) w
       = nth i (nbody_w_of ext a) []
         ++ take (released_at a i) (drop (released_before a i) (c_stream_w0 a))
    /\ drop (nbodies_of a + released_at a i) w
       = drop (nbodies_of a + released_at a i) (buffer_after ext a i).
Proof.
  intros wf Hi Hquiet. exists (seeded ext a (buffer_after ext a i) i).
  pose proof (rect_orbit ext a wf i Hi) as [Hol _].
  pose proof (rect_released ext a wf i Hi) as [Hrl _].
  assert (Z.of_nat (nbodies_of a) + nth i (c_nstream a) 0
          = Z.of_nat (nbodies_of a + released_at a i)) as ->.
  { pose proof (nstream_lookup ext a wf i Hi) as Hc.
    rewrite (nth_lookup_Some _ _ 0 _ Hc). lia. }
  split; [|split].
  - destruct (first_signal ext (ntimes_of a)) as [Hall|(p & Hp & Hq & Hs)].
    + rewrite (run_quiet ext a wf Hall). simpl fst. by apply step_events_lookup.
    + rewrite (run_interrupted ext a wf p Hp Hq Hs). simpl fst.
      apply step_events_lookup.
      destruct (decide (i <= p)%nat) as [|Hlt]; [lia|].
      rewrite Hquiet in Hs by lia. discriminate.
  - unfold seeded. rewrite app_assoc.
    apply take_app_length'. rewrite length_app. lia.
  - unfold seeded. rewrite app_assoc.
    rewrite drop_app_length'; [done|]. rewrite length_app. lia.
Qed.

Lemma step_advances_current_release_witness :
  exists w,
    fst (run (toy_externals never) (toy_call [1; 2]%float [2; 1])) !! 3%nat
    = Some (Step w 2 2 1 2)
    /\ take 2 w = [[2; 2; 2; 2; 2; 2]; [30; 30; 30; 30; 30; 30]]%float.
Proof.
  destruct (step_advances_current_release (toy_externals never)
              (toy_call [1; 2]%float [2; 1]) 1)
    as (w & E & Ht & _);
    [apply toy_well_formed|vm_compute; lia|intros p _; reflexivity|].
  exists w. split; [exact E|exact Ht].
Defined.

(** C7.  In every run of a well-formed call the events after the first
    phase are a stepping call followed by a poll, once for each step that is
    reached: a poll comes after each stepping call and before the next one.
    When no handler raises, every step is reached and the run returns.
    At the first poll where a handler raises, the run ends with the
    exception of the handler, here [KeyboardInterrupt], which is not the
    [ValueError] of bad data; no later step is made. *)
Theorem signals_polled_between_steps (ext : externals) (a : call) :
  well_formed ext a ->
  exists m,
    (m <= ntimes_of a)%nat
    /\ fst (run ext a)
       = first_event a
         :: flat_map (fun i =>
              [Step (seeded ext a (buffer_after ext a i) i)
                 (nth i (c_stream_t1 a) 0%float) (t2_of a) (dt0_of a)
                 (Z.of_nat (nbodies_of a + released_at a i));
               CheckSignals]) (seq 0 m)
    /\ ((no_signal ext (ntimes_of a) /\ m = ntimes_of a
         /\ exists out, snd (run ext a) = Ok out)
        \/ (exists p, (p < ntimes_of a)%nat /\ no_signal ext p
              /\ pending_signal ext p = true /\ m = S p
              /\ snd (run ext a) = Raise KeyboardInterrupt
              /\ forall msg, snd (run ext a) <> Raise (ValueError msg))).
Proof.
  intros wf.
  destruct (first_signal ext (ntimes_of a)) as [Hall|(p & Hp & Hq & Hs)].
  - exists (ntimes_of a). rewrite (run_quiet ext a wf Hall).
    split; [done|]. split; [done|]. left. eauto.
  - exists (S p). rewrite (run_interrupted ext a wf p Hp Hq Hs).
    split; [lia|]. split; [done|]. right. exists p. simpl. by repeat split.
Qed.

Lemma signals_polled_between_steps_witness :
  run (toy_externals (Nat.eqb 0)) (toy_call [1; 2]%float [2; 1])
  = ([SaveAll [[0; 0; 0; 0; 0; 0]]%float [1; 2]%float 1 2;
      Step [[1; 1; 1; 1; 1; 1]; [10; 10; 10; 10; 10; 10];
            [20; 20; 20; 20; 20; 20]]%float 1 2 1 3;
      CheckSignals],
     Raise KeyboardInterrupt).
Proof.
  destruct (signals_polled_between_steps (toy_externals (Nat.eqb 0))
              (toy_call [1; 2]%float [2; 1]) (toy_well_formed _))
    as (m & _ & Etr & [(Hall & _)|(p & _ & _ & _ & _ & Eout & _)]).
  - specialize (Hall 0%nat ltac:(vm_compute; lia)). discriminate.
  - reflexivity.
Defined.




(** * Further properties of the potentials *)

(** ** Loops, once more *)

Lemma for_each_ext {St : Type} (l : list Z) (body1 body2 : Z -> St -> outcome St) (s : St) :
  (forall i s, body1 i s = body2 i s) ->
  for_each l body1 s = for_each l body2 s.
Proof.
  intros H. revert s. induction l as [|i l IH]; intros s; simpl; [done|].
  rewrite H. destruct (body2 i s); simpl; auto.
Qed.

Lemma range_from_0 (n : Z) : range_from 0 n = range n.
Proof.
  unfold range_from. rewrite Z.sub_0_r. rewrite <- (map_id (range n)) at 2.
  apply map_ext. intros j. lia.
Qed.

Lemma range_from_nil (m n : Z) : n <= m -> range_from m n = [].
Proof. intros H. unfold range_from. by rewrite range_nonpos by lia. Qed.

(** The first iteration of a loop that has one. *)
Lemma for_range_first {St : Type} (n : Z) (body : Z -> St -> outcome St) (s : St) :
  0 < n ->
  for_range n body s = (s' <- body 0 s ;; for_each (range_from 1 n) body s').
Proof.
  intros Hn. unfold for_range. rewrite <- range_from_0.
  rewrite range_from_cons by lia. reflexivity.
Qed.

(** What holds of the state when a loop comes to its end. *)
Lemma for_range_post {St : Type} (P : Z -> St -> Prop) (n : Z)
    (body : Z -> St -> outcome St) (s s' : St) :
  0 <= n ->
  P 0 s ->
  (forall i s s1, 0 <= i < n -> P i s -> body i s = Ok s1 -> P (i + 1) s1) ->
  for_range n body s = Ok s' -> P n s'.
Proof.
  intros Hn H0 Hstep.
  assert (forall m : nat, Z.of_nat m <= n ->
            forall s', for_range (Z.of_nat m) body s = Ok s' -> P (Z.of_nat m) s') as Hm.
  { induction m as [|m IH]; intros Hle s1 E.
    - rewrite for_range_nonpos in E by done. by injection E as <-.
    - replace (Z.of_nat (S m)) with (Z.of_nat m + 1) in * by lia.
      rewrite for_range_succ in E by lia.
      destruct (for_range (Z.of_nat m) body s) as [s0| |] eqn:E0; try discriminate.
      simpl in E. apply (Hstep _ s0); [lia| |done]. apply IH; [lia|done]. }
  intros E. rewrite <- (Z2Nat.id n) in * by done. apply Hm; [lia|done].
Qed.

(** ** The estimate of one row *)

Lemma base_mass_row (v : array2 -> Z -> outcome float) (q eps : array2)
    (Gee : float) (k : Z) (row : array1) :
  0 <= k <= INT_MAX -> q !! Z.to_nat k = Some row -> scratch eps ->
  Base._mass_enclosed v q eps Gee k = row_estimate v Gee row.
Proof.
  intros Hk Hrow (e0 & e1 & e2 & ->). unfold Base._mass_enclosed, get2.
  rewrite !(at_index_Ok _ _ row) by done.
  destruct row as [|x [|y [|z rest]]]; reflexivity.
Qed.

Lemma row_estimate_Ok (v : array2 -> Z -> outcome float) (Gee : float)
    (row : array1) (m : float) (eps : array2) :
  row_estimate v Gee row = Ok (m, eps) ->
  scratch eps /\ exists x, m = PrimFloat.abs (x / Gee / (2 * 0.01))%float.
Proof.
  destruct row as [|x [|y [|z rest]]]; try discriminate. simpl.
  destruct (v _ 0) as [v1| |]; try discriminate. simpl.
  destruct (v _ 0) as [v2| |]; try discriminate. simpl.
  intros E. injection E as <- <-. split; [by repeat eexists|]. by eexists.
Qed.

Lemma each_row_app {A B : Type} (f : A -> outcome B) (l1 l2 : list A) :
  each_row f (l1 ++ l2)
  = (ys1 <- each_row f l1 ;; ys2 <- each_row f l2 ;; Ok (ys1 ++ ys2)).
Proof.
  induction l1 as [|x l1 IH]; simpl.
  - by destruct (each_row f l2).
  - destruct (f x) as [y| |]; simpl; [|done..]. rewrite IH.
    destruct (each_row f l1) as [ys1| |]; simpl; [|done..].
    by destruct (each_row f l2).
Qed.

Lemma each_row_Ok {A B : Type} (f : A -> outcome B) (l : list A) (ys : list B) :
  each_row f l = Ok ys -> Forall2 (fun x y => f x = Ok y) l ys.
Proof.
  revert ys. induction l as [|x l IH]; intros ys; simpl.
  - intros E. injection E as <-. constructor.
  - destruct (f x) as [y| |] eqn:Ey; try discriminate. simpl.
    destruct (each_row f l) as [ys'| |]; try discriminate. simpl.
    intros E. injection E as <-. constructor; [done|]. by apply IH.
Qed.

(** ** The batch loop of [mass_enclosed] *)

Lemma mass_loop (p : _CPotential) (v : array2 -> Z -> outcome float) (g : float)
    (q : array2) (suffix : array2) :
  _mass_enclosed p = Base._mass_enclosed v -> G_attr p = Some g ->
  Z.of_nat (length q) <= INT_MAX ->
  forall (prefix : array2) (done : array1) (eps : array2),
    q = prefix ++ suffix -> length done = length prefix -> scratch eps ->
    (st <- for_each (range_from (Z.of_nat (length prefix)) (Z.of_nat (length q)))
             (fun k (st : array2 * array1) =>
                Gee <- getattr_G p ;;
                r <- _mass_enclosed p q (fst st) Gee k ;;
                mass <- set1 (snd st) k (fst r) ;;
                Ok (snd r, mass))
             (eps, done ++ replicate (length suffix) 0%float) ;;
     Ok (snd st))
    = (ys <- each_row (fun row => r <- row_estimate v g row ;; Ok (fst r)) suffix ;;
       Ok (done ++ ys)).
Proof.
  intros Hhook HG Hmax. unfold getattr_G, set1. rewrite Hhook, HG.
  induction suffix as [|row suffix IH]; intros prefix done eps Hq Hdone Heps.
  - subst q. rewrite app_nil_r. rewrite range_from_nil by lia. reflexivity.
  - assert (length q = length prefix + S (length suffix))%nat as Hlen
      by (subst q; rewrite length_app; simpl; lia).
    rewrite range_from_cons by lia. cbn [for_each obind].
    rewrite (base_mass_row _ _ _ _ _ row); [|lia| |done].
    2:{ subst q. rewrite Nat2Z.id. by apply list_lookup_middle. }
    cbn [fst snd each_row].
    destruct (row_estimate v g row) as [[m eps']| |] eqn:Erow; [|done..].
    destruct (row_estimate_Ok _ _ _ _ _ Erow) as [Heps' _].
    cbn [obind fst snd].
    rewrite put_index_Ok;
      [|lia|rewrite length_app, length_replicate; simpl; lia].
    cbn [obind].
    rewrite Nat2Z.id, insert_app_r_alt by lia.
    rewrite Hdone, Nat.sub_diag. simpl.
    specialize (IH (prefix ++ [row]) (done ++ [m]) eps').
    replace (Z.of_nat (length prefix) + 1) with (Z.of_nat (length (prefix ++ [row])))
      by (rewrite length_app; simpl; lia).
    rewrite <- !app_assoc in IH. simpl in IH.
    rewrite IH; [|done|rewrite !length_app; simpl; lia|done].
    destruct (each_row _ suffix); simpl; [by rewrite <- app_assoc|done..].
Qed.

Lemma mass_enclosed_rows (p : _CPotential) (v : array2 -> Z -> outcome float)
    (g : float) (q : array2) :
  _mass_enclosed p = Base._mass_enclosed v -> G_attr p = Some g ->
  shape0 q <= INT_MAX ->
  mass_enclosed p q
  = each_row (fun row => r <- row_estimate v g row ;; Ok (fst r)) q.
Proof.
  intros Hhook HG Hq. unfold mass_enclosed.
  rewrite int_of_ssize_id by (unfold INT_MIN, shape0 in *; lia).
  unfold np_zeros1.
  replace (shape0 q <? 0) with false by (symmetry; apply Z.ltb_ge; unfold shape0; lia).
  cbn [np_zeros2 orb Z.ltb Z.compare obind]. unfold shape0 in *. rewrite Nat2Z.id.
  unfold for_range. rewrite <- range_from_0.
  etransitivity.
  { apply (mass_loop p v g q q Hhook HG Hq [] [] _ eq_refl eq_refl).
    by repeat eexists. }
  by destruct (each_row _ q).
Qed.

(** ** Floats: what a division by zero leaves *)

Lemma abs_not_negative (x : float) : (PrimFloat.abs x <? 0)%float = false.
Proof.
  rewrite ltb_spec, abs_spec. change (Prim2SF 0) with (S754_zero false).
  destruct (Prim2SF x) as [s|s| |s m e]; reflexivity.
Qed.

Lemma div_zero (x : float) :
  (x / 0)%float = infinity \/ (x / 0)%float = neg_infinity \/ (x / 0)%float = nan.
Proof.
  assert (Prim2SF (x / 0) = Prim2SF infinity
          \/ Prim2SF (x / 0) = Prim2SF neg_infinity
          \/ Prim2SF (x / 0) = Prim2SF nan) as H.
  { rewrite div_spec. change (Prim2SF 0) with (S754_zero false).
    destruct (Prim2SF x) as [s|s| |s m e]; simpl; try (destruct s; auto); auto. }
  destruct H as [H|[H|H]]; apply Prim2SF_inj in H; auto.
Qed.

Lemma estimate_without_G (x : float) :
  not_finite (PrimFloat.abs (x / 0 / (2 * 0.01))%float).
Proof.
  destruct (div_zero x) as [->|[->| ->]]; [left|left|right]; reflexivity.
Qed.

Lemma add_not_finite (acc t : float) :
  acc = 0%float \/ not_finite acc -> not_finite t -> not_finite (acc + t)%float.
Proof.
  intros [->|[->| ->]] [->| ->]; try (left; reflexivity); right; reflexivity.
Qed.

(** ** The composite without [G] *)

Lemma children_without_G (q : array2) (k : Z) (row : array1) (ps : list _CPotential) :
  0 <= k <= INT_MAX -> q !! Z.to_nat k = Some row ->
  Forall (fun p => exists v, _mass_enclosed p = Base._mass_enclosed v) ps ->
  forall (acc : float) (eps : array2) (m : float) (eps' : array2),
    scratch eps -> acc = 0%float \/ not_finite acc ->
    fold_children (fun p (st : float * array2) =>
        r <- _mass_enclosed p q (snd st) 0%float k ;;
        Ok ((fst st + fst r)%float, snd r)) ps (acc, eps)
    = Ok (m, eps') ->
    scratch eps' /\ (ps = [] /\ m = acc \/ not_finite m).
Proof.
  intros Hk Hrow Hps. induction Hps as [|p ps [v Hp] _ IH]; intros acc eps m eps' Heps Hacc.
  - simpl. intros E. injection E as <- <-. split; [done|by left].
  - simpl. rewrite Hp, (base_mass_row _ _ _ _ _ row) by done.
    destruct (row_estimate v 0 row) as [[mi eps1]| |] eqn:Erow; try discriminate.
    destruct (row_estimate_Ok _ _ _ _ _ Erow) as [Heps1 [x ->]].
    simpl. intros E.
    assert (not_finite (acc + PrimFloat.abs (x / 0 / (2 * 0.01)))%float) as Hnew
      by (apply add_not_finite; [done|apply estimate_without_G]).
    destruct (IH _ _ _ _ Heps1 (or_intror Hnew) E) as [Heps' [[_ ->]|Hm]];
      (split; [done|by right]).
Qed.

Lemma mass_enclosed_Ok_inv (self : c_object) (q : array2) (ms : array1) :
  CPotential.mass_enclosed self q = Ok ms ->
  exists m, attr_mass_enclosed self = Some m /\ m q = Ok ms.
Proof.
  unfold CPotential.mass_enclosed.
  destruct (attr_mass_enclosed self) as [m|]; simpl; [|discriminate].
  intros E. exists m. split; [done|].
  destruct (m q) as [x|[]|]; simpl in E; done.
Qed.

Lemma fresh_composite_mass (ps : list _CPotential) (q : array2) (ms : array1) :
  (length ps <= OBJ_LIST_SIZE)%nat -> ps <> [] ->
  Forall (fun p => exists v, _mass_enclosed p = Base._mass_enclosed v) ps ->
  shape0 q <= INT_MAX ->
  mass_enclosed (composite_instance (composite_of ps 0%float)) q = Ok ms ->
  Forall not_finite ms.
Proof.
  intros Hfew Hne Hps Hq. unfold mass_enclosed.
  rewrite int_of_ssize_id by (unfold INT_MIN, shape0 in *; lia).
  unfold np_zeros1.
  replace (shape0 q <? 0) with false by (symmetry; apply Z.ltb_ge; unfold shape0; lia).
  cbn [np_zeros2 orb Z.ltb Z.compare obind]. unfold shape0 in *. rewrite Nat2Z.id.
  destruct (for_range _ _ _) as [[eps ms']| |] eqn:E; try discriminate.
  simpl. intros Ems. injection Ems as ->.
  apply (for_range_post
    (fun k (st : array2 * array1) =>
       scratch (fst st)
       /\ exists done, snd st = done ++ replicate (length q - Z.to_nat k) 0%float
            /\ length done = Z.to_nat k /\ Forall not_finite done)) in E; [|lia| |].
  - destruct E as (_ & done & Hms & Hlen & Hall).
    simpl in Hms. rewrite Nat2Z.id, Nat.sub_diag in Hms. simpl in Hms.
    rewrite app_nil_r in Hms. by subst.
  - split; [by repeat eexists|]. exists []. simpl. by rewrite Nat.sub_0_r.
  - clear E. intros k [e buf] [m1 e1] Hk [He (done & Hbuf & Hlen & Hall)] E.
    simpl in He, Hbuf. subst buf. cbn [getattr_G composite_instance G_attr composite_of G obind
      fst snd _mass_enclosed] in E.
    unfold Composite._mass_enclosed in E.
    rewrite (composite_loop _ ps (fun p (st : float * array2) =>
        r <- _mass_enclosed p q (snd st) 0%float k ;;
        Ok ((fst st + fst r)%float, snd r))) in E by done.
    destruct (lookup_lt_is_Some_2 q (Z.to_nat k)) as [row Hrow]; [lia|].
    destruct (fold_children _ ps _) as [[m e']| |] eqn:Efold; try discriminate.
    destruct (children_without_G q k row ps ltac:(lia) Hrow Hps _ _ _ _ He (or_introl eq_refl) Efold)
      as [He' [[Hnil _]|Hm]]; [done|].
    cbn [obind fst snd] in E. unfold set1 in E.
    rewrite put_index_Ok in E;
      [|lia|rewrite length_app, length_replicate; lia].
    cbn [obind] in E. injection E as <- <-. split; [done|].
    exists (done ++ [m]). simpl. split; [|split].
    + rewrite insert_app_r_alt by lia. rewrite Hlen, Nat.sub_diag.
      replace (length q - Z.to_nat k)%nat with (S (length q - Z.to_nat (k + 1))) by lia.
      simpl. by rewrite <- app_assoc.
    + rewrite length_app. simpl. lia.
    + apply Forall_app. split; [done|]. by constructor.
Qed.

(** ** What [mass_enclosed] returns *)

(** X1. [mass_enclosed] of a class that inherits [_mass_enclosed] works on
    the rows of the batch one after the other: the estimate of a row is
    computed from this row alone, whatever the scratch row was left with,
    and the call fails as the first failing row does.  So a batch can be
    split: the estimates of [q1 ++ q2] are those of [q1] followed by those
    of [q2]. *)
Theorem mass_enclosed_row_by_row (p : _CPotential) (v : array2 -> Z -> outcome float)
    (g : float) (q : array2) :
  _mass_enclosed p = Base._mass_enclosed v -> G_attr p = Some g ->
  shape0 q <= INT_MAX ->
  mass_enclosed p q
  = each_row (fun row => r <- row_estimate v g row ;; Ok (fst r)) q
  /\ forall q1 q2, q = q1 ++ q2 ->
       mass_enclosed p q
       = (m1 <- mass_enclosed p q1 ;; m2 <- mass_enclosed p q2 ;; Ok (m1 ++ m2)).
Proof.
  intros Hhook HG Hq. split; [by apply mass_enclosed_rows|].
  intros q1 q2 ->. unfold shape0 in Hq. rewrite length_app in Hq.
  rewrite !(mass_enclosed_rows p v g) by (done || unfold shape0; rewrite ?length_app; lia).
  apply each_row_app.
Qed.

Lemma mass_enclosed_row_by_row_witness :
  mass_enclosed point_mass three_points
  = each_row (fun row => r <- row_estimate point_mass_value 1%float row ;; Ok (fst r))
      three_points
  /\ mass_enclosed point_mass three_points
     = (m1 <- mass_enclosed point_mass [[1; 0; 0]]%float ;;
        m2 <- mass_enclosed point_mass [[0; 2; 0]; [0; 0; 4]]%float ;;
        Ok (m1 ++ m2)).
Proof.
  destruct (mass_enclosed_row_by_row point_mass point_mass_value 1%float three_points)
    as [E1 E2]; [reflexivity|reflexivity|vm_compute; discriminate|].
  split; [exact E1|]. apply (E2 [[1; 0; 0]]%float). reflexivity.
Defined.

(** X2. No estimate that [mass_enclosed] returns is negative: each one is an
    absolute value (it may be not a number). *)
Theorem mass_estimate_never_negative (p : _CPotential)
    (v : array2 -> Z -> outcome float) (g : float) (q : array2) (ms : array1) :
  _mass_enclosed p = Base._mass_enclosed v -> G_attr p = Some g ->
  shape0 q <= INT_MAX ->
  mass_enclosed p q = Ok ms ->
  length ms = length q /\ Forall (fun m => (m <? 0)%float = false) ms.
Proof.
  intros Hhook HG Hq E. rewrite (mass_enclosed_rows p v g) in E by done.
  apply each_row_Ok in E. split; [symmetry; by eapply Forall2_length|].
  induction E as [|row m q ms Hrow _ IH]; constructor; [|apply IH; unfold shape0 in *; simpl in Hq; lia].
  destruct (row_estimate v g row) as [[m' eps]| |] eqn:Erow; try discriminate.
  simpl in Hrow. injection Hrow as ->.
  destruct (row_estimate_Ok _ _ _ _ _ Erow) as [_ [x ->]]. apply abs_not_negative.
Qed.

Lemma mass_estimate_never_negative_witness :
  exists ms, mass_enclosed point_mass three_points = Ok ms
    /\ length ms = 3%nat /\ Forall (fun m => (m <? 0)%float = false) ms.
Proof.
  eexists. split; [vm_compute; reflexivity|].
  apply (mass_estimate_never_negative point_mass point_mass_value 1%float three_points);
    [reflexivity|reflexivity|vm_compute; discriminate|vm_compute; reflexivity].
Defined.

(** X3. The Python class [CCompositePotential] builds its composite and
    never sets its [G], which is [0.] in the fresh object.  [mass_enclosed]
    hands this [G] to the children, whose estimates divide by it: with at
    least one child, each of a class that inherits [_mass_enclosed], no
    estimate that is returned is a finite number. *)
Theorem composite_mass_needs_G (ps : list _CPotential) (self : c_object)
    (q : array2) (ms : array1) :
  CCompositePotential.__init__ ps = Ok self -> ps <> [] ->
  Forall (fun p => exists v, _mass_enclosed p = Base._mass_enclosed v) ps ->
  shape0 q <= INT_MAX ->
  CPotential.mass_enclosed self q = Ok ms ->
  Forall not_finite ms.
Proof.
  intros Hinit Hne Hps Hq E. unfold CCompositePotential.__init__ in Hinit.
  destruct (Composite.__init__ ps) as [c| |] eqn:Hc; try discriminate.
  simpl in Hinit. injection Hinit as <-.
  apply mass_enclosed_Ok_inv in E as (m & Hm & E). simpl in Hm. injection Hm as <-.
  pose proof (built_few _ _ Hc) as Hfew.
  rewrite (built_eq _ _ Hc) in E.
  by apply (fresh_composite_mass ps q).
Qed.

Lemma composite_mass_needs_G_witness :
  exists self, CCompositePotential.__init__ [point_mass; point_mass] = Ok self
    /\ CPotential.mass_enclosed self three_points = Ok [infinity; infinity; infinity]
    /\ Forall not_finite [infinity; infinity; infinity].
Proof.
  eexists. split; [reflexivity|]. split; [vm_compute; reflexivity|].
  eapply (composite_mass_needs_G [point_mass; point_mass] _ three_points).
  - reflexivity.
  - discriminate.
  - repeat constructor; by exists point_mass_value.
  - vm_compute. discriminate.
  - vm_compute. reflexivity.
Defined.

(** ** A composite among the children of a composite *)

(** The hook of a composite is the pass over its children. *)
Lemma composite_hook {St : Type} (ps : list _CPotential) (c : _CCompositePotential)
    (f : _CPotential -> St -> outcome St) (s : St) :
  Composite.__init__ ps = Ok c ->
  for_range (ninstances c) (fun i s => p <- obj_at c i ;; f p s) s
  = fold_children f ps s.
Proof.
  intros built. pose proof (built_few _ _ built) as Hfew.
  apply composite_loop; [| |done]; by rewrite (built_eq _ _ built).
Qed.

Lemma nested_pass {St : Type} (f : _CPotential -> St -> outcome St)
    (ps0 ps1 ps2 : list _CPotential) (inner : _CPotential) (s : St) :
  (forall s, f inner s = fold_children f ps1 s) ->
  fold_children f (ps0 ++ inner :: ps2) s = fold_children f (ps0 ++ ps1 ++ ps2) s.
Proof.
  intros Hinner. rewrite !fold_children_app. simpl.
  destruct (fold_children f ps0 s) as [s0| |]; simpl; [|done..].
  by rewrite Hinner, fold_children_app.
Qed.

Lemma gradient_ext (p1 p2 : _CPotential) (q : array2) :
  (forall grad k, _gradient p1 q grad k = _gradient p2 q grad k) ->
  gradient p1 q = gradient p2 q.
Proof.
  intros H. unfold gradient. destruct (np_zeros2 _ _); simpl; [|done..].
  by apply for_each_ext.
Qed.

Lemma hessian_ext (p1 p2 : _CPotential) (q : array2) :
  (forall hess k, _hessian p1 q hess k = _hessian p2 q hess k) ->
  hessian p1 q = hessian p2 q.
Proof.
  intros H. unfold hessian. destruct (np_zeros3 _ _ _); simpl; [|done..].
  by apply for_each_ext.
Qed.

(** X4. A composite can be a child of a composite, and for the gradient
    and the Hessian this is the same as listing its children in its place:
    the hooks of all the leaves run in the same order on the same buffer. *)
Theorem nested_composite_flattens (ps0 ps1 ps2 : list _CPotential)
    (inner outer flat : _CCompositePotential) (q : array2) :
  Composite.__init__ ps1 = Ok inner ->
  Composite.__init__ (ps0 ++ composite_instance inner :: ps2) = Ok outer ->
  Composite.__init__ (ps0 ++ ps1 ++ ps2) = Ok flat ->
  CPotential.gradient (c_object_of (composite_instance outer)) q
  = CPotential.gradient (c_object_of (composite_instance flat)) q
  /\ CPotential.hessian (c_object_of (composite_instance outer)) q
     = CPotential.hessian (c_object_of (composite_instance flat)) q
  /\ CPotential.acceleration (c_object_of (composite_instance outer)) q
     = CPotential.acceleration (c_object_of (composite_instance flat)) q.
Proof.
  intros Hinner Houter Hflat.
  assert (gradient (composite_instance outer) q = gradient (composite_instance flat) q)
    as Eg.
  { apply gradient_ext. intros grad k. simpl. unfold Composite._gradient.
    rewrite (composite_hook _ _ (fun p grad => _gradient p q grad k) grad Houter).
    rewrite (composite_hook _ _ (fun p grad => _gradient p q grad k) grad Hflat).
    apply nested_pass. intros s. simpl. unfold Composite._gradient.
    apply (composite_hook _ _ (fun p grad => _gradient p q grad k) s Hinner). }
  assert (hessian (composite_instance outer) q = hessian (composite_instance flat) q)
    as Eh.
  { apply hessian_ext. intros hess k. simpl. unfold Composite._hessian.
    rewrite (composite_hook _ _ (fun p hess => _hessian p q hess k) hess Houter).
    rewrite (composite_hook _ _ (fun p hess => _hessian p q hess k) hess Hflat).
    apply nested_pass. intros s. simpl. unfold Composite._hessian.
    apply (composite_hook _ _ (fun p hess => _hessian p q hess k) s Hinner). }
  unfold CPotential.gradient, CPotential.hessian, CPotential.acceleration. simpl.
  by rewrite Eg, Eh.
Qed.

Lemma nested_composite_flattens_witness :
  let inner := composite_of [uniform_field; uniform_field] 0%float in
  let outer := composite_of [uniform_field; composite_instance inner] 0%float in
  let flat := composite_of [uniform_field; uniform_field; uniform_field] 0%float in
  CPotential.gradient (c_object_of (composite_instance outer)) three_points
  = CPotential.gradient (c_object_of (composite_instance flat)) three_points
  /\ CPotential.gradient (c_object_of (composite_instance flat)) three_points
     = Ok (replicate 3 [3; 6; 9]%float).
Proof.
  intros inner outer flat. split; [|vm_compute; reflexivity].
  apply (proj1 (nested_composite_flattens [uniform_field] [uniform_field; uniform_field]
                  [] inner outer flat three_points eq_refl eq_refl eq_refl)).
Defined.

(** ** A class without [G] *)

(** X5. [mass_enclosed] looks [self.G] up inside its loop.  On an instance
    of a class without this attribute, the look-up fails at the first
    position and the Python class raises [ValueError] for every batch that
    is not empty; for the empty batch the loop is not entered and the empty
    array is returned. *)
Theorem mass_enclosed_without_G (p : _CPotential) (q : array2) :
  G_attr p = None ->
  CPotential.mass_enclosed (c_object_of p) [] = Ok []
  /\ (q <> [] -> shape0 q <= INT_MAX ->
      CPotential.mass_enclosed (c_object_of p) q
      = Raise (ValueError "Potential C instance has no defined mass_enclosed function")).
Proof.
  intros HG. split; [reflexivity|]. intros Hne Hq.
  unfold CPotential.mass_enclosed. simpl. unfold mass_enclosed.
  rewrite int_of_ssize_id by (unfold INT_MIN, shape0 in *; lia).
  unfold np_zeros1.
  replace (shape0 q <? 0) with false by (symmetry; apply Z.ltb_ge; unfold shape0; lia).
  cbn [np_zeros2 orb Z.ltb Z.compare obind].
  rewrite for_range_first by (unfold shape0; destruct q; [done|simpl; lia]).
  unfold getattr_G. rewrite HG. reflexivity.
Qed.

Lemma mass_enclosed_without_G_witness :
  CPotential.mass_enclosed (c_object_of base_instance) [] = Ok []
  /\ CPotential.mass_enclosed (c_object_of base_instance) three_points
     = Raise (ValueError "Potential C instance has no defined mass_enclosed function").
Proof.
  destruct (mass_enclosed_without_G base_instance three_points) as [E0 E1];
    [reflexivity|].
  split; [exact E0|]. apply E1; [discriminate|vm_compute; discriminate].
Defined.

(** ** The default hooks on a short batch *)

Lemma fill2_out {n d : nat} (i : Z) :
  Z.of_nat n <= i -> fill2 (zeros2 n d) i 0%float = Undefined.
Proof.
  intros Hi. unfold fill2, at_index.
  destruct ((0 <=? i) && (i <=? INT_MAX)); [|done].
  rewrite lookup_ge_None_2; [done|]. unfold zeros2. rewrite length_replicate. lia.
Qed.

Lemma fill3_out {n d e : nat} (i j : Z) :
  Z.of_nat n <= i -> fill3 (zeros3 n d e) i j 0%float = Undefined.
Proof.
  intros Hi. unfold fill3, at_index.
  destruct ((0 <=? i) && (i <=? INT_MAX)); [|done].
  rewrite lookup_ge_None_2; [done|]. unfold zeros3. rewrite length_replicate. lia.
Qed.

Lemma base_gradient_short (r : array2) (n d : nat) (k : Z) :
  (1 <= n < 3)%nat -> Base._gradient r (zeros2 n d) k = Undefined.
Proof.
  intros Hn. unfold Base._gradient.
  rewrite fill2_zeros by (unfold INT_MAX; lia). simpl.
  destruct (decide (n = 1%nat)) as [->|].
  - by rewrite fill2_out by lia.
  - rewrite fill2_zeros by (unfold INT_MAX; lia). simpl. by rewrite fill2_out by lia.
Qed.

Lemma hessian_line_zeros (n d : nat) (i : Z) :
  0 <= i <= INT_MAX -> (Z.to_nat i < n)%nat -> (3 <= d)%nat ->
  for_range 3 (fun j hess => fill3 hess i j 0%float) (zeros3 n d d)
  = Ok (zeros3 n d d).
Proof.
  intros Hi Hlt Hd.
  destruct (for_range_inv (fun _ h => h = zeros3 n d d) 3
    (fun j hess => fill3 hess i j 0%float)
    (zeros3 n d d)) as (h & E & ->); [lia|done| |done].
  intros j h Hj ->. exists (zeros3 n d d). split; [|done].
  apply fill3_zeros; unfold INT_MAX in *; lia.
Qed.

Lemma base_hessian_short (w : array2) (n d : nat) (k : Z) :
  (1 <= n < 3)%nat -> (3 <= d)%nat -> Base._hessian w (zeros3 n d d) k = Undefined.
Proof.
  intros Hn Hd. unfold Base._hessian.
  apply (for_range_fails 3 (Z.of_nat n) _ _ (zeros3 n d d)); [lia| |].
  - destruct (for_range_inv (fun _ h => h = zeros3 n d d) (Z.of_nat n)
      (fun i hess => for_range 3 (fun j hess => fill3 hess i j 0%float) hess)
      (zeros3 n d d)) as (h & E & ->); [lia|done| |done].
    intros i h Hi ->. exists (zeros3 n d d). split; [|done].
    apply hessian_line_zeros; unfold INT_MAX; lia.
  - rewrite for_range_first by lia. by rewrite fill3_out by lia.
Qed.

(** X6. The hooks [_gradient] and [_hessian] of [_CPotential] zero the rows
    [0], [1] and [2] of the buffer, whatever the position they are called
    for.  A batch of one or two positions has no such rows: through an
    instance that inherits the hook, the public operation writes outside
    the buffer, which is undefined behaviour and raises nothing.  The empty
    batch never calls the hook and returns the empty array. *)
Theorem default_hooks_need_three_rows (p : _CPotential) (q : array2) :
  (1 <= length q < 3)%nat -> 3 <= shape1 q <= INT_MAX ->
  (_gradient p = Base._gradient ->
     CPotential.gradient (c_object_of p) q = Undefined)
  /\ (_hessian p = Base._hessian ->
        CPotential.hessian (c_object_of p) q = Undefined)
  /\ CPotential.gradient (c_object_of p) [] = Ok []
  /\ CPotential.hessian (c_object_of p) [] = Ok [].
Proof.
  intros Hn Hd.
  assert (shape0 q <= INT_MAX) as Hq0 by (unfold shape0, INT_MAX; lia).
  destruct (zeros_batch q Hq0 (proj2 Hd)) as (E0 & E1 & _).
  split; [|split; [|split; reflexivity]]; intros Hhook.
  - unfold CPotential.gradient. simpl. unfold gradient. rewrite E0, E1.
    unfold np_zeros2.
    replace ((Z.of_nat (length q) <? 0) || (shape1 q <? 0)) with false
      by (symmetry; apply orb_false_iff; split; apply Z.ltb_ge; lia).
    simpl. rewrite Nat2Z.id, for_range_first by lia.
    rewrite Hhook.
    change (replicate (length q) (replicate (Z.to_nat (shape1 q)) 0%float))
      with (zeros2 (length q) (Z.to_nat (shape1 q))).
    by rewrite base_gradient_short.
  - unfold CPotential.hessian. simpl. unfold hessian. rewrite E0, E1.
    unfold np_zeros3.
    replace ((Z.of_nat (length q) <? 0) || (shape1 q <? 0) || (shape1 q <? 0)) with false.
    2:{ symmetry. rewrite !orb_false_iff. repeat split; apply Z.ltb_ge; lia. }
    simpl. rewrite Nat2Z.id, for_range_first by lia.
    rewrite Hhook.
    change (replicate (length q) (replicate (Z.to_nat (shape1 q))
              (replicate (Z.to_nat (shape1 q)) 0%float)))
      with (zeros3 (length q) (Z.to_nat (shape1 q)) (Z.to_nat (shape1 q))).
    rewrite base_hessian_short by lia. done.
Qed.

Lemma default_hooks_need_three_rows_witness :
  CPotential.gradient (c_object_of base_instance) [[1; 0; 0]; [0; 2; 0]]%float = Undefined
  /\ CPotential.hessian (c_object_of base_instance) [[1; 0; 0]; [0; 2; 0]]%float = Undefined.
Proof.
  destruct (default_hooks_need_three_rows base_instance [[1; 0; 0]; [0; 2; 0]]%float)
    as (Eg & Eh & _); [simpl; lia|vm_compute; split; discriminate|].
  split; [apply Eg; reflexivity|apply Eh; reflexivity].
Defined.

(** ** The other public operations *)

(** X7. [acceleration] is [gradient] followed by a change of sign of every
    entry: it returns the negated array when [gradient] returns one, and
    fails as [gradient] does otherwise, with the same [ValueError] when the
    attribute is missing. *)
Theorem acceleration_negates_gradient (c : c_object) (q : array2) :
  CPotential.acceleration c q
  = (g <- CPotential.gradient c q ;; Ok (map (map PrimFloat.opp) g)).
Proof.
  unfold CPotential.acceleration, CPotential.gradient.
  destruct (attr_gradient c) as [m|]; simpl; [|done].
  destruct (m q) as [g|[]|]; done.
Qed.

(** X8. What the Python class makes of an exception.  [value] has no
    [try]: without the attribute it raises [AttributeError].
    [acceleration] and [mass_enclosed] turn the missing attribute into a
    [ValueError], as [gradient] and [hessian] do.  The clause
    [except AttributeError,TypeError] catches [AttributeError] alone: any
    other exception raised by the method of the instance, [TypeError]
    included, goes through the five operations as it is. *)
Theorem wrapper_exceptions (c : c_object) (q : array2) :
  (attr_value c = None -> CPotential.value c q = Raise AttributeError)
  /\ (attr_gradient c = None ->
        CPotential.acceleration c q
        = Raise (ValueError "Potential C instance has no defined gradient function"))
  /\ (attr_mass_enclosed c = None ->
        CPotential.mass_enclosed c q
        = Raise (ValueError "Potential C instance has no defined mass_enclosed function"))
  /\ (forall e, e <> AttributeError ->
        (forall m, attr_value c = Some m ->
           m q (replicate (length q) 0%float) = Raise e ->
           CPotential.value c q = Raise e)
        /\ (forall m, attr_gradient c = Some m -> m q = Raise e ->
              CPotential.gradient c q = Raise e
              /\ CPotential.acceleration c q = Raise e)
        /\ (forall m, attr_hessian c = Some m -> m q = Raise e ->
              CPotential.hessian c q = Raise e)
        /\ (forall m, attr_mass_enclosed c = Some m -> m q = Raise e ->
              CPotential.mass_enclosed c q = Raise e)).
Proof.
  assert (np_zeros1 (shape0 q) = Ok (replicate (length q) 0%float)) as Ez.
  { unfold np_zeros1, shape0.
    replace (Z.of_nat (length q) <? 0) with false by (symmetry; apply Z.ltb_ge; lia).
    by rewrite Nat2Z.id. }
  split; [|split; [|split]].
  - intros E. unfold CPotential.value. by rewrite Ez, E.
  - intros E. unfold CPotential.acceleration. by rewrite E.
  - intros E. unfold CPotential.mass_enclosed. by rewrite E.
  - intros e He. split; [|split; [|split]].
    + intros m E1 E2. unfold CPotential.value. rewrite Ez, E1. simpl. exact E2.
    + intros m E1 E2. unfold CPotential.gradient, CPotential.acceleration.
      rewrite E1. simpl. rewrite E2. simpl. by destruct e.
    + intros m E1 E2. unfold CPotential.hessian. rewrite E1. simpl. rewrite E2.
      by destruct e.
    + intros m E1 E2. unfold CPotential.mass_enclosed. rewrite E1. simpl. rewrite E2.
      by destruct e.
Qed.

Lemma wrapper_exceptions_witness :
  CPotential.acceleration value_only_object three_points
  = Raise (ValueError "Potential C instance has no defined gradient function")
  /\ CPotential.mass_enclosed value_only_object three_points
     = Raise (ValueError "Potential C instance has no defined mass_enclosed function")
  /\ CPotential.gradient type_error_object three_points = Raise TypeError
  /\ CPotential.acceleration type_error_object three_points = Raise TypeError.
Proof.
  destruct (wrapper_exceptions value_only_object three_points) as (_ & Ea & Em & _).
  destruct (wrapper_exceptions type_error_object three_points) as (_ & _ & _ & Ht).
  destruct (Ht TypeError ltac:(discriminate)) as (_ & Hg & _).
  split; [apply Ea; reflexivity|]. split; [apply Em; reflexivity|].
  apply (Hg (fun _ => Raise TypeError)); reflexivity.
Defined.

(** ** The output array of [value] *)

Lemma value_loop (p : _CPotential) (q : array2) (pot : array1) (vs : Z -> float)
    (m : nat) :
  shape0 q <= INT_MAX ->
  (forall k, 0 <= k < shape0 q -> _value p q k = Ok (vs k)) ->
  (m <= length q)%nat -> (m <= length pot)%nat ->
  for_range (Z.of_nat m) (fun k pot => v <- _value p q k ;; set1 pot k v) pot
  = Ok (map vs (range (Z.of_nat m)) ++ drop m pot).
Proof.
  intros Hq Hv Hmq Hmp. unfold shape0 in *.
  destruct (for_range_inv
    (fun k s => s = map vs (range k) ++ drop (Z.to_nat k) pot)
    (Z.of_nat m) (fun k pot => v <- _value p q k ;; set1 pot k v) pot)
    as (s & E & ->); [lia|done| |by rewrite E, Nat2Z.id].
  intros k s Hk ->. rewrite Hv by lia. simpl. unfold set1.
  destruct (lookup_lt_is_Some_2 pot (Z.to_nat k)) as [old Hold]; [lia|].
  rewrite put_index_Ok;
    [|lia|rewrite length_app, length_map, range_length, length_drop; lia].
  eexists. split; [done|].
  rewrite insert_app_r_alt; rewrite length_map, range_length; [|lia].
  rewrite Nat.sub_diag, (drop_S _ _ _ Hold). simpl.
  rewrite range_succ, map_app by lia. simpl. rewrite <- app_assoc. simpl.
  by replace (Z.to_nat (k + 1)) with (S (Z.to_nat k)) by lia.
Qed.

(** X9. The [cpdef] method [value] writes into the array [pot] it is
    given: the value at position [k] into [pot[k]].  With a [pot] at least
    as long as the batch, the entries past the batch are left as they
    were; with a shorter one it writes past the end of [pot], which no
    check prevents. *)
Theorem value_writes_into_pot (p : _CPotential) (q : array2) (pot : array1)
    (vs : Z -> float) :
  shape0 q <= INT_MAX ->
  (forall k, 0 <= k < shape0 q -> _value p q k = Ok (vs k)) ->
  ((length q <= length pot)%nat ->
     value p q pot = Ok (map vs (range (shape0 q)) ++ drop (length q) pot))
  /\ ((length pot < length q)%nat -> value p q pot = Undefined)
  /\ CPotential.value (c_object_of p) q = Ok (map vs (range (shape0 q))).
Proof.
  intros Hq Hv.
  assert (forall pot, (length q <= length pot)%nat ->
            value p q pot = Ok (map vs (range (shape0 q)) ++ drop (length q) pot)) as Hfit.
  { intros pot' Hlen. unfold value.
    rewrite int_of_ssize_id by (unfold INT_MIN, shape0 in *; lia).
    by apply value_loop. }
  split; [apply Hfit|]. split.
  2:{ unfold CPotential.value, np_zeros1.
      replace (shape0 q <? 0) with false
        by (symmetry; apply Z.ltb_ge; unfold shape0; lia).
      simpl. rewrite Hfit by (unfold shape0; rewrite length_replicate; lia).
      unfold shape0 at 2. rewrite Nat2Z.id, drop_replicate, Nat.sub_diag.
      by rewrite app_nil_r. }
  unfold value.
  rewrite int_of_ssize_id by (unfold INT_MIN, shape0 in *; lia).
  intros Hlen.
  apply (for_range_fails _ (Z.of_nat (length pot)) _ _
           (map vs (range (Z.of_nat (length pot))) ++ drop (length pot) pot)).
  - unfold shape0. lia.
  - apply value_loop; [done|done|lia|lia].
  - rewrite Hv by (unfold shape0; lia). simpl. apply put_index_out.
    rewrite length_app, length_map, range_length, length_drop. lia.
Qed.

Lemma value_writes_into_pot_witness :
  value base_instance three_points [9; 9; 9; 9]%float = Ok [0; 0; 0; 9]%float
  /\ value base_instance three_points [9]%float = Undefined.
Proof.
  destruct (value_writes_into_pot base_instance three_points [9; 9; 9; 9]%float
              (fun _ => 0%float)) as [E _]; [vm_compute; discriminate|reflexivity|].
  destruct (value_writes_into_pot base_instance three_points [9]%float
              (fun _ => 0%float)) as (_ & E' & _); [vm_compute; discriminate|reflexivity|].
  split; [apply E; simpl; lia|apply E'; simpl; lia].
Defined.

(** ** A child that assigns, among children that add *)

Lemma range_lookup (n : Z) (j : nat) :
  (j < Z.to_nat n)%nat -> range n !! j = Some (Z.of_nat j).
Proof.
  intros Hj. unfold range.
  change (map Z.of_nat (seq 0 (Z.to_nat n))) with (Z.of_nat <$> seq 0 (Z.to_nat n)).
  rewrite list_lookup_fmap, lookup_seq_lt by done. done.
Qed.

Lemma foldl_vadd_length (d : nat) (row : array1) (gs : list array1) :
  length row = d -> Forall (fun g => length g = d) gs ->
  length (foldl vadd row gs) = d.
Proof.
  intros Hrow Hgs. revert row Hrow.
  induction Hgs as [|g gs Hg _ IH]; intros row Hrow; simpl; [done|].
  apply IH. unfold vadd. rewrite length_zip_with. lia.
Qed.

Lemma fill2_row (a : array2) (i : Z) (d : nat) :
  0 <= i <= INT_MAX -> (Z.to_nat i < length a)%nat ->
  Forall (fun row => length row = d) a ->
  fill2 a i 0%float = Ok (<[Z.to_nat i := zeros1 d]> a).
Proof.
  intros Hi Hlt Hall. unfold fill2.
  destruct (lookup_lt_is_Some_2 a (Z.to_nat i)) as [row Hrow]; [done|].
  rewrite (at_index_Ok _ _ row) by done. simpl.
  rewrite put_index_Ok by done.
  by rewrite (Forall_lookup_1 _ _ _ _ Hall Hrow).
Qed.

Lemma Forall_insert_row (a : array2) (i d : nat) (row : array1) :
  Forall (fun row => length row = d) a -> length row = d ->
  Forall (fun row => length row = d) (<[i := row]> a).
Proof. intros Ha Hrow. by apply Forall_insert. Qed.

(** The default hook zeroes the rows [0], [1] and [2]. *)
Lemma base_gradient_wipes (r a : array2) (d : nat) (k : Z) :
  (3 <= length a)%nat -> Forall (fun row => length row = d) a ->
  Base._gradient r a k
  = Ok (<[2%nat := zeros1 d]> (<[1%nat := zeros1 d]> (<[0%nat := zeros1 d]> a))).
Proof.
  intros Hlen Hall. unfold Base._gradient.
  assert (length (zeros1 d) = d) as Hz by (unfold zeros1; by rewrite length_replicate).
  rewrite (fill2_row _ _ d); [|unfold INT_MAX; lia|simpl; lia|done]. simpl.
  rewrite (fill2_row _ _ d);
    [|unfold INT_MAX; lia|rewrite length_insert; simpl; lia|by apply Forall_insert_row].
  simpl.
  rewrite (fill2_row _ _ d);
    [|unfold INT_MAX; lia|rewrite !length_insert; simpl; lia
     |by repeat apply Forall_insert_row].
  reflexivity.
Qed.

Lemma erased_rows (d n : nat) (gs : list (Z -> array1)) (k : Z) (j : nat) :
  0 <= k <= Z.of_nat n -> (j < 3)%nat -> (j < n)%nat ->
  (map (erased_gradient d gs) (range k) ++ replicate (n - Z.to_nat k) (zeros1 d)) !! j
  = Some (zeros1 d).
Proof.
  intros Hk Hj Hn.
  destruct (decide (j < Z.to_nat k)%nat) as [Hlt|Hge].
  - rewrite lookup_app_l by (rewrite length_map, range_length; lia).
    change (map ?f ?l) with (f <$> l).
    rewrite list_lookup_fmap, range_lookup by done. simpl.
    unfold erased_gradient. by rewrite (proj2 (Z.ltb_lt _ _)) by lia.
  - rewrite lookup_app_r; rewrite length_map, range_length; [|lia].
    apply lookup_replicate_2. lia.
Qed.

Lemma erase_step (d n : nat) (gs : list (Z -> array1)) (k : Z) :
  (3 <= n)%nat -> 0 <= k < Z.of_nat n ->
  let buf := map (erased_gradient d gs) (range k)
             ++ replicate (n - Z.to_nat k) (zeros1 d) in
  <[2%nat := zeros1 d]> (<[1%nat := zeros1 d]> (<[0%nat := zeros1 d]>
    (<[Z.to_nat k := foldl vadd (zeros1 d) (map (fun g => g k) gs)]> buf)))
  = <[Z.to_nat k := erased_gradient d gs k]> buf.
Proof.
  intros Hn Hk buf.
  assert (length buf = n) as Hlen
    by (unfold buf; rewrite length_app, length_map, range_length, length_replicate; lia).
  assert (forall j, (j < 3)%nat -> buf !! j = Some (zeros1 d)) as Hlow
    by (intros j Hj; apply erased_rows; lia).
  apply list_eq. intros j.
  destruct (decide (j < 3)%nat) as [Hj|Hj].
  - transitivity (Some (zeros1 d)).
    + assert (j = 0 \/ j = 1 \/ j = 2)%nat as [->|[->| ->]] by lia.
      * rewrite list_lookup_insert_ne, list_lookup_insert_ne by done.
        apply list_lookup_insert_eq. rewrite length_insert. lia.
      * rewrite list_lookup_insert_ne by done.
        apply list_lookup_insert_eq. rewrite !length_insert. lia.
      * apply list_lookup_insert_eq. rewrite !length_insert. lia.
    + symmetry. destruct (decide (j = Z.to_nat k)) as [->|Hne].
      * rewrite list_lookup_insert_eq by lia. unfold erased_gradient.
        by rewrite (proj2 (Z.ltb_lt _ _)) by lia.
      * rewrite list_lookup_insert_ne by done. by apply Hlow.
  - rewrite !list_lookup_insert_ne by lia.
    destruct (decide (j = Z.to_nat k)) as [->|Hne]; [|by rewrite !list_lookup_insert_ne by done].
    destruct (decide (Z.to_nat k < n)%nat); [|lia].
    rewrite !list_lookup_insert_eq by lia. unfold erased_gradient.
    by rewrite (proj2 (Z.ltb_ge _ _)) by lia.
Qed.

Lemma erased_gradient_length (d : nat) (gs : list (Z -> array1)) (k : Z) :
  Forall (fun g => forall k, length (g k) = d) gs ->
  length (erased_gradient d gs k) = d.
Proof.
  intros Hgs. unfold erased_gradient.
  assert (length (zeros1 d) = d) as Hz by (unfold zeros1; by rewrite length_replicate).
  destruct (k <? 3); [done|]. apply foldl_vadd_length; [done|].
  apply Forall_forall. intros row Hrow.
  apply list_elem_of_In, in_map_iff in Hrow as (g & <- & Hin).
  apply list_elem_of_In in Hin. exact (proj1 (Forall_forall _ _) Hgs g Hin k).
Qed.

(** X16. The children of a composite work on one buffer, and a hook that
    assigns undoes what was added before it.  With a last child that
    inherits [_gradient], which zeroes the rows [0], [1] and [2] at every
    position, and other children that add their gradients, the composite's
    gradient is zero at the first three positions and the sum of the other
    children's gradients at every later one. *)
Theorem default_child_erases_three_rows (ps : list _CPotential) (last : _CPotential)
    (c : _CCompositePotential) (q : array2) (gs : list (Z -> array1)) :
  let d := Z.to_nat (shape1 q) in
  Composite.__init__ (ps ++ [last]) = Ok c ->
  _gradient last = Base._gradient ->
  (3 <= length q)%nat -> shape0 q <= INT_MAX -> shape1 q <= INT_MAX ->
  Forall2 (adds_gradient q d) ps gs ->
  Forall (fun g => forall k, length (g k) = d) gs ->
  CPotential.gradient (c_object_of (composite_instance c)) q
  = Ok (map (erased_gradient d gs) (range (shape0 q))).
Proof.
  intros d Hbuilt Hlast Hn Hq0 Hq1 Hgs Hlen.
  assert (length (zeros1 d) = d) as Hz by (unfold zeros1; by rewrite length_replicate).
  unfold CPotential.gradient. simpl. unfold gradient.
  destruct (zeros_batch q Hq0 Hq1) as (-> & -> & Hd).
  unfold np_zeros2.
  replace ((Z.of_nat (length q) <? 0) || (shape1 q <? 0)) with false
    by (symmetry; apply orb_false_iff; split; apply Z.ltb_ge; lia).
  simpl. rewrite Nat2Z.id. fold d. unfold shape0.
  destruct (for_range_inv
    (fun k buf => buf = map (erased_gradient d gs) (range k)
                        ++ replicate (length q - Z.to_nat k) (zeros1 d))
    (Z.of_nat (length q))
    (fun k grad => Composite._gradient c q grad k)
    (replicate (length q) (replicate d 0%float))) as (buf & E & ->); [lia| | |].
  - simpl. by rewrite Nat.sub_0_r.
  - intros k buf Hk ->. eexists. split; [|by apply fill_step].
    set (buf := map (erased_gradient d gs) (range k)
                ++ replicate (length q - Z.to_nat k) (zeros1 d)).
    assert (length buf = length q) as Hbl
      by (unfold buf; rewrite length_app, length_map, range_length, length_replicate; lia).
    assert (Forall (fun row => length row = d) buf) as Hrows.
    { unfold buf. apply Forall_app. split.
      - apply Forall_forall. intros row Hrow.
        apply list_elem_of_In, in_map_iff in Hrow as (j & <- & _).
        by apply erased_gradient_length.
      - apply Forall_forall. intros row Hrow.
        by apply elem_of_replicate in Hrow as [-> _]. }
    unfold Composite._gradient.
    rewrite (composite_hook _ _ (fun p grad => _gradient p q grad k) buf Hbuilt).
    rewrite fold_children_app.
    rewrite (composite_gradient_row q d k ps gs buf (zeros1 d)); try done.
    + simpl. rewrite Hlast.
      rewrite (base_gradient_wipes _ _ d).
      * cbn [obind fold_children]. f_equal. apply (erase_step d (length q) gs k); lia.
      * rewrite length_insert. lia.
      * apply Forall_insert_row; [done|].
        apply foldl_vadd_length; [done|].
        apply Forall_forall. intros row Hrow.
        apply list_elem_of_In, in_map_iff in Hrow as (g & <- & Hin).
        apply list_elem_of_In in Hin. exact (proj1 (Forall_forall _ _) Hlen g Hin k).
    + eapply Forall_impl; [exact Hlen|]. intros g0 Hg0. apply Hg0.
    + unfold buf. rewrite lookup_app_r; rewrite length_map, range_length; [|lia].
      apply lookup_replicate_2. lia.
  - rewrite E. rewrite Nat2Z.id, Nat.sub_diag. simpl. by rewrite app_nil_r.
Qed.

Lemma default_child_erases_three_rows_witness :
  exists c,
    Composite.__init__ [uniform_field; uniform_field; base_instance] = Ok c
    /\ CPotential.gradient (c_object_of (composite_instance c))
         (three_points ++ [[1; 1; 1]; [2; 2; 2]]%float)
       = Ok [[0; 0; 0]; [0; 0; 0]; [0; 0; 0]; [2; 4; 6]; [2; 4; 6]]%float.
Proof.
  exists (composite_of [uniform_field; uniform_field; base_instance] 0%float).
  split; [reflexivity|].
  rewrite (default_child_erases_three_rows [uniform_field; uniform_field] base_instance
             _ _ [fun _ => [1; 2; 3]%float; fun _ => [1; 2; 3]%float]).
  - vm_compute. reflexivity.
  - reflexivity.
  - reflexivity.
  - simpl. lia.
  - vm_compute. discriminate.
  - vm_compute. discriminate.
  - repeat constructor; apply uniform_adds_gradient; vm_compute; discriminate.
  - repeat constructor.
Defined.

(** * Further properties of the driver *)

(** ** The driver: the contents of the fresh buffers *)

Lemma buffer_after_final_garbage (ext : externals) (g : nat -> nat -> float)
    (a : call) (i : nat) :
  buffer_after (with_final_garbage ext g) a i = buffer_after ext a i.
Proof.
  induction i as [|i IH]; [reflexivity|]. simpl. rewrite IH. reflexivity.
Qed.

Lemma events_final_garbage (ext : externals) (g : nat -> nat -> float)
    (a : call) (m : nat) :
  events_upto (with_final_garbage ext g) a m = events_upto ext a m.
Proof.
  unfold events_upto. f_equal. induction m as [|m IH]; [reflexivity|].
  rewrite !seq_S, !flat_map_app, IH. f_equal. simpl. unfold step_events.
  by rewrite buffer_after_final_garbage.
Qed.

Lemma output_final_garbage (ext : externals) (g : nat -> nat -> float) (a : call) :
  expected_output (with_final_garbage ext g) a = expected_output ext a.
Proof.
  unfold expected_output. rewrite buffer_after_final_garbage. f_equal.
  induction (ntimes_of a) as [|m IH]; [reflexivity|].
  rewrite !seq_S, !flat_map_app, IH. f_equal. simpl. unfold final_states.
  by rewrite (buffer_after_final_garbage ext g a (S m)).
Qed.

Lemma well_formed_final_garbage (ext : externals) (g : nat -> nat -> float) (a : call) :
  well_formed ext a -> well_formed (with_final_garbage ext g) a.
Proof. intros [H1 H2 H3 H4 H5 H6 H7 H8 H9]. by split. Qed.

(** X10. The driver returns no row of the output buffer as [np.empty] left
    it: whatever the fresh buffer held, a well-formed call has the same
    events and the same outcome. *)
Theorem output_rows_all_written (ext : externals) (g : nat -> nat -> float) (a : call) :
  well_formed ext a ->
  run (with_final_garbage ext g) a = run ext a.
Proof.
  intros wf. pose proof (well_formed_final_garbage ext g a wf) as wf'.
  destruct (first_signal ext (ntimes_of a)) as [Hall|(p & Hp & Hq & Hs)].
  - rewrite (run_quiet ext a wf Hall).
    rewrite (run_quiet _ a wf') by exact Hall.
    by rewrite events_final_garbage, output_final_garbage.
  - rewrite (run_interrupted ext a wf p Hp Hq Hs).
    rewrite (run_interrupted _ a wf' p Hp) by (exact Hq || exact Hs).
    by rewrite events_final_garbage.
Qed.

Lemma output_rows_all_written_witness :
  run (with_final_garbage (toy_externals never) (fun _ _ => 7%float))
    (toy_call [1; 2]%float [2; 1])
  = run (toy_externals never) (toy_call [1; 2]%float [2; 1]).
Proof.
  apply (output_rows_all_written (toy_externals never) (fun _ _ => 7%float)).
  apply toy_well_formed.
Defined.

(** ** The driver: each release on its own *)

Section Local.

Variables (ext : externals) (a : call).
Hypothesis wf : well_formed ext a.
Hypothesis loc : local_step ext.

Lemma rect_released_orbits (i : nat) :
  (i < ntimes_of a)%nat ->
  rect (nbodies_of a + released_at a i) (released_orbits ext a i).
Proof using wf.
  intros Hi. apply rect_app; [by apply (rect_orbit ext a wf)|by apply (rect_released ext a wf)].
Qed.

Lemma rect_advanced (i : nat) :
  (i < ntimes_of a)%nat -> rect (nbodies_of a + released_at a i) (advanced ext a i).
Proof using wf.
  intros Hi. apply (wf_step _ _ wf). by apply rect_released_orbits.
Qed.

Lemma stepped_local (w : array2) (i : nat) :
  (i < ntimes_of a)%nat ->
  stepped ext a w i
  = advanced ext a i ++ drop (nbodies_of a + released_at a i) w.
Proof using wf loc.
  intros Hi. unfold stepped. rewrite loc. rewrite Nat2Z.id.
  destruct (rect_released_orbits i Hi) as [Hlen _].
  unfold seeded. rewrite app_assoc. fold (released_orbits ext a i).
  rewrite take_app_length', drop_app_length' by done. done.
Qed.

Lemma final_states_local (i : nat) :
  (i < ntimes_of a)%nat ->
  final_states ext a i = drop (nbodies_of a) (advanced ext a i).
Proof using wf loc.
  intros Hi. unfold final_states. simpl. rewrite stepped_local by done.
  destruct (rect_advanced i Hi) as [Hlen _].
  rewrite drop_app_le by lia.
  rewrite take_app_length'; [done|]. rewrite length_drop. lia.
Qed.

Lemma all_final_states_local (m : nat) :
  (m <= ntimes_of a)%nat ->
  flat_map (final_states ext a) (seq 0 m)
  = flat_map (fun i => drop (nbodies_of a) (advanced ext a i)) (seq 0 m).
Proof using wf loc.
  induction m as [|m IH]; intros Hm; [done|].
  rewrite seq_S, !flat_map_app, IH by lia. simpl.
  by rewrite final_states_local by lia.
Qed.

Lemma expected_output_local :
  expected_output ext a
  = take (nbodies_of a) (advanced ext a (ntimes_of a - 1))
    ++ flat_map (fun i => drop (nbodies_of a) (advanced ext a i)) (seq 0 (ntimes_of a)).
Proof using wf loc.
  destruct (wf_times _ _ wf) as [Hnt _].
  unfold expected_output. rewrite all_final_states_local by done. f_equal.
  replace (ntimes_of a) with (S (ntimes_of a - 1)) at 1 by lia.
  simpl. rewrite stepped_local by lia.
  destruct (rect_advanced (ntimes_of a - 1) ltac:(lia)) as [Hlen _].
  by rewrite take_app_le by lia.
Qed.

End Local.

Lemma drift_local (signal : nat -> bool) : local_step (toy_externals signal).
Proof.
  intros cp cf w t1 t2 dt0 ndim norbits args atol rtol nmax. simpl. unfold drift.
  rewrite take_take, Nat.min_id.
  rewrite (drop_ge (take _ _)) by (rewrite length_take; lia).
  by rewrite app_nil_r.
Qed.

(** X11. When the stepping call works on the orbits it is told of and on
    nothing else, every release is integrated on its own: the final states
    of the particles released at step [i] are those of the run of the
    integrator on the massive bodies at time [i] and these particles
    alone, and the rows of the massive bodies are those of the last such
    run.  The output depends neither on the other releases nor on what
    [np.empty] left in the two buffers. *)
Theorem releases_are_independent (ext : externals) (a : call) :
  well_formed ext a -> local_step ext -> no_signal ext (ntimes_of a) ->
  snd (run ext a)
  = Ok (take (nbodies_of a) (advanced ext a (ntimes_of a - 1))
        ++ flat_map (fun i => drop (nbodies_of a) (advanced ext a i))
             (seq 0 (ntimes_of a))).
Proof.
  intros wf loc Hquiet. rewrite (run_quiet ext a wf Hquiet). simpl.
  by rewrite (expected_output_local ext a wf loc).
Qed.

Lemma releases_are_independent_witness :
  snd (run (toy_externals never) (toy_call [1; 2]%float [2; 1]))
  = Ok ([[2; 2; 2; 2; 2; 2]]
        ++ [[11; 11; 11; 11; 11; 11]; [21; 21; 21; 21; 21; 21]]
        ++ [[30; 30; 30; 30; 30; 30]])%float.
Proof.
  rewrite (releases_are_independent (toy_externals never) (toy_call [1; 2]%float [2; 1])
             (toy_well_formed never) (drift_local never)).
  - vm_compute. reflexivity.
  - intros p _. reflexivity.
Defined.

(** ** The driver: what stops a run before the first integration *)

Lemma times_read (time : array1) :
  (2 <= length time)%nat -> Z.of_nat (length time) <= INT_MAX ->
  get1 time 1 = Ok (nth 1 time 0%float)
  /\ get1 time 0 = Ok (nth 0 time 0%float)
  /\ get1 time (int_of_ssize (shape0 time) - 1) = Ok (nth (length time - 1) time 0%float).
Proof.
  intros Hn Hmax. unfold get1, shape0.
  rewrite int_of_ssize_id by (unfold INT_MIN; lia).
  destruct (lookup_lt_is_Some_2 time 0) as [x0 H0]; [lia|].
  destruct (lookup_lt_is_Some_2 time 1) as [x1 H1]; [lia|].
  destruct (lookup_lt_is_Some_2 time (length time - 1)) as [x2 H2]; [lia|].
  rewrite (nth_lookup_Some _ _ 0%float _ H0), (nth_lookup_Some _ _ 0%float _ H1),
    (nth_lookup_Some _ _ 0%float _ H2).
  split; [|split]; apply at_index_Ok; try done; try (unfold INT_MAX; lia).
  - lia.
  - by replace (Z.to_nat (Z.of_nat (length time) - 1)) with (length time - 1)%nat by lia.
Qed.

Lemma to_c_int_nat (n : nat) : Z.of_nat n <= INT_MAX -> to_c_int (Z.of_nat n) = Ok (Z.of_nat n).
Proof.
  intros H. unfold to_c_int, in_int.
  rewrite (proj2 (Z.leb_le _ _)) by (unfold INT_MIN; lia).
  by rewrite (proj2 (Z.leb_le _ _)) by done.
Qed.

Lemma max_le_sum (l : list Z) : Forall (fun c => 0 <= c) l -> foldr Z.max 0 l <= np_sum l.
Proof.
  induction 1 as [|c l Hc Hl IH]; simpl; [done|].
  pose proof (np_sum_nonneg l Hl). unfold np_sum in *. lia.
Qed.

(** X12. [np.max] has no value for an array without entries: with an empty
    array of counts the driver raises the [ValueError] of numpy, and the
    integrator is not called. *)
Theorem empty_counts_rejected (ext : externals) (a : call) :
  (2 <= ntimes_of a)%nat -> Z.of_nat (ntimes_of a) <= INT_MAX ->
  Z.of_nat (nbodies_of a) <= INT_MAX ->
  c_nstream a = [] ->
  run ext a
  = ([], Raise (ValueError
       "zero-size array to reduction operation maximum which has no identity")).
Proof.
  intros Hnt Hmax Hnb Hempty. unfold run, mockstream_dop853.
  destruct (times_read (c_time a) Hnt Hmax) as (E1 & E0 & E2).
  rewrite E1, E0, E2. cbn [mbind lift].
  unfold shape0. fold (nbodies_of a). rewrite to_c_int_nat by done.
  rewrite Hempty. reflexivity.
Qed.

Lemma empty_counts_rejected_witness :
  run (toy_externals never) (toy_call [1; 2]%float [])
  = ([], Raise (ValueError
       "zero-size array to reduction operation maximum which has no identity")).
Proof.
  apply empty_counts_rejected; [vm_compute; lia|vm_compute; discriminate
                                |vm_compute; discriminate|reflexivity].
Defined.

(** X13. The driver checks no count, but numpy refuses a negative number of
    rows: when the counts make [nbodies + max(nstream)] or
    [nbodies + sum(nstream)] negative, [np.empty] raises [ValueError], and
    the integrator is not called. *)
Theorem negative_buffer_size_rejected (ext : externals) (a : call) (mx : Z) :
  (2 <= ntimes_of a)%nat -> Z.of_nat (ntimes_of a) <= INT_MAX ->
  Z.of_nat (nbodies_of a) <= INT_MAX ->
  np_max (c_nstream a) = Ok mx -> in_int mx = true ->
  in_int (np_sum (c_nstream a)) = true ->
  in_int (Z.of_nat (nbodies_of a) + mx) = true ->
  in_int (Z.of_nat (nbodies_of a) + np_sum (c_nstream a)) = true ->
  Z.of_nat (nbodies_of a) + mx < 0
  \/ Z.of_nat (nbodies_of a) + np_sum (c_nstream a) < 0 ->
  run ext a = ([], Raise (ValueError "negative dimensions are not allowed")).
Proof.
  intros Hnt Hmax Hnb Hmx Hin1 Hin2 Hin3 Hin4 Hneg. unfold run, mockstream_dop853.
  destruct (times_read (c_time a) Hnt Hmax) as (E1 & E0 & E2).
  rewrite E1, E0, E2. cbn [mbind lift].
  unfold shape0. fold (nbodies_of a). rewrite to_c_int_nat by done.
  rewrite Hmx. cbn [obind]. unfold to_c_int. rewrite Hin1. cbn [mbind lift].
  rewrite Hin2. cbn [mbind lift].
  unfold int_add. rewrite Hin3. cbn [mbind lift]. unfold np_empty at 1.
  destruct (Z.ltb_spec (Z.of_nat (nbodies_of a) + mx) 0) as [Hlt|Hge]; [reflexivity|].
  cbn [orb Z.ltb Z.compare mbind lift]. rewrite Hin4. cbn [mbind lift].
  destruct Hneg as [Hneg|Hneg]; [lia|].
  unfold np_empty. by rewrite (proj2 (Z.ltb_lt _ _) Hneg).
Qed.

Lemma negative_buffer_size_rejected_witness :
  run (toy_externals never) (toy_call [1; 2]%float [-2; -2])
  = ([], Raise (ValueError "negative dimensions are not allowed"))
  /\ run (toy_externals never) (toy_call [1; 2]%float [1; -5])
     = ([], Raise (ValueError "negative dimensions are not allowed")).
Proof.
  split.
  - apply (negative_buffer_size_rejected _ _ (-2));
      [vm_compute; lia|vm_compute; discriminate|vm_compute; discriminate
      |reflexivity|reflexivity|reflexivity|reflexivity|reflexivity
      |left; vm_compute; reflexivity].
  - apply (negative_buffer_size_rejected _ _ 1);
      [vm_compute; lia|vm_compute; discriminate|vm_compute; discriminate
      |reflexivity|reflexivity|reflexivity|reflexivity|reflexivity
      |right; vm_compute; reflexivity].
Defined.

(** The slots of [c_particle_potentials] are written before the first
    call of the integrator.  With counts that are not negative and more
    bodies and particles of one step than [MAX_NBODY], the set-up loops
    write past the table, with no event before that: the run is undefined
    from there on. *)
Lemma table_overflow_before_integration (ext : externals) (a : call) :
  (2 <= ntimes_of a)%nat -> Z.of_nat (ntimes_of a) <= INT_MAX ->
  c_nstream a <> [] -> Forall (fun c => 0 <= c) (c_nstream a) ->
  Z.of_nat (nbodies_of a) + np_sum (c_nstream a) <= INT_MAX ->
  (nbodies_of a <= length (particle_potentials (c_nbody a)))%nat ->
  (MAX_NBODY < nbodies_of a + max_nstream_of a)%nat ->
  run ext a = ([], Undefined).
Proof.
  intros Hnt Hmax Hne Hpos Htotal Hpp Hover. unfold run, mockstream_dop853.
  pose proof (np_sum_nonneg _ Hpos) as Hsum.
  pose proof (max_le_sum _ Hpos) as Hle.
  pose proof (max_nonneg (c_nstream a)) as Hmx.
  destruct (times_read (c_time a) Hnt Hmax) as (E1 & E0 & E2).
  rewrite E1, E0, E2. cbn [mbind lift].
  unfold shape0. fold (nbodies_of a). fold (ntimes_of a).
  rewrite int_of_ssize_id by (unfold INT_MIN; lia).
  rewrite to_c_int_nat by lia.
  rewrite np_max_nonneg by done. cbn [obind].
  replace (foldr Z.max 0 (c_nstream a)) with (Z.of_nat (max_nstream_of a))
    by (unfold max_nstream_of; lia).
  rewrite to_c_int_nat by (unfold max_nstream_of; lia).
  replace (np_sum (c_nstream a)) with (Z.of_nat (Z.to_nat (np_sum (c_nstream a)))) by lia.
  rewrite to_c_int_nat by lia.
  cbn [mbind lift]. unfold int_add.
  rewrite <- !Nat2Z.inj_add.
  replace (in_int (Z.of_nat (nbodies_of a + max_nstream_of a))) with true
    by (symmetry; unfold in_int; apply andb_true_iff;
        split; apply Z.leb_le; unfold INT_MIN, max_nstream_of; lia).
  replace (in_int (Z.of_nat (nbodies_of a + Z.to_nat (np_sum (c_nstream a))))) with true
    by (symmetry; unfold in_int; apply andb_true_iff;
        split; apply Z.leb_le; unfold INT_MIN; lia).
  cbn [mbind lift]. unfold np_empty, np_empty3_check.
  repeat match goal with
  | |- context [Z.of_nat ?n <? 0] =>
      replace (Z.of_nat n <? 0) with false by (symmetry; apply Z.ltb_ge; lia)
  end.
  cbn [orb Z.ltb Z.compare mbind lift].
  rewrite Nat2Z.inj_add.
  by rewrite set_particle_potentials_overflow.
Qed.

Lemma table_of_call_slots (ext : externals) (a : call) :
  (nbodies_of a <= length (particle_potentials (c_nbody a)))%nat ->
  (nbodies_of a + max_nstream_of a <= MAX_NBODY)%nat ->
  length (table_of_call ext a) = MAX_NBODY
  /\ (forall i, (i < nbodies_of a)%nat ->
        table_of_call ext a !! i = Some <$> (particle_potentials (c_nbody a) !! i))
  /\ (forall i, (nbodies_of a <= i < nbodies_of a + max_nstream_of a)%nat ->
        table_of_call ext a !! i = Some (Some (null_p ext)))
  /\ (forall i, (nbodies_of a + max_nstream_of a <= i < MAX_NBODY)%nat ->
        table_of_call ext a !! i = Some None).
Proof.
  intros Hpp Hfit. unfold table_of_call.
  assert (length (Some <$> take (nbodies_of a) (particle_potentials (c_nbody a)))
          = nbodies_of a) as Hl1
    by (rewrite length_fmap, length_take; lia).
  repeat split.
  - rewrite !length_app, Hl1, !length_replicate. lia.
  - intros i Hi. rewrite lookup_app_l by lia.
    rewrite list_lookup_fmap, lookup_take_lt by done.
    destruct (particle_potentials (c_nbody a) !! i); done.
  - intros i Hi. rewrite lookup_app_r by lia. rewrite Hl1.
    rewrite lookup_app_l by (rewrite length_replicate; lia).
    apply lookup_replicate_2. lia.
  - intros i Hi. rewrite lookup_app_r by lia. rewrite Hl1.
    rewrite lookup_app_r by (rewrite length_replicate; lia).
    apply lookup_replicate_2. rewrite length_replicate. lia.
Qed.

(** C9.  In a call of the driver, [nbodies] is the number of rows of
    [nbody._w0] and [max_nstream] is [np.max(nstream)]; the two set-up
    loops write the slots [0 .. nbodies + max_nstream - 1] of the table of
    [MAX_NBODY = 1024] slots, and nothing compares the sum with the size
    of the table.
    In a well-formed call, where the sum is at most [1024], the loops
    write these slots and no other, and this table is the one that both
    entry points of the integrator are given: the orbits that seed every
    stepping call come from the first phase run with it, and the rows of
    the massive bodies in the output come from the last stepping call run
    with it.
    When the sum is larger, the loops write past the last slot: the call
    is undefined from the set-up on, before any event, and no exception is
    raised. *)
Theorem potential_table_unchecked (ext : externals) (a : call) :
  let nbodies := nbodies_of a in
  let max_nstream := max_nstream_of a in
  (well_formed ext a ->
     exists tbl,
       np_max (c_nstream a) = Ok (Z.of_nat max_nstream)
       /\ set_particle_potentials ext (c_nbody a) (Z.of_nat nbodies) (Z.of_nat max_nstream)
          = Ok tbl
       /\ length tbl = MAX_NBODY
       /\ (forall i, (i < nbodies)%nat ->
             tbl !! i = Some <$> (particle_potentials (c_nbody a) !! i))
       /\ (forall i, (nbodies <= i < nbodies + max_nstream)%nat ->
             tbl !! i = Some (Some (null_p ext)))
       /\ (forall i, (nbodies + max_nstream <= i < MAX_NBODY)%nat ->
             tbl !! i = Some None)
       /\ (forall i, (i < ntimes_of a)%nat -> no_signal ext i ->
             exists w,
               fst (run ext a) !! (1 + 2 * i)%nat
               = Some (Step w (nth i (c_stream_t1 a) 0%float) (t2_of a) (dt0_of a)
                         (Z.of_nat (nbodies + released_at a i)))
               /\ take nbodies w
                  = nth i (dop853_helper_save_all ext (H_potential (c_nbody a))
                             (H_frame (c_nbody a)) (_w0 (c_nbody a)) (c_time a) 6
                             (Z.of_nat nbodies) tbl (Z.of_nat (ntimes_of a))
                             (c_atol a) (c_rtol a) (c_nmax a)) [])
       /\ (no_signal ext (ntimes_of a) ->
             exists w out,
               fst (run ext a) !! (1 + 2 * (ntimes_of a - 1))%nat
               = Some (Step w (nth (ntimes_of a - 1) (c_stream_t1 a) 0%float)
                         (t2_of a) (dt0_of a)
                         (Z.of_nat (nbodies + released_at a (ntimes_of a - 1))))
               /\ snd (run ext a) = Ok out
               /\ take nbodies out
                  = take nbodies
                      (dop853_step ext (H_potential (c_nbody a)) (H_frame (c_nbody a))
                         w (nth (ntimes_of a - 1) (c_stream_t1 a) 0%float)
                         (t2_of a) (dt0_of a) 6
                         (Z.of_nat (nbodies + released_at a (ntimes_of a - 1)))
                         tbl (c_atol a) (c_rtol a) (c_nmax a))))
  /\ ((2 <= ntimes_of a)%nat -> Z.of_nat (ntimes_of a) <= INT_MAX ->
      c_nstream a <> [] -> Forall (fun c => 0 <= c) (c_nstream a) ->
      Z.of_nat nbodies + np_sum (c_nstream a) <= INT_MAX ->
      (nbodies <= length (particle_potentials (c_nbody a)))%nat ->
      (MAX_NBODY < nbodies + max_nstream)%nat ->
      np_max (c_nstream a) = Ok (Z.of_nat max_nstream)
      /\ set_particle_potentials ext (c_nbody a) (Z.of_nat nbodies) (Z.of_nat max_nstream)
         = Undefined
      /\ run ext a = ([], Undefined)
      /\ forall e, snd (run ext a) <> Raise e).
Proof.
  intros nbodies max_nstream. subst nbodies max_nstream. split.
  - intros wf. exists (table_of_call ext a).
    destruct (wf_times _ _ wf) as [Hnt2 Hnt].
    destruct (wf_counts _ _ wf) as [Hcl Hcp].
    destruct (table_of_call_slots ext a (wf_potentials _ _ wf) (wf_table _ _ wf))
      as (Hlen & Hbody & Hnull & Hfree).
    split.
    { rewrite np_max_nonneg; [|intros E; rewrite E in Hcl; simpl in Hcl; lia|done].
      f_equal. unfold max_nstream_of. pose proof (max_nonneg (c_nstream a)). lia. }
    split; [apply set_particle_potentials_Ok;
            [apply (wf_potentials _ _ wf)|apply (wf_table _ _ wf)]|].
    split; [exact Hlen|]. split; [exact Hbody|]. split; [exact Hnull|].
    split; [exact Hfree|]. split.
    + intros i Hi Hquiet. exists (seeded ext a (buffer_after ext a i) i).
      pose proof (rect_orbit ext a wf i Hi) as [Hol _]. split.
      * destruct (first_signal ext (ntimes_of a)) as [Hall|(p & Hp & Hq & Hs)].
        -- rewrite (run_quiet ext a wf Hall). simpl fst. by apply step_events_lookup.
        -- rewrite (run_interrupted ext a wf p Hp Hq Hs). simpl fst.
           apply step_events_lookup.
           destruct (decide (i <= p)%nat) as [|Hlt]; [lia|].
           rewrite Hquiet in Hs by lia. discriminate.
      * unfold seeded. by rewrite take_app_length'.
    + intros Hquiet.
      exists (seeded ext a (buffer_after ext a (ntimes_of a - 1)) (ntimes_of a - 1)),
             (expected_output ext a).
      rewrite (run_quiet ext a wf Hquiet). simpl fst. simpl snd.
      split; [apply step_events_lookup; lia|]. split; [done|].
      pose proof (rect_buffer_after ext a wf (ntimes_of a) ltac:(lia)) as [Hbl _].
      unfold expected_output.
      rewrite take_app_length' by (rewrite length_take; lia).
      replace (ntimes_of a) with (S (ntimes_of a - 1)) at 1 by lia.
      reflexivity.
  - intros Hnt Hmax Hne Hpos Htotal Hpp Hover.
    pose proof (table_overflow_before_integration ext a Hnt Hmax Hne Hpos Htotal Hpp Hover)
      as E.
    split.
    { rewrite np_max_nonneg by done.
      f_equal. unfold max_nstream_of. pose proof (max_nonneg (c_nstream a)). lia. }
    split; [by apply set_particle_potentials_overflow|].
    split; [exact E|]. rewrite E. discriminate.
Qed.

Lemma potential_table_unchecked_witness :
  (exists tbl,
     set_particle_potentials (toy_externals never) toy_nbody 1 2 = Ok tbl
     /\ length tbl = MAX_NBODY
     /\ tbl !! 0%nat = Some (Some (potential_struct 2))
     /\ tbl !! 2%nat = Some (Some (potential_struct 0))
     /\ tbl !! 3%nat = Some None)
  /\ run (toy_externals never) (toy_call [1; 2]%float [1024; 0]) = ([], Undefined).
Proof.
  split.
  - destruct (proj1 (potential_table_unchecked (toy_externals never)
                       (toy_call [1; 2]%float [2; 1])) (toy_well_formed never))
      as (tbl & _ & E & Hlen & Hbody & Hnull & Hfree & _).
    exists tbl. split; [exact E|]. split; [exact Hlen|].
    split; [apply (Hbody 0%nat); vm_compute; lia|].
    split; [apply (Hnull 2%nat); vm_compute; lia|apply (Hfree 3%nat); vm_compute; lia].
  - apply (proj2 (potential_table_unchecked (toy_externals never)
                    (toy_call [1; 2]%float [1024; 0])));
      [vm_compute; lia|vm_compute; discriminate|discriminate|repeat constructor; lia
      |vm_compute; discriminate|vm_compute; lia|vm_compute; lia].
Defined.

(** X15. The first time step is [time[1] - time[0]], read before anything
    else and without a check: a grid of fewer than two times is read past
    its end, whatever the other arguments are. *)
Theorem grid_needs_two_times (ext : externals) (a : call) :
  (ntimes_of a < 2)%nat -> run ext a = ([], Undefined).
Proof.
  intros Hnt. unfold run, mockstream_dop853, get1, at_index.
  rewrite lookup_ge_None_2 by (unfold ntimes_of in Hnt; simpl; lia). reflexivity.
Qed.

Lemma grid_needs_two_times_witness :
  run (toy_externals never) (toy_call [1]%float [1]) = ([], Undefined).
Proof. apply grid_needs_two_times. vm_compute. lia. Defined.

(** ** The driver: the lengths that a step relies on *)

Lemma at_index_out {T : Type} (a : list T) (i : Z) :
  Z.of_nat (length a) <= i -> at_index a i = Undefined.
Proof.
  intros Hi. unfold at_index.
  destruct ((0 <=? i) && (i <=? INT_MAX)); [|done].
  by rewrite lookup_ge_None_2 by lia.
Qed.

Lemma release_rows_missing (stream_w0 w : array2) (nbodies n c : Z) :
  0 <= nbodies -> 0 <= n ->
  n <= Z.of_nat (length stream_w0) < n + c ->
  Z.of_nat (length stream_w0) <= INT_MAX ->
  nbodies + c <= Z.of_nat (length w) -> Z.of_nat (length w) <= INT_MAX ->
  Forall (fun row => length row = 6%nat) stream_w0 ->
  Forall (fun row => length row = 6%nat) w ->
  for_range c (fun j w_tmp =>
    for_range 6 (fun k w_tmp =>
      v <- get2 stream_w0 (n + j) k ;; set2 w_tmp (nbodies + j) k v) w_tmp) w
  = Undefined.
Proof.
  intros Hnb Hn Hlen Hmax Hfit Hwmax Hrows Hw.
  set (m := Z.of_nat (length stream_w0) - n).
  eapply (for_range_fails c m); [lia| |].
  - apply (copy_rows (fun j k => get2 stream_w0 (n + j) k) w nbodies m
             (drop (Z.to_nat n) stream_w0)); try done; try lia.
    + rewrite length_drop. lia.
    + by apply Forall_drop.
    + intros j k row x Hrow Hx. rewrite lookup_drop in Hrow.
      apply (get2_Ok _ _ _ row).
      * apply lookup_lt_Some in Hrow. lia.
      * by replace (Z.to_nat (n + Z.of_nat j)) with (Z.to_nat n + j)%nat by lia.
      * eapply row_index; [|exact Hx]. exact (Forall_lookup_1 _ _ _ _ Hrows Hrow).
      * by rewrite Nat2Z.id.
  - rewrite for_range_first by lia. unfold get2.
    by rewrite at_index_out by lia.
Qed.

(** X17. A step relies on lengths that nothing checks.  Once the massive
    bodies are seeded, a count missing for the step ([nstream] shorter than
    the grid), a row of [stream_w0] missing for one of its particles, or a
    release time missing ([stream_t1] shorter than the grid) is read past
    the end of its array.  This read is undefined behaviour; it raises
    nothing, and it comes before the stepping call of the step: the step
    is undefined with the events as they were. *)
Theorem step_inputs_unchecked (ext : externals) (cp : CPotential_t)
    (cf : CFrame_t) (args : potential_table) (nbody_w : array3) (nbodies : Z)
    (stream_w0 : array2) (stream_t1 : array1) (nstream : list Z)
    (t2 dt0 atol rtol : float) (nmax : Z)
    (i : Z) (w_tmp w_seeded w_final : array2) (n : Z) (tr : list event) :
  for_range nbodies (fun j w_tmp =>
    for_range 6 (fun k w_tmp =>
      v <- get3 nbody_w i j k ;; set2 w_tmp j k v) w_tmp) w_tmp = Ok w_seeded ->
  (Z.of_nat (length nstream) <= i ->
     release_step ext cp cf args nbody_w nbodies stream_w0 stream_t1 nstream
       t2 dt0 atol rtol nmax i (w_tmp, w_final, n) tr
     = (tr, Undefined))
  /\ (forall c,
        at_index nstream i = Ok c ->
        0 <= nbodies -> 0 <= n ->
        n <= Z.of_nat (length stream_w0) < n + c ->
        Z.of_nat (length stream_w0) <= INT_MAX ->
        nbodies + c <= Z.of_nat (length w_seeded) <= INT_MAX ->
        Forall (fun row => length row = 6%nat) stream_w0 ->
        Forall (fun row => length row = 6%nat) w_seeded ->
        release_step ext cp cf args nbody_w nbodies stream_w0 stream_t1 nstream
          t2 dt0 atol rtol nmax i (w_tmp, w_final, n) tr
        = (tr, Undefined))
  /\ (forall c w_released,
        at_index nstream i = Ok c ->
        for_range c (fun j w_tmp =>
          for_range 6 (fun k w_tmp =>
            v <- get2 stream_w0 (n + j) k ;;
            set2 w_tmp (nbodies + j) k v) w_tmp) w_seeded = Ok w_released ->
        Z.of_nat (length stream_t1) <= i ->
        release_step ext cp cf args nbody_w nbodies stream_w0 stream_t1 nstream
          t2 dt0 atol rtol nmax i (w_tmp, w_final, n) tr
        = (tr, Undefined)).
Proof.
  intros Hseed. split; [|split].
  - intros Hi. unfold release_step. cbn [mbind lift emit mret fst snd].
    rewrite Hseed. cbv beta iota. by rewrite at_index_out.
  - intros c Hc Hnb Hn Hlen Hmax [Hfit Hwmax] Hrows Hw.
    unfold release_step. cbn [mbind lift emit mret fst snd].
    rewrite Hseed, Hc. cbv beta iota.
    by rewrite release_rows_missing.
  - intros c w_released Hc Hrel Ht1.
    unfold release_step. cbn [mbind lift emit mret fst snd].
    rewrite Hseed, Hc. cbv beta iota. rewrite Hrel. cbv beta iota.
    unfold get1. by rewrite at_index_out.
Qed.

Lemma step_inputs_unchecked_witness :
  release_step (toy_externals never) (potential_struct 1) (frame_struct 0) []
    [[[1; 1; 1; 1; 1; 1]]]%float 1
    [[10; 10; 10; 10; 10; 10]]%float [1]%float [2] 2%float 1%float 0%float 0%float 0
    0 (replicate 3 (replicate 6 0%float), replicate 3 (replicate 6 0%float), 0) []
  = ([], Undefined).
Proof.
  destruct (step_inputs_unchecked (toy_externals never) (potential_struct 1)
              (frame_struct 0) [] [[[1; 1; 1; 1; 1; 1]]]%float 1
              [[10; 10; 10; 10; 10; 10]]%float [1]%float [2] 2%float 1%float 0%float
              0%float 0 0 (replicate 3 (replicate 6 0%float))
              ([1; 1; 1; 1; 1; 1]%float :: replicate 2 (replicate 6 0%float))
              (replicate 3 (replicate 6 0%float)) 0 [])
    as (_ & Hrows & _); [reflexivity|].
  apply (Hrows 2); [reflexivity|lia|lia|simpl; lia|vm_compute; discriminate
                    |simpl; unfold INT_MAX; lia|repeat constructor|repeat constructor].
Defined.
